(** * pdfOrganizer.js: a shallow embedding and its verified properties

    The program renames PDF files to [Title - Author [Year].pdf].  Its
    logic is a cascade of regular-expression tests over JavaScript
    strings, run by a pool of concurrent workers over a directory tree.
    The embedding has these layers:

    - [JS]: JavaScript strings as sequences of UTF-16 code units, with the
      String.prototype methods the program calls;
    - [Re]: a backtracking matcher for the regular expressions of the
      program, following the continuation semantics of ECMA-262
      (section 22.2.2), and RegExp.prototype exec / test / replace / split;
    - [NodePath]: the POSIX flavour of Node's [path] functions;
    - the program itself, function by function, under the names of the
      source; an [async] function is a task that runs from one [await] to
      the next against the file system of that moment;
    - reference definitions (edit scripts, the direct-style reading of
      [processPdfFile]) against which the program is compared.

    The theorems follow the definitions. *)

From Stdlib Require Import NArith ZArith List Bool Ascii String Lia.
From stdpp Require Import base option list gmap.

Import ListNotations.
Local Open Scope nat_scope.

(* ================================================================== *)
(** * JavaScript strings *)
(* ================================================================== *)

Module JS.

(** A JavaScript string is a sequence of 16-bit code units. *)
Definition jsstring := list N.

(** Source literals are written as Rocq strings (UTF-8 bytes) and decoded
    to UTF-16 code units; only the Basic Multilingual Plane occurs in the
    program and in the spec's examples. *)
Fixpoint utf16_of_utf8 (bs : list N) : jsstring :=
  match bs with
  | [] => []
  | b :: rest =>
    if (b <? 128)%N then b :: utf16_of_utf8 rest
    else if (b <? 224)%N then
      match rest with
      | b2 :: rest' =>
        N.lor (N.shiftl (N.land b 31) 6) (N.land b2 63) :: utf16_of_utf8 rest'
      | [] => []
      end
    else
      match rest with
      | b2 :: b3 :: rest' =>
        N.lor (N.shiftl (N.land b 15) 12)
              (N.lor (N.shiftl (N.land b2 63) 6) (N.land b3 63))
          :: utf16_of_utf8 rest'
      | _ => []
      end
  end.

Definition js (s : string) : jsstring :=
  utf16_of_utf8 (map N_of_ascii (list_ascii_of_string s)).

(** The code unit of a one-character ASCII literal. *)
Definition ch (s : string) : N :=
  match s with
  | String a _ => N_of_ascii a
  | EmptyString => 0%N
  end.

Arguments js s%_string.
Arguments ch s%_string.

Definition between (lo hi c : N) : bool := ((lo <=? c) && (c <=? hi))%N.

(** WhiteSpace and LineTerminator of ECMA-262: what [\s] and [trim] see. *)
Definition isLineTerminator (c : N) : bool :=
  ((c =? 10) || (c =? 13) || (c =? 0x2028) || (c =? 0x2029))%N.

Definition isWhiteSpace (c : N) : bool :=
  ((c =? 9) || (c =? 11) || (c =? 12) || (c =? 32) || (c =? 0xA0)
   || (c =? 0x1680) || between 0x2000 0x200A c || (c =? 0x202F)
   || (c =? 0x205F) || (c =? 0x3000) || (c =? 0xFEFF))%N.

Definition isSpace (c : N) : bool := isWhiteSpace c || isLineTerminator c.

Definition isDigit (c : N) : bool := between 48 57 c.

(** Case mapping of a single code unit.  The program's character classes
    only name the Latin letters A-Z, a-z and the Cyrillic letters
    U+0410..U+044F; the mapping covers the basic Latin and Cyrillic
    blocks and leaves every other code unit unchanged. *)
Definition lowerUnit (c : N) : N :=
  if between 65 90 c then (c + 32)%N
  else if between 0x410 0x42F c then (c + 32)%N
  else if between 0x400 0x40F c then (c + 80)%N
  else c.

Definition upperUnit (c : N) : N :=
  if between 97 122 c then (c - 32)%N
  else if between 0x430 0x44F c then (c - 32)%N
  else if between 0x450 0x45F c then (c - 80)%N
  else c.

Definition toLowerCase (s : jsstring) : jsstring := map lowerUnit s.

Definition eqb (a b : jsstring) : bool := bool_decide (a = b).

Fixpoint dropSpaces (s : jsstring) : jsstring :=
  match s with
  | c :: t => if isSpace c then dropSpaces t else s
  | [] => []
  end.

Definition trimStart (s : jsstring) : jsstring := dropSpaces s.
Definition trimEnd (s : jsstring) : jsstring := rev (dropSpaces (rev s)).
Definition trim (s : jsstring) : jsstring := trimEnd (trimStart s).

Fixpoint startsWith (s p : jsstring) : bool :=
  match p, s with
  | [], _ => true
  | a :: p', b :: s' => (a =? b)%N && startsWith s' p'
  | _ :: _, [] => false
  end.

Definition endsWith (s p : jsstring) : bool := startsWith (rev s) (rev p).

Fixpoint includes (s p : jsstring) : bool :=
  startsWith s p ||
  match s with
  | [] => false
  | _ :: t => includes t p
  end.

(** [substring s a b] is [s.slice(a, b)] for [0 <= a <= b]. *)
Definition substring (s : jsstring) (a b : nat) : jsstring :=
  firstn (b - a) (skipn a s).

(** Array.prototype.join *)
Fixpoint join (sep : jsstring) (l : list jsstring) : jsstring :=
  match l with
  | [] => []
  | [x] => x
  | x :: t => x ++ sep ++ join sep t
  end.

(** Decimal rendering of an integer Number (template literals, String),
    for the numbers below 10^21 that JavaScript writes out in full. *)
Fixpoint digitsOfPos (fuel : nat) (n : N) (acc : jsstring) : jsstring :=
  match fuel with
  | O => acc
  | S f =>
    let acc' := (48 + n mod 10)%N :: acc in
    if (n <? 10)%N then acc' else digitsOfPos f (n / 10)%N acc'
  end.

Definition numberToString (z : Z) : jsstring :=
  let n := Z.to_N (Z.abs z) in
  let ds := digitsOfPos (S (N.to_nat (N.log2 n))) n [] in
  if (z <? 0)%Z then 45%N :: ds else ds.

(** parseInt on a string of decimal digits. *)
Definition parseDigits (s : jsstring) : Z :=
  fold_left (fun acc c => (acc * 10 + (Z.of_N c - 48))%Z) s 0%Z.

End JS.

Export JS.

(* ================================================================== *)
(** * Regular expressions *)
(* ================================================================== *)

Module Re.

(** Members of a character class [[...]]. *)
Inductive citem :=
| One (c : N)
| Range (lo hi : N)
| Space                      (* \s *)
| Digit.                     (* \d *)

(** The pattern syntax used by the program.  Capturing groups carry their
    number (counted by opening parenthesis, from 1). *)
Inductive regex :=
| Eps
| Lit (c : N)
| Dot
| Cls (neg : bool) (items : list citem)
| Seq (a b : regex)
| Alt (a b : regex)
| Rep (min : nat) (max : option nat) (greedy : bool) (a : regex)
| Grp (n : nat) (a : regex)
| Bref (n : nat)
| Bol
| Eol.

(** Canonicalize of ECMA-262 (non-unicode mode): the upper-case mapping
    when the [i] flag is set. *)
Definition canon (ic : bool) (c : N) : N := if ic then upperUnit c else c.

Definition item_has (it : citem) (c : N) : bool :=
  match it with
  | One a => (a =? c)%N
  | Range lo hi => between lo hi c
  | Space => isSpace c
  | Digit => isDigit c
  end.

(** CharacterSetMatcher: some member [a] of the set has
    [Canonicalize a = Canonicalize c].  A canonical class is [c] together
    with its two case images, under the case mapping of [upperUnit] and
    [lowerUnit] (Basic Latin and U+0400..U+045F). *)
Definition item_match (ic : bool) (it : citem) (c : N) : bool :=
  if ic then item_has it c || item_has it (upperUnit c) || item_has it (lowerUnit c)
  else item_has it c.

Definition cls_match (ic neg : bool) (items : list citem) (c : N) : bool :=
  xorb neg (existsb (fun it => item_match ic it c) items).

(** Number of the highest capturing group, and the groups inside a term. *)
Fixpoint groups (r : regex) : list nat :=
  match r with
  | Seq a b | Alt a b => groups a ++ groups b
  | Rep _ _ _ a => groups a
  | Grp n a => n :: groups a
  | _ => []
  end.

Definition ngroups (r : regex) : nat := fold_right Nat.max 0 (groups r).

(** The matcher state: position in the input, the input from there on,
    and the captures (index 0 is unused, as the whole match is returned
    separately). *)
Record mstate := MState {
  endIndex : nat;
  rest : jsstring;
  captures : list (option jsstring)
}.

Inductive mres :=
| OutOfFuel
| Failure
| Success (y : mstate).

Definition orElse (a : mres) (b : unit -> mres) : mres :=
  match a with
  | Failure => b tt
  | _ => a
  end.

Definition step1 (x : mstate) : mstate :=
  MState (S (endIndex x)) (tl (rest x)) (captures x).

Definition setCapture (n : nat) (x y : mstate) : mstate :=
  MState (endIndex y) (rest y)
         (<[n := Some (firstn (endIndex y - endIndex x) (rest x))]> (captures y)).

Definition clearCaptures (gs : list nat) (x : mstate) : mstate :=
  MState (endIndex x) (rest x)
         (fold_right (fun g cs => <[g := None]> cs) (captures x) gs).

(** Backreference comparison, code unit by code unit. *)
Fixpoint matchPrefix (ic : bool) (p : jsstring) (x : mstate) : option mstate :=
  match p with
  | [] => Some x
  | a :: p' =>
    match rest x with
    | c :: _ => if (canon ic a =? canon ic c)%N then matchPrefix ic p' (step1 x) else None
    | [] => None
    end
  end.

(** RepeatMatcher of ECMA-262.  Every round either lowers [min] or, by
    the empty-check of step 2.b, consumes input, so the fuel
    [min + |rest| + 1] given at the entry is never exhausted (lemma
    [matcher_total] below). *)
Fixpoint repeatMatcher (ma : mstate -> (mstate -> mres) -> mres) (gs : list nat)
    (fuel : nat) (min : nat) (max : option nat) (greedy : bool)
    (x : mstate) (c : mstate -> mres) : mres :=
  match fuel with
  | O => OutOfFuel
  | S fuel' =>
    match max with
    | Some O => c x
    | _ =>
      let d := fun y : mstate =>
        if Nat.eqb min 0 && Nat.eqb (endIndex y) (endIndex x) then Failure
        else repeatMatcher ma gs fuel' (Nat.pred min) (option_map Nat.pred max) greedy y c in
      let xr := clearCaptures gs x in
      if negb (Nat.eqb min 0) then ma xr d
      else if greedy then orElse (ma xr d) (fun _ => c x)
      else orElse (c x) (fun _ => ma xr d)
    end
  end.

Fixpoint matcher (ic : bool) (r : regex) (x : mstate) (c : mstate -> mres) : mres :=
  match r with
  | Eps => c x
  | Lit a =>
    match rest x with
    | b :: _ => if (canon ic a =? canon ic b)%N then c (step1 x) else Failure
    | [] => Failure
    end
  | Dot =>
    match rest x with
    | b :: _ => if isLineTerminator b then Failure else c (step1 x)
    | [] => Failure
    end
  | Cls neg items =>
    match rest x with
    | b :: _ => if cls_match ic neg items b then c (step1 x) else Failure
    | [] => Failure
    end
  | Seq a b => matcher ic a x (fun y => matcher ic b y c)
  | Alt a b => orElse (matcher ic a x c) (fun _ => matcher ic b x c)
  | Rep min max greedy a =>
    repeatMatcher (matcher ic a) (groups a)
                  (min + length (rest x) + 1) min max greedy x c
  | Grp n a => matcher ic a x (fun y => c (setCapture n x y))
  | Bref n =>
    match captures x !! n with
    | Some (Some s) =>
      match matchPrefix ic s x with
      | Some y => c y
      | None => Failure
      end
    | _ => c x
    end
  | Bol => if Nat.eqb (endIndex x) 0 then c x else Failure
  | Eol => match rest x with [] => c x | _ => Failure end
  end.

(** A compiled RegExp object: pattern and the [i] flag.  (The [g] flag
    only selects between [replace] and [replaceAll] below.) *)
Record RegExp := mkRegExp { ignoreCase : bool; pattern : regex }.

Definition re (r : regex) : RegExp := mkRegExp false r.
Definition rei (r : regex) : RegExp := mkRegExp true r.

(** A successful match: start, end and captures. *)
Record MatchResult := mkMatch {
  mstart : nat;
  mend : nat;
  mcaps : list (option jsstring)
}.

(** One attempt of the pattern at index [i] (a sticky match). *)
Definition matchAt (R : RegExp) (s : jsstring) (i : nat) : option MatchResult :=
  let x := MState i (skipn i s) (replicate (S (ngroups (pattern R))) None) in
  match matcher (ignoreCase R) (pattern R) x Success with
  | Success y => Some (mkMatch i (endIndex y) (captures y))
  | _ => None
  end.

(** RegExpBuiltinExec: the first index from [i] on at which the pattern
    matches; [n] bounds the number of start positions left to try. *)
Fixpoint execLoop (R : RegExp) (s : jsstring) (n i : nat) : option MatchResult :=
  match n with
  | O => None
  | S n' =>
    match matchAt R s i with
    | Some m => Some m
    | None => execLoop R s n' (S i)
    end
  end.

Definition execFrom (R : RegExp) (s : jsstring) (i : nat) : option MatchResult :=
  execLoop R s (S (length s) - i) i.

Definition exec (R : RegExp) (s : jsstring) : option MatchResult := execFrom R s 0.

Definition test (R : RegExp) (s : jsstring) : bool :=
  match exec R s with Some _ => true | None => false end.

(** [match[n]] of a match result on [s] ([n = 0] is the whole match);
    an unset group reads [undefined]. *)
Definition group (s : jsstring) (m : MatchResult) (n : nat) : option jsstring :=
  match n with
  | O => Some (substring s (mstart m) (mend m))
  | _ => mjoin (mcaps m !! n)
  end.

(** String.prototype.replace with a non-global RegExp and a replacement
    string free of [$] patterns: the first match is replaced. *)
Definition replace (R : RegExp) (by_ : jsstring) (s : jsstring) : jsstring :=
  match exec R s with
  | None => s
  | Some m => firstn (mstart m) s ++ by_ ++ skipn (mend m) s
  end.

(** The same with the [g] flag: matches are collected from left to right,
    an empty match advancing lastIndex by one. *)
Fixpoint replaceLoop (R : RegExp) (by_ s : jsstring) (fuel lastIndex next : nat)
    (acc : jsstring) : jsstring :=
  match fuel with
  | O => acc ++ skipn next s
  | S fuel' =>
    match execFrom R s lastIndex with
    | None => acc ++ skipn next s
    | Some m =>
      let acc' := acc ++ substring s next (mstart m) ++ by_ in
      let lastIndex' := if Nat.eqb (mend m) (mstart m) then S (mend m) else mend m in
      replaceLoop R by_ s fuel' lastIndex' (mend m) acc'
    end
  end.

Definition replaceAll (R : RegExp) (by_ : jsstring) (s : jsstring) : jsstring :=
  replaceLoop R by_ s (S (length s)) 0 0 [].

(** String.prototype.split with a RegExp separator without capturing
    groups (RegExp.prototype[@@split]): [p] is the start of the current
    piece, [q] the index at which the separator is tried.  An index is
    visited at most twice. *)
Fixpoint splitLoop (R : RegExp) (s : jsstring) (fuel p q : nat)
    (acc : list jsstring) : list jsstring :=
  match fuel with
  | O => acc ++ [skipn p s]
  | S fuel' =>
    if Nat.ltb q (length s) then
      match matchAt R s q with
      | None => splitLoop R s fuel' p (S q) acc
      | Some m =>
        let e := Nat.min (mend m) (length s) in
        if Nat.eqb e p then splitLoop R s fuel' p (S q) acc
        else splitLoop R s fuel' e e (acc ++ [substring s p q])
      end
    else acc ++ [skipn p s]
  end.

Definition split (R : RegExp) (s : jsstring) : list jsstring :=
  match s with
  | [] => match matchAt R s 0 with Some _ => [] | None => [s] end
  | _ => splitLoop R s (2 * length s + 1) 0 0 []
  end.

(** Pattern-building shorthands, named after the concrete syntax. *)
Fixpoint lits (s : jsstring) : regex :=
  match s with
  | [] => Eps
  | [c] => Lit c
  | c :: t => Seq (Lit c) (lits t)
  end.

Fixpoint cat (l : list regex) : regex :=
  match l with
  | [] => Eps
  | [r] => r
  | r :: t => Seq r (cat t)
  end.

Definition star (r : regex) : regex := Rep 0 None true r.       (* r*  *)
Definition plus (r : regex) : regex := Rep 1 None true r.       (* r+  *)
Definition opt (r : regex) : regex := Rep 0 (Some 1) true r.    (* r?  *)
Definition plusLazy (r : regex) : regex := Rep 1 None false r.  (* r+? *)
Definition atLeast (n : nat) (r : regex) : regex := Rep n None true r.            (* r{n,}   *)
Definition exactly (n : nat) (r : regex) : regex := Rep n (Some n) true r.        (* r{n}    *)
Definition rangeLazy (n k : nat) (r : regex) : regex := Rep n (Some k) false r.   (* r{n,k}? *)
Definition ws : regex := Cls false [Space].                     (* \s *)
Definition digit : regex := Cls false [Digit].                  (* \d *)

End Re.

Export Re.

(* ================================================================== *)
(** * The program: text normalisation and author validation *)
(* ================================================================== *)

(** Character classes that recur in the program's patterns. *)
Definition A_Z : citem := Range (ch "A") (ch "Z").
Definition a_z : citem := Range (ch "a") (ch "z").
Definition cyrA_Ya : citem := Range 0x410 0x42F.   (* А-Я *)
Definition cyra_ya : citem := Range 0x430 0x44F.   (* а-я *)
Definition d0_9 : citem := Range (ch "0") (ch "9").

Definition upperLetter : regex := Cls false [A_Z; cyrA_Ya].   (* [A-ZА-Я] *)
Definition lowerLetter : regex := Cls false [a_z; cyra_ya].   (* [a-zа-я] *)
Definition anyLetter : regex :=                               (* [A-Za-zА-Яа-я] *)
  Cls false [A_Z; a_z; cyrA_Ya; cyra_ya].

(** JavaScript truthiness of a string: non-empty. *)
Definition truthy (s : jsstring) : bool :=
  match s with [] => false | _ => true end.

(** [cleanupText] on a string; on [undefined] / [null] the source returns
    its argument, which callers obtain with [cleanupText <$> _]. *)
Definition cleanupText (text : jsstring) : jsstring :=
  if negb (truthy text) then text
  else
    trim
      (replaceAll (re (plus ws)) (js " ")
         (replaceAll (re (plus (Cls false [One (ch "_"); One (ch ".")]))) (js " ") text)).

(** The [dp] table of [levenshteinDistance]: rows of cells, read and
    written by index. *)
Definition dpGet (dp : list (list Z)) (i j : nat) : Z :=
  default 0%Z (dp !! i ≫= fun row => row !! j).

Definition dpSet (dp : list (list Z)) (i j : nat) (v : Z) : list (list Z) :=
  alter (fun row => <[j := v]> row) i dp.

Definition levCell (str1 str2 : jsstring) (i : nat) (dp : list (list Z)) (j : nat)
    : list (list Z) :=
  if bool_decide (str1 !! (i - 1) = str2 !! (j - 1)) then
    dpSet dp i j (dpGet dp (i - 1) (j - 1))
  else
    dpSet dp i j
      (1 + Z.min (dpGet dp (i - 1) j)
                 (Z.min (dpGet dp i (j - 1)) (dpGet dp (i - 1) (j - 1))))%Z.

Definition levRow (str1 str2 : jsstring) (n : nat) (dp : list (list Z)) (i : nat)
    : list (list Z) :=
  fold_left (levCell str1 str2 i) (seq 1 n) dp.

Definition levenshteinDistance (str1 str2 : jsstring) : Z :=
  let m := length str1 in
  let n := length str2 in
  let dp := replicate (m + 1) (replicate (n + 1) 0%Z) in
  let dp := fold_left (fun dp i => dpSet dp i 0 (Z.of_nat i)) (seq 0 (m + 1)) dp in
  let dp := fold_left (fun dp j => dpSet dp 0 j (Z.of_nat j)) (seq 0 (n + 1)) dp in
  let dp := fold_left (levRow str1 str2 n) (seq 1 m) dp in
  dpGet dp m n.

(** The nested [for] loops closing [isValidAuthorName]: [true] when no
    pair of parts triggers the early [return false]. *)
Definition tooSimilar (p q : jsstring) : bool :=
  JS.eqb (toLowerCase p) (toLowerCase q)
  || ((length p <? 10) && (length q <? 10)
      && (levenshteinDistance p q <=? 1)%Z).

Fixpoint noSimilarParts (parts : list jsstring) : bool :=
  match parts with
  | [] => true
  | p :: later => forallb (fun q => negb (tooSimilar p q)) later && noSimilarParts later
  end.

Definition usernamePattern : RegExp :=            (* /^[a-z]+\d+$/i *)
  rei (cat [Bol; plus (Cls false [a_z]); plus digit; Eol]).

Definition namePattern : RegExp :=
  (* /^[A-ZА-Я][a-zа-я]+$|^[A-ZА-Я]\.$|^[A-ZА-Я]$|^[A-ZА-Я][a-zа-я]+[A-ZА-Яa-zа-я\s]*$/ *)
  re (Alt (cat [Bol; upperLetter; plus lowerLetter; Eol])
     (Alt (cat [Bol; upperLetter; Lit (ch "."); Eol])
     (Alt (cat [Bol; upperLetter; Eol])
          (cat [Bol; upperLetter; plus lowerLetter;
                star (Cls false [A_Z; cyrA_Ya; a_z; cyra_ya; Space]); Eol])))).

Definition isValidAuthorName (text : jsstring) : bool :=
  if negb (truthy text) then false
  else
    (* text.replace(/[.,\s-]/g, "") *)
    let cleanText :=
      replaceAll (re (Cls false [One (ch "."); One (ch ","); Space; One (ch "-")])) [] text in
    (* /(.)\1{2,}/ *)
    if test (re (Seq (Grp 1 Dot) (atLeast 2 (Bref 1)))) cleanText then false
    else
      (* /^[^A-Za-zА-Яа-я0-9]+$/ *)
      let weirdSymbolsOnly :=
        test (re (cat [Bol; plus (Cls true [A_Z; a_z; cyrA_Ya; cyra_ya; d0_9]); Eol]))
             cleanText in
      if weirdSymbolsOnly then false
      else
        let hasLetters := test (re anyLetter) cleanText in
        if negb hasLetters then false
        else if (length cleanText <? 2) || (100 <? length cleanText) then false
        else
          (* text.split(/\s*[-,]\s*/) *)
          let parts :=
            split (re (cat [star ws; Cls false [One (ch "-"); One (ch ",")]; star ws])) text in
          let uniqueParts : gset jsstring := list_to_set (map toLowerCase parts) in
          if size uniqueParts <? length parts then false
          else if 6 <? length parts then false
          else
            let hasUsernamePart := existsb (test usernamePattern) parts in
            if hasUsernamePart then false
            else
              let hasValidNamePart := existsb (test namePattern) parts in
              if negb hasValidNamePart then false
              else noSimilarParts parts.

Definition initialPattern : RegExp :=             (* /^[A-ZА-Я]\.$|^[A-ZА-Я]$/ *)
  re (Alt (cat [Bol; upperLetter; Lit (ch "."); Eol])
          (cat [Bol; upperLetter; Eol])).

Definition isLikelyAuthor (text : jsstring) : bool :=
  if negb (isValidAuthorName text) then false
  else
    let words := split (re (plus ws)) text in
    let hasInitials := existsb (test initialPattern) words in
    let hasCommaOrDot := test (re (Cls false [One (ch "."); One (ch ",")])) text in
    let isShortName :=
      (length words <=? 3) && existsb (fun word => length word <=? 2) words in
    hasInitials
    || (hasCommaOrDot && isShortName)
    || ((length words <=? 3) && hasInitials).

(* ================================================================== *)
(** * Node's [path] module (POSIX) *)
(* ================================================================== *)

Module NodePath.

Definition slash : N := 47.
Definition dot : N := 46.

Definition isSlash (c : N) : bool := (c =? slash)%N.

Fixpoint dropSlashes (s : jsstring) : jsstring :=
  match s with
  | c :: t => if isSlash c then dropSlashes t else s
  | [] => []
  end.

Fixpoint takeSegment (s : jsstring) : jsstring :=
  match s with
  | c :: t => if isSlash c then [] else c :: takeSegment t
  | [] => []
  end.

Fixpoint dropSegment (s : jsstring) : jsstring :=
  match s with
  | c :: t => if isSlash c then s else dropSegment t
  | [] => []
  end.

(** [path.basename(p)]: trailing separators are ignored, the result is
    what follows the last remaining separator. *)
Definition basename (p : jsstring) : jsstring :=
  rev (takeSegment (dropSlashes (rev p))).

(** [path.dirname(p)]: the scan runs from the end down to index 1. *)
Definition dirname (p : jsstring) : jsstring :=
  match p with
  | [] => [dot]
  | c0 :: t =>
    let hasRoot := isSlash c0 in
    match dropSegment (dropSlashes (rev t)) with
    | _ :: before =>
      if hasRoot && Nat.eqb (length before) 0 then [slash; slash]
      else c0 :: rev before
    | [] => if hasRoot then [slash] else [dot]
    end
  end.

(** Index of the last dot of a file name, scanning from the right. *)
Fixpoint lastDot (s : jsstring) (i : nat) (found : option nat) : option nat :=
  match s with
  | [] => found
  | c :: t => lastDot t (S i) (if (c =? dot)%N then Some i else found)
  end.

(** Where [path.parse] / [path.extname] cut a base name: at its last
    dot, unless there is none, it is the first character, or the name is
    exactly [..]. *)
Definition extStart (base : jsstring) : option nat :=
  match lastDot base 0 None with
  | None => None
  | Some O => None
  | Some d => if JS.eqb base [dot; dot] then None else Some d
  end.

Definition extname (p : jsstring) : jsstring :=
  let base := basename p in
  match extStart base with
  | None => []
  | Some d => skipn d base
  end.

(** [path.parse(p).name] *)
Definition parseName (p : jsstring) : jsstring :=
  let base := basename p in
  match extStart base with
  | None => base
  | Some d => firstn d base
  end.

(** The segments of a path, separators removed. *)
Fixpoint segments (fuel : nat) (s : jsstring) : list jsstring :=
  match fuel with
  | O => []
  | S f =>
    match dropSegment s with
    | [] => [takeSegment s]
    | _ :: t => takeSegment s :: segments f t
    end
  end.

(** normalizeString: empty and [.] segments vanish, [..] removes the
    segment before it where there is one to remove. *)
Fixpoint normalizeSegments (allowAboveRoot : bool) (segs stack : list jsstring)
    : list jsstring :=
  match segs with
  | [] => rev stack
  | s :: t =>
    if JS.eqb s [] || JS.eqb s [dot] then normalizeSegments allowAboveRoot t stack
    else if JS.eqb s [dot; dot] then
      match stack with
      | top :: below =>
        if JS.eqb top [dot; dot] then normalizeSegments allowAboveRoot t (s :: stack)
        else normalizeSegments allowAboveRoot t below
      | [] =>
        normalizeSegments allowAboveRoot t (if allowAboveRoot then [s] else [])
      end
    else normalizeSegments allowAboveRoot t (s :: stack)
  end.

Definition normalize (p : jsstring) : jsstring :=
  match p with
  | [] => [dot]
  | c0 :: _ =>
    let isAbsolute := isSlash c0 in
    let trailingSeparator := isSlash (List.last p 0%N) in
    let res :=
      join [slash]
           (normalizeSegments (negb isAbsolute) (segments (S (length p)) p) []) in
    match res with
    | [] => if isAbsolute then [slash]
            else if trailingSeparator then [dot; slash] else [dot]
    | _ =>
      let res := if trailingSeparator then res ++ [slash] else res in
      if isAbsolute then slash :: res else res
    end
  end.

(** [path.join(a, b)] *)
Definition join2 (a b : jsstring) : jsstring :=
  match a, b with
  | [], [] => [dot]
  | [], _ => normalize b
  | _, [] => normalize a
  | _, _ => normalize (a ++ [slash] ++ b)
  end.

End NodePath.

(* ================================================================== *)
(** * The program: parsing and formatting file names *)
(* ================================================================== *)

(** [{title, author, year}]; an absent field ([null] / [undefined]) is
    [None]. *)
Record Metadata := mkMetadata {
  title : option jsstring;
  author : option jsstring;
  year : option Z
}.

(** Truthiness of a field: a non-empty string, a non-zero number. *)
Definition truthyStr (v : option jsstring) : bool :=
  match v with Some s => truthy s | None => false end.

Definition truthyNum (v : option Z) : bool :=
  match v with Some z => negb (z =? 0)%Z | None => false end.

Definition publishersToRemove : list jsstring :=
  [ js "Dorling Kindersley"; js "DK"; js "McGraw-Hill"; js "McGraw Hill";
    js "O'Reilly"; js "Packt"; js "Apress"; js "Manning"; js "Wiley" ].

(** new RegExp("^" + publisher + "\\.?\\s*", "i") *)
Definition publisherRegExp (publisher : jsstring) : RegExp :=
  rei (cat [Bol; lits publisher; opt (Lit (ch ".")); star ws]).

(** The year pattern: an optional [ or ( , four digits (group 1), an
    optional ] or ) , an optional non-capturing group holding a greedy
    whitespace run, and the end of input. *)
Definition yearPattern : RegExp :=
  re (cat [opt (Cls false [One (ch "["); One (ch "(")]);
           Grp 1 (exactly 4 digit);
           opt (Cls false [One (ch "]"); One (ch ")")]);
           opt (star ws);
           Eol]).

(** [A-Za-zА-Яа-я\s,.] *)
Definition nameChar : regex :=
  Cls false [A_Z; a_z; cyrA_Ya; cyra_ya; Space; One (ch ","); One (ch ".")].

Definition patterns : list RegExp :=
  [ (* Author - Title:  /^([A-Za-zА-Яа-я][A-Za-zА-Яа-я\s,.]{0,50}?)\s+-\s+(.+?)$/ *)
    re (cat [Bol; Grp 1 (Seq anyLetter (rangeLazy 0 50 nameChar));
             plus ws; Lit (ch "-"); plus ws; Grp 2 (plusLazy Dot); Eol]);
    (* Title - Author:  /^(.+?)\s+-\s+([A-Za-zА-Яа-я][A-Za-zА-Яа-я\s,.]{0,50}?)$/ *)
    re (cat [Bol; Grp 1 (plusLazy Dot); plus ws; Lit (ch "-"); plus ws;
             Grp 2 (Seq anyLetter (rangeLazy 0 50 nameChar)); Eol]);
    (* Title by Author: /^(.+?)\s+by\s+([A-Za-zА-Яа-я][A-Za-zА-Яа-я\s,.]+?)$/i *)
    rei (cat [Bol; Grp 1 (plusLazy Dot); plus ws; lits (js "by"); plus ws;
              Grp 2 (Seq anyLetter (plusLazy nameChar)); Eol]);
    (* Title (Author):  /^(.+?)\s+\(([A-Za-zА-Яа-я][A-Za-zА-Яа-я\s,.]+?)\)$/ *)
    re (cat [Bol; Grp 1 (plusLazy Dot); plus ws; Lit (ch "(");
             Grp 2 (Seq anyLetter (plusLazy nameChar)); Lit (ch ")"); Eol]);
    (* Single part:     /^(.+?)$/ *)
    re (cat [Bol; Grp 1 (plusLazy Dot); Eol]) ].

(** The prelude of [parseFilename]: extension removed, text cleaned,
    publisher prefix and trailing year taken off.  Returns [cleanName] and
    [year] as they stand when the pattern loop starts. *)
Definition stripPublishers (nameWithoutExt : jsstring) : jsstring :=
  fold_left (fun cleanName publisher => replace (publisherRegExp publisher) [] cleanName)
            publishersToRemove nameWithoutExt.

Definition parsePrelude (filename : jsstring) : jsstring * option Z :=
  let nameWithoutExt := cleanupText (NodePath.parseName filename) in
  let cleanName := stripPublishers nameWithoutExt in
  let yearMatch := exec yearPattern cleanName in
  let year :=
    match yearMatch with
    | Some m => Some (parseDigits (default [] (group cleanName m 1)))
    | None => None
    end in
  let cleanName :=
    if truthyNum year then trim (replace yearPattern [] cleanName) else cleanName in
  (cleanName, year).

(** The body of [if (match)] for a two-part pattern. *)
Definition splitTwoParts (firstPart secondPart : jsstring) (year : option Z) : Metadata :=
  let isFirstPartAuthor := isLikelyAuthor firstPart in
  let isSecondPartAuthor := isLikelyAuthor secondPart in
  if isFirstPartAuthor || isSecondPartAuthor then
    if isFirstPartAuthor then mkMetadata (Some secondPart) (Some firstPart) year
    else mkMetadata (Some firstPart) (Some secondPart) year
  else
    let useFirstAsAuthor := length firstPart <=? length secondPart in
    mkMetadata (Some (if useFirstAsAuthor then secondPart else firstPart))
               (Some (if useFirstAsAuthor then firstPart else secondPart))
               year.

(** [for (const pattern of patterns)]: the first pattern that matches
    decides. *)
Fixpoint patternLoop (ps : list RegExp) (cleanName : jsstring) (year : option Z)
    : Metadata :=
  match ps with
  | [] => mkMetadata (Some cleanName) None year
  | pattern :: later =>
    match exec pattern cleanName with
    | Some m =>
      (* match.length > 2 *)
      if 2 <? S (ngroups (Re.pattern pattern)) then
        let firstPart := trim (default [] (group cleanName m 1)) in
        let secondPart := trim (default [] (group cleanName m 2)) in
        splitTwoParts firstPart secondPart year
      else
        mkMetadata (Some (trim (default [] (group cleanName m 1)))) None year
    | None => patternLoop later cleanName year
    end
  end.

Definition parseFilename (filename : jsstring) : Metadata :=
  let '(cleanName, year) := parsePrelude filename in
  patternLoop patterns cleanName year.

(** /^[A-ZА-Я][a-zа-я]+$/ *)
Definition capitalizedWord : RegExp :=
  re (cat [Bol; upperLetter; plus lowerLetter; Eol]).

(** The grouping loop of [formatAuthorName]. *)
Fixpoint groupAuthors (parts currentAuthor authors : list jsstring) : list jsstring :=
  match parts with
  | [] => authors
  | part :: later =>
    let currentAuthor :=
      currentAuthor ++
        [if test (re (cat [Bol; upperLetter; Eol])) part then part ++ js "." else part] in
    let isLastPart := match later with [] => true | _ => false end in
    let nextPartIsNewAuthor :=
      match later with
      | nextPart :: _ => truthy nextPart && test capitalizedWord nextPart
      | [] => false
      end in
    if isLastPart || nextPartIsNewAuthor then
      let authorName := trim (join (js " ") currentAuthor) in
      groupAuthors later [] (if truthy authorName then authors ++ [authorName] else authors)
    else groupAuthors later currentAuthor authors
  end.

(** [authors.map((a, i) => i < authors.length - 1 ? a + "," : a)] *)
Fixpoint commaAfterEachButLast (authors : list jsstring) : list jsstring :=
  match authors with
  | [] => []
  | [a] => [a]
  | a :: later => (a ++ js ",") :: commaAfterEachButLast later
  end.

Definition formatAuthorName (author : jsstring) : jsstring :=
  if negb (truthy author) then author
  else
    (* author.split(/\s*[,]\s*|\s+/) *)
    let parts :=
      split (re (Alt (cat [star ws; Cls false [One (ch ",")]; star ws]) (plus ws))) author in
    let hasInitialsFirst :=
      (2 <=? length parts)
      && forallb (test (re (cat [Bol; upperLetter; opt (Lit (ch ".")); Eol])))
                 (removelast parts) in
    if hasInitialsFirst then
      let initials :=
        map (fun part => replace (re (Seq (Lit (ch ".")) Eol)) [] part ++ js ".")
            (removelast parts) in
      let lastName := List.last parts [] in
      join (js " ") (initials ++ [lastName])
    else
      let authors := groupAuthors parts [] [] in
      if 1 <? length authors then
        trim (replaceAll (re (cat [star ws; Lit (ch ","); star ws])) (js ", ")
                (join (js " ") (commaAfterEachButLast authors)))
      else
        match authors with
        | a :: _ => a
        | [] => []
        end.

(** The characters the sanitising class names: less-than, greater-than,
    colon, double quote (34), slash, backslash (92), bar, question mark
    and asterisk. *)
Definition invalidChars : list citem :=
  [One (ch "<"); One (ch ">"); One (ch ":"); One 34; One (ch "/"); One 92;
   One (ch "|"); One (ch "?"); One (ch "*")].

(** /\s*-\s*$/ and /^\s*-\s*/ *)
Definition trailingDash : RegExp := re (cat [star ws; Lit (ch "-"); star ws; Eol]).
Definition leadingDash : RegExp := re (cat [Bol; star ws; Lit (ch "-"); star ws]).

Definition yearSuffix (y : option Z) : jsstring :=
  match y with
  | Some z => if truthyNum y then js " [" ++ numberToString z ++ js "]" else []
  | None => []
  end.

(** "Replace invalid characters and clean up" (lines 366-370). *)
Definition sanitize (newName : jsstring) : jsstring :=
  trim
    (replaceAll (re (plus ws)) (js " ")
       (replaceAll (re (cat [plus ws; Lit (ch "-"); plus ws; Lit (ch "-"); plus ws]))
                   (js " - ")
          (replaceAll (re (Cls false invalidChars)) (js "-") newName))).

(** "Final check for any remaining double dashes or suspicious
    patterns" (lines 373-377); the last test is a character followed by
    three or more copies of itself. *)
Definition looksSuspicious (newName : jsstring) : bool :=
  includes newName (js " - - ")
  || includes newName (js "jross")
  || test (re (Seq (Grp 1 Dot) (atLeast 3 (Bref 1)))) newName.

Definition generateNewFilename (metadata : Metadata) : option jsstring :=
  if negb (truthyStr (title metadata)) then None
  else
    let title_ :=
      replace leadingDash []
        (replace trailingDash [] (cleanupText (default [] (title metadata)))) in
    let author_ := cleanupText <$> author metadata in
    if negb (truthy title_) then None
    else
      let newName := title_ in
      let newName :=
        if truthyStr author_ && isValidAuthorName (default [] author_) then
          let author_ :=
            replace leadingDash []
              (replace trailingDash [] (formatAuthorName (default [] author_))) in
          if truthy author_ && negb (endsWith newName (js "-"))
             && negb (startsWith author_ (js "-"))
          then newName ++ js " - " ++ author_
          else newName
        else newName in
      let newName := newName ++ yearSuffix (year metadata) in
      let newName := sanitize newName in
      let newName :=
        if looksSuspicious newName then title_ ++ yearSuffix (year metadata)
        else newName in
      Some (newName ++ js ".pdf").

(* ================================================================== *)
(** * The file system and the external collaborators *)
(* ================================================================== *)

(** A regular file: its content (an identifier, so that an overwritten
    file can be told from the one that replaced it) and what
    [pdfExtract.extract] finds in it ([None]: the extraction throws). *)
Record File := mkFile {
  content : N;
  info : option Metadata
}.

(** Regular files and directories, by absolute path in normal form.
    The paths the program makes itself, [path.join] of a listed directory
    and an entry name, are looked up as written; the path of the
    directory to list comes from the environment in any spelling and is
    resolved first, through the root whether or not it is listed. *)
Record FileSystem := mkFS {
  files : gmap jsstring File;
  dirs : gset jsstring
}.

(** [fs.pathExists] *)
Definition pathExists (fs : FileSystem) (p : jsstring) : bool :=
  bool_decide (is_Some (files fs !! p)) || bool_decide (p ∈ dirs fs).

(** [fs.rename]: rename(2).  The call rejects ([None]) when the source is
    missing, the target's directory is missing or the target is a
    directory; an existing regular file at the target is replaced. *)
Definition rename (fs : FileSystem) (src dst : jsstring) : option FileSystem :=
  match files fs !! src with
  | None => None
  | Some f =>
    if bool_decide (NodePath.dirname dst ∈ dirs fs) && negb (bool_decide (dst ∈ dirs fs))
    then Some (mkFS (<[dst := f]> (delete src (files fs))) (dirs fs))
    else None
  end.

(** Path resolution as the system call does it: from the root or from
    the working directory [cwd], one segment after the other.  Empty
    segments and [.] stay where they are, [..] goes to the parent, and a
    name enters the entry of that name, which has to be a directory.
    [None]: some segment names no directory (ENOENT, ENOTDIR). *)
Fixpoint enterSegments (fs : FileSystem) (current : jsstring) (segs : list jsstring)
    : option jsstring :=
  match segs with
  | [] => Some current
  | s :: later =>
    if JS.eqb s [] || JS.eqb s [NodePath.dot] then enterSegments fs current later
    else if JS.eqb s [NodePath.dot; NodePath.dot]
    then enterSegments fs (NodePath.dirname current) later
    else
      let entry := NodePath.join2 current s in
      if bool_decide (entry ∈ dirs fs) then enterSegments fs entry later else None
  end.

Definition resolveDirectory (fs : FileSystem) (cwd dir : jsstring) : option jsstring :=
  match dir with
  | [] => None
  | c0 :: _ =>
    enterSegments fs (if NodePath.isSlash c0 then [NodePath.slash] else cwd)
                  (NodePath.segments (S (length dir)) dir)
  end.

(** The working directory of the process, from which [fs.readdir]
    resolves a relative path.  The file system does not record it: the
    root stands for it, and the relative paths a walk from a relative
    directory makes are looked up as written.  What is proved below of a
    source directory that leads to no directory is therefore proved for
    every working directory. *)
Definition workingDirectory : jsstring := [NodePath.slash].

(** [fs.readdir(dir, { withFileTypes: true })]: entry names with their
    [isDirectory()] flag; rejects when [dir] does not lead to a
    directory. *)
Definition readdir (fs : FileSystem) (dir : jsstring) : option (list (jsstring * bool)) :=
  match resolveDirectory fs workingDirectory dir with
  | Some resolved =>
    let isChild (p : jsstring) :=
      JS.eqb (NodePath.dirname p) resolved && negb (JS.eqb p resolved) in
    Some (map (fun p => (NodePath.basename p, true))
              (filter (fun p => isChild p = true) (elements (dirs fs)))
          ++ map (fun p => (NodePath.basename p, false))
                 (filter (fun p => isChild p = true) (map fst (map_to_list (files fs)))))
  | None => None
  end.

(** [extractPdfMetadata]: [null] when the extraction throws. *)
Definition extractPdfMetadata (fs : FileSystem) (filePath : jsstring) : option Metadata :=
  files fs !! filePath ≫= info.

(** What the program does to the outside world, in order. *)
Inductive event :=
| EvExtract (filePath : jsstring)              (* pdfExtract.extract is called *)
| EvPathExists (path : jsstring)               (* fs.pathExists is called *)
| EvRename (src dst : jsstring)                (* fs.rename is called *)
| EvLogRenamed (filename newFilename : jsstring)   (* console.log "Renamed: ..." *)
| EvLogMetadataError (filePath : jsstring)     (* console.error "Error reading metadata ..." *)
| EvLogProcessingError (filePath : jsstring)   (* console.error "Error processing ..." *)
| EvLogError                                   (* console.error "Error: ..." *)
| EvTick (file : jsstring).                    (* progressBar.tick *)

(* ================================================================== *)
(** * The program: processing one file *)
(* ================================================================== *)

(** [a || b] on fields. *)
Definition orStr (a b : option jsstring) : option jsstring :=
  if truthyStr a then a else b.

Definition orNum (a b : option Z) : option Z :=
  if truthyNum a then a else b.

(** The object literal built when [pdfMetadata] is not [null]. *)
Definition mergeMetadata (metadata pdfMetadata : Metadata) : Metadata :=
  {| title := orStr (title metadata) (title pdfMetadata);
     author := orStr (author pdfMetadata) (author metadata);
     year := orNum (year metadata) (year pdfMetadata) |}.

(** Lines 392-407 of [processPdfFile]: the metadata the rest of the
    function works with, and the calls made to obtain it. *)
Definition resolveMetadata (fs : FileSystem) (filePath : jsstring) (filenameMetadata : Metadata)
    : Metadata * list event :=
  if negb (truthyStr (author filenameMetadata)) then
    match extractPdfMetadata fs filePath with
    | Some pdfMetadata =>
      (mergeMetadata filenameMetadata pdfMetadata, [EvExtract filePath])
    | None => (filenameMetadata, [EvExtract filePath; EvLogMetadataError filePath])
    end
  else (filenameMetadata, []).

Inductive skipReason := NoTitle | NothingToDo | Collision.

Inductive outcome :=
| Renamed (newPath : jsstring)
| Skipped (why : skipReason)
| Failed.

(** [processPdfFile] is an async function: it runs until its next [await]
    and resumes when the awaited call settles.  A [task] is a call of
    [processPdfFile] suspended at one of its three awaits, or finished. *)
Inductive task :=
| AwaitExtract (filePath : jsstring) (filenameMetadata : Metadata)
| AwaitPathExists (filePath filename newFilename newPath : jsstring)
| AwaitRename (filePath filename newFilename newPath : jsstring)
| Finished (filePath : jsstring) (o : outcome).

(** From [if (!metadata.title)] to [await fs.pathExists(newPath)]. *)
Definition afterMetadata (filePath filename : jsstring) (metadata : Metadata) : task :=
  if negb (truthyStr (title metadata)) then Finished filePath (Skipped NoTitle)
  else
    match generateNewFilename metadata with
    | None => Finished filePath (Skipped NothingToDo)
    | Some newFilename =>
      if JS.eqb newFilename filename then Finished filePath (Skipped NothingToDo)
      else
        let dirPath := NodePath.dirname filePath in
        let newPath := NodePath.join2 dirPath newFilename in
        AwaitPathExists filePath filename newFilename newPath
    end.

(** From the entry of [processPdfFile] to its first await. *)
Definition startTask (filePath : jsstring) : task :=
  let filename := NodePath.basename filePath in
  let filenameMetadata := parseFilename filename in
  if negb (truthyStr (author filenameMetadata)) then AwaitExtract filePath filenameMetadata
  else afterMetadata filePath filename filenameMetadata.

(** The awaited call settles against the file system as it is at that
    moment, and the function runs on to its next await. *)
Definition stepTask (fs : FileSystem) (t : task) : FileSystem * task * list event :=
  match t with
  | AwaitExtract filePath filenameMetadata =>
    let '(metadata, evs) := resolveMetadata fs filePath filenameMetadata in
    (fs, afterMetadata filePath (NodePath.basename filePath) metadata, evs)
  | AwaitPathExists filePath filename newFilename newPath =>
    if pathExists fs newPath && negb (JS.eqb newPath filePath) then
      (fs, Finished filePath (Skipped Collision), [EvPathExists newPath])
    else
      (fs, AwaitRename filePath filename newFilename newPath, [EvPathExists newPath])
  | AwaitRename filePath filename newFilename newPath =>
    match rename fs filePath newPath with
    | Some fs' =>
      (fs', Finished filePath (Renamed newPath),
       [EvRename filePath newPath; EvLogRenamed filename newFilename])
    | None =>
      (fs, Finished filePath Failed,
       [EvRename filePath newPath; EvLogProcessingError filePath])
    end
  | Finished _ _ => (fs, t, [])
  end.

(** One call of [processPdfFile] run to completion with nothing else
    touching the file system in between: at most three awaits. *)
Definition processPdfFile (fs : FileSystem) (filePath : jsstring)
    : FileSystem * task * list event :=
  let t0 := startTask filePath in
  let '(fs1, t1, e1) := stepTask fs t0 in
  let '(fs2, t2, e2) := stepTask fs1 t1 in
  let '(fs3, t3, e3) := stepTask fs2 t2 in
  (fs3, t3, e1 ++ e2 ++ e3).

(* ================================================================== *)
(** * The program: directory walk, worker pool, main *)
(* ================================================================== *)

Inductive walkResult :=
| WalkRejected                       (* a readdir rejected *)
| WalkOutOfFuel
| WalkDone (pdfFiles : list jsstring).

(** The callback of [items.map] in [getAllPdfFiles]. *)
Definition visitItem (currentDir : jsstring) (acc : list jsstring * list jsstring)
    (item : jsstring * bool) : list jsstring * list jsstring :=
  let '(stack, pdfFiles) := acc in
  let '(name, isDirectory) := item in
  let itemPath := NodePath.join2 currentDir name in
  if isDirectory then (stack ++ [itemPath], pdfFiles)
  else if JS.eqb (toLowerCase (NodePath.extname name)) (js ".pdf")
       then (stack, pdfFiles ++ [itemPath])
       else (stack, pdfFiles).

Fixpoint walk (fuel : nat) (fs : FileSystem) (stack pdfFiles : list jsstring) : walkResult :=
  match stack with
  | [] => WalkDone pdfFiles
  | _ =>
    match fuel with
    | O => WalkOutOfFuel
    | S fuel' =>
      let currentDir := List.last stack [] in        (* stack.pop() *)
      let stack := removelast stack in
      match readdir fs currentDir with
      | None => WalkRejected
      | Some items =>
        let '(stack, pdfFiles) := fold_left (visitItem currentDir) items (stack, pdfFiles) in
        walk fuel' fs stack pdfFiles
      end
    end
  end.

(** Every directory is listed at most once. *)
Definition getAllPdfFiles (fs : FileSystem) (dir : jsstring) : walkResult :=
  walk (S (size (dirs fs))) fs [dir] [].

(** The state of [processFiles]: the file system, the calls waiting in
    the limiter's queue, the calls in flight, and the event log. *)
Record pool := mkPool {
  poolFs : FileSystem;
  queue : list jsstring;
  active : list task;
  log : list event
}.

(** p-limit starts queued calls, in order, while fewer than
    [maxConcurrent] are in flight.  A call that finishes before its first
    await frees its slot at once. *)
Fixpoint refill (maxConcurrent : nat) (queue : list jsstring) (active : list task)
    : list jsstring * list task * list event :=
  match queue with
  | [] => ([], active, [])
  | filePath :: later =>
    if length active <? maxConcurrent then
      match startTask filePath with
      | Finished _ _ =>
        let '(q, a, evs) := refill maxConcurrent later active in
        (q, a, EvTick (NodePath.basename filePath) :: evs)
      | t => refill maxConcurrent later (active ++ [t])
      end
    else (queue, active, [])
  end.

(** The awaited call of the [k]-th call in flight settles. *)
Definition poolStep (maxConcurrent : nat) (p : pool) (k : nat) : pool :=
  match active p !! k with
  | None => p
  | Some t =>
    let '(fs', t', evs) := stepTask (poolFs p) t in
    match t' with
    | Finished filePath _ =>
      let '(q, a, evs') := refill maxConcurrent (queue p) (delete k (active p)) in
      mkPool fs' q a (log p ++ evs ++ [EvTick (NodePath.basename filePath)] ++ evs')
    | _ => mkPool fs' (queue p) (<[k := t']> (active p)) (log p ++ evs)
    end
  end.

(** [processFiles]: the order in which awaited calls settle is not
    determined by the program; [schedule] lists, step by step, which call
    in flight settles next.  When the list is used up the remaining calls
    settle oldest first. *)
Definition processFiles (maxConcurrent : nat) (fs : FileSystem) (pdfFiles : list jsstring)
    (schedule : list nat) : pool :=
  let '(q, a, evs) := refill maxConcurrent pdfFiles [] in
  let p := fold_left (poolStep maxConcurrent) schedule (mkPool fs q a evs) in
  fold_left (poolStep maxConcurrent) (replicate (3 * length pdfFiles) 0) p.

(** The environment of the process. *)
Record Env := mkEnv {
  PDF_SOURCE_DIR : option jsstring;
  MAX_CONCURRENT_var : option Z;       (* parseInt(process.env.MAX_CONCURRENT), NaN as None *)
  cpus : nat
}.

Definition MAX_CONCURRENT (env : Env) : Z :=
  default (Z.of_nat (cpus env) * 2)%Z (orNum (MAX_CONCURRENT_var env) None).

Record exit := mkExit {
  exitCode : Z;
  finalFs : FileSystem;
  output : list event
}.

(** The module body.  [pLimit] throws on a concurrency below 1 (an
    uncaught exception, exit code 1); a rejected walk is caught by the
    final [.catch], which only logs, and the process then ends with exit
    code 0.  [None]: the walk did not end within its bound. *)
Definition main (env : Env) (fs : FileSystem) (schedule : list nat) : option exit :=
  if (MAX_CONCURRENT env <? 1)%Z then Some (mkExit 1 fs [])
  else
    match PDF_SOURCE_DIR env with
    | Some sourceDir =>
      if truthy sourceDir then
        match getAllPdfFiles fs sourceDir with
        | WalkDone pdfFiles =>
          let p := processFiles (Z.to_nat (MAX_CONCURRENT env)) fs pdfFiles schedule in
          Some (mkExit 0 (poolFs p) (log p))
        | WalkRejected => Some (mkExit 0 fs [EvLogError])
        | WalkOutOfFuel => None
        end
      else Some (mkExit 1 fs [EvLogError])
    | None => Some (mkExit 1 fs [EvLogError])
    end.

(* ================================================================== *)
(** * Reference definitions *)
(* ================================================================== *)

(** An edit script turning [a] into [b] with unit-cost deletions,
    insertions and substitutions, and its cost. *)
Inductive editScript : jsstring -> jsstring -> nat -> Prop :=
| es_nil : editScript [] [] 0
| es_delete x a b n : editScript a b n -> editScript (x :: a) b (S n)
| es_insert y a b n : editScript a b n -> editScript a (y :: b) (S n)
| es_keep x a b n : editScript a b n -> editScript (x :: a) (x :: b) n
| es_subst x y a b n : editScript a b n -> editScript (x :: a) (y :: b) (S n).

(** The recurrence the [dp] table is filled with, read from the last
    character backwards (so on reversed strings from the first). *)
Fixpoint levRec (a b : jsstring) : nat :=
  match a with
  | [] => length b
  | x :: a' =>
    (fix inner (b : jsstring) : nat :=
       match b with
       | [] => S (length a')
       | y :: b' =>
         if bool_decide (x = y) then levRec a' b'
         else S (Nat.min (levRec a' b) (Nat.min (inner b') (levRec a' b')))
       end) b
  end.

(** What the cells of the [dp] table of [levenshteinDistance str1 str2]
    are meant to hold, and how far the table is filled. *)
Section TableSpec.

Variables str1 str2 : list N.

(** Cell [(i, j)] exists in the table. *)
Definition hasCell (dp : list (list Z)) (i j : nat) : Prop :=
  exists row, dp !! i = Some row /\ j < length row.

Definition shaped (dp : list (list Z)) : Prop :=
  forall i j, i <= length str1 -> j <= length str2 -> hasCell dp i j.

(** The distance between the prefixes of lengths [i] and [j]. *)
Definition prefixDistance (i j : nat) : Z :=
  Z.of_nat (levRec (rev (take i str1)) (rev (take j str2))).

(** All cells before [(i, j)] in filling order, and the two borders, hold
    their prefix distance. *)
Definition filled (i j : nat) (dp : list (list Z)) : Prop :=
  shaped dp /\
  forall i' j', i' <= length str1 -> j' <= length str2 ->
    i' = 0 \/ j' = 0 \/ i' < i \/ (i' = i /\ j' < j) ->
    dpGet dp i' j' = prefixDistance i' j'.

End TableSpec.

(** States reached while matching an input of length [L]. *)
Definition wfState (L : nat) (x : mstate) : Prop :=
  endIndex x + length (rest x) = L.

(** A continuation that never runs out of fuel on the states a matcher
    started with [n] characters left can hand to it. *)
Definition safeCont (L n : nat) (c : mstate -> mres) : Prop :=
  forall y, wfState L y -> length (rest y) <= n -> c y <> OutOfFuel.

(** Index of the first character of [t] accepted by [inClass]. *)
Fixpoint firstInClass (inClass : N -> bool) (t : jsstring) : option nat :=
  match t with
  | [] => None
  | c :: t' => if inClass c then Some 0 else S <$> firstInClass inClass t'
  end.

(** Every character accepted by [inClass] replaced with [by_]. *)
Fixpoint replaceClass (inClass : N -> bool) (by_ t : jsstring) : jsstring :=
  match t with
  | [] => []
  | c :: t' => (if inClass c then by_ else [c]) ++ replaceClass inClass by_ t'
  end.

(** The letters of the program's character classes: [A-Za-zА-Яа-я]. *)
Definition isLetter (c : N) : bool :=
  cls_match false false [A_Z; a_z; cyrA_Ya; cyra_ya] c.

(** The class that [isValidAuthorName] strips before its checks. *)
Definition isStripped (c : N) : bool :=
  cls_match false false [One (ch "."); One (ch ","); Space; One (ch "-")] c.

(** The canonical form [Title - Author [Year].pdf] of the spec. *)
Definition canonicalName (T A : jsstring) (Y : Z) : jsstring :=
  T ++ js " - " ++ A ++ js " [" ++ numberToString Y ++ js "].pdf".

(** One of the characters of [invalidChars]. *)
Definition isInvalidChar (c : N) : bool := cls_match false false invalidChars c.

(** The [fs.rename] calls among the events, in order. *)
Fixpoint renameCalls (evs : list event) : list (jsstring * jsstring) :=
  match evs with
  | [] => []
  | EvRename src dst :: later => (src, dst) :: renameCalls later
  | _ :: later => renameCalls later
  end.

(** The [pdfExtract.extract] calls among the events. *)
Fixpoint extractCalls (evs : list event) : list jsstring :=
  match evs with
  | [] => []
  | EvExtract p :: later => p :: extractCalls later
  | _ :: later => extractCalls later
  end.

(** [processPdfFile] read top to bottom, every await settling at once:
    the same function as [processPdfFile] above (lemma
    [processPdfFile_direct]), without the intermediate tasks.
    [renameIfNew] is the part after the metadata is resolved (lines
    409-426). *)
Definition renameIfNew (fs : FileSystem) (filePath : jsstring) (metadata : Metadata)
    (evs : list event) : FileSystem * task * list event :=
  let filename := NodePath.basename filePath in
  if negb (truthyStr (title metadata)) then (fs, Finished filePath (Skipped NoTitle), evs)
  else
    match generateNewFilename metadata with
    | None => (fs, Finished filePath (Skipped NothingToDo), evs)
    | Some newFilename =>
      if JS.eqb newFilename filename then (fs, Finished filePath (Skipped NothingToDo), evs)
      else
        let dirPath := NodePath.dirname filePath in
        let newPath := NodePath.join2 dirPath newFilename in
        if pathExists fs newPath && negb (JS.eqb newPath filePath) then
          (fs, Finished filePath (Skipped Collision), evs ++ [EvPathExists newPath])
        else
          match rename fs filePath newPath with
          | Some fs' =>
            (fs', Finished filePath (Renamed newPath),
             evs ++ [EvPathExists newPath; EvRename filePath newPath;
                     EvLogRenamed filename newFilename])
          | None =>
            (fs, Finished filePath Failed,
             evs ++ [EvPathExists newPath; EvRename filePath newPath;
                     EvLogProcessingError filePath])
          end
    end.

Definition processPdfFileDirect (fs : FileSystem) (filePath : jsstring)
    : FileSystem * task * list event :=
  let filenameMetadata := parseFilename (NodePath.basename filePath) in
  let '(metadata, evs) := resolveMetadata fs filePath filenameMetadata in
  renameIfNew fs filePath metadata evs.

(** ** Further reference definitions *)

(** The state of [processFiles] when the calls have been handed to the
    limiter, and after the awaited calls listed in [schedule] have
    settled. *)
Definition poolStart (maxConcurrent : nat) (fs : FileSystem) (pdfFiles : list jsstring)
    : pool :=
  let '(q, a, evs) := refill maxConcurrent pdfFiles [] in
  mkPool fs q a evs.

Definition poolAfter (maxConcurrent : nat) (fs : FileSystem) (pdfFiles : list jsstring)
    (schedule : list nat) : pool :=
  fold_left (poolStep maxConcurrent) schedule (poolStart maxConcurrent fs pdfFiles).

(** The awaits a call still has in front of it, at most. *)
Definition stepsLeft (t : task) : nat :=
  match t with
  | AwaitExtract _ _ => 3
  | AwaitPathExists _ _ _ _ => 2
  | AwaitRename _ _ _ _ => 1
  | Finished _ _ => 0
  end.

Definition stepsLeftAll (ts : list task) : nat := sum_list_with stepsLeft ts.

(** The [progressBar.tick] calls among the events. *)
Fixpoint ticks (evs : list event) : nat :=
  match evs with
  | [] => 0
  | EvTick _ :: later => S (ticks later)
  | _ :: later => ticks later
  end.

(** A call about to rename has seen its target free (or its own) in the
    file system as it is now. *)
Definition targetFree (fs : FileSystem) (t : task) : Prop :=
  match t with
  | AwaitRename filePath _ _ newPath => files fs !! newPath = None \/ newPath = filePath
  | _ => True
  end.



(** What [processFiles] keeps true when calls run one at a time, from
    the file system [fs0]: the one call in flight, if it is about to
    rename, has a free target, and the files are those of [fs0]. *)
Definition oneAtATime (fs0 : FileSystem) (p : pool) : Prop :=
  length (active p) <= 1
  /\ Forall (targetFree (poolFs p)) (active p)
  /\ (map_to_list (files (poolFs p))).*2 ≡ₚ (map_to_list (files fs0)).*2
  /\ dirs (poolFs p) = dirs fs0.

(** A rename the program may ask for: of a listed file, to a name that
    [generateNewFilename] made and that is not the file's own, in the
    file's directory. *)
Definition plannedRename (pdfFiles : list jsstring) (call : jsstring * jsstring) : Prop :=
  call.1 ∈ pdfFiles
  /\ exists metadata newFilename,
       generateNewFilename metadata = Some newFilename
       /\ newFilename <> NodePath.basename call.1
       /\ call.2 = NodePath.join2 (NodePath.dirname call.1) newFilename.

Definition plannedTask (pdfFiles : list jsstring) (t : task) : Prop :=
  match t with
  | AwaitExtract filePath _ => filePath ∈ pdfFiles
  | AwaitPathExists filePath _ _ newPath
  | AwaitRename filePath _ _ newPath => plannedRename pdfFiles (filePath, newPath)
  | Finished _ _ => True
  end.

(** What [processFiles] keeps true of the renames it asks for. *)
Definition renamesPlanned (pdfFiles : list jsstring) (p : pool) : Prop :=
  Forall (fun filePath => filePath ∈ pdfFiles) (queue p)
  /\ Forall (plannedTask pdfFiles) (active p)
  /\ Forall (plannedRename pdfFiles) (renameCalls (log p))
  /\ length (renameCalls (log p)) <= ticks (log p).

(** The file a call of [processPdfFile] is working on. *)
Definition taskPath (t : task) : jsstring :=
  match t with
  | AwaitExtract filePath _ => filePath
  | AwaitPathExists filePath _ _ _ => filePath
  | AwaitRename filePath _ _ _ => filePath
  | Finished filePath _ => filePath
  end.

(** The files whose rename has been asked for, those of the calls in
    flight and those still queued are, taken together, listed files,
    none more often than it is listed. *)
Definition renamedOnce (pdfFiles : list jsstring) (p : pool) : Prop :=
  (renameCalls (log p)).*1 ++ (taskPath <$> active p) ++ queue p ⊆+ pdfFiles.

(** The files of [fs'] are among those of [fs0], each at most as often
    (whatever their paths), and the directories are the same. *)
Definition filesAmong (fs0 fs' : FileSystem) : Prop :=
  (map_to_list (files fs')).*2 ⊆+ (map_to_list (files fs0)).*2
  /\ dirs fs' = dirs fs0.

(** An entry [getAllPdfFiles] may collect: a non-directory entry of some
    listed directory whose extension is [.pdf] in any letter case, under
    the path [path.join] makes of the two. *)
Definition pdfEntry (fs : FileSystem) (p : jsstring) : Prop :=
  exists currentDir name items,
    readdir fs currentDir = Some items
    /\ (name, false) ∈ items
    /\ toLowerCase (NodePath.extname name) = js ".pdf"
    /\ p = NodePath.join2 currentDir name.

(** Length of the longest prefix of [t] made of class characters. *)
Fixpoint span (inClass : N -> bool) (t : jsstring) : nat :=
  match t with
  | c :: t' => if inClass c then S (span inClass t') else 0
  | [] => 0
  end.

(** Every maximal run of class characters replaced with one [by_];
    [inRun] tells that the character before [t] belongs to a run. *)
Fixpoint collapseRuns (inClass : N -> bool) (by_ : jsstring) (inRun : bool)
    (t : jsstring) : jsstring :=
  match t with
  | [] => []
  | c :: t' =>
    if inClass c then (if inRun then [] else by_) ++ collapseRuns inClass by_ true t'
    else c :: collapseRuns inClass by_ false t'
  end.

(** The two characters [cleanupText] turns into spaces. *)
Definition isUnderscoreOrDot (c : N) : bool :=
  cls_match false false [One (ch "_"); One (ch ".")] c.

(** White space occurs in [t] only as U+0020, never twice in a row;
    [afterSpace] tells that the character before [t] is a space. *)
Fixpoint spaced (afterSpace : bool) (t : jsstring) : bool :=
  match t with
  | [] => true
  | c :: t' =>
    if isSpace c then (c =? 32)%N && negb afterSpace && spaced true t'
    else spaced false t'
  end.

(** The characters [cleanupText] never touches. *)
Definition isContent (c : N) : bool := negb (isUnderscoreOrDot c) && negb (isSpace c).

(** The parts [isValidAuthorName] splits a name into, at dashes and
    commas. *)
Definition nameParts (text : jsstring) : list jsstring :=
  split (re (cat [star ws; Cls false [One (ch "-"); One (ch ",")]; star ws])) text.

(** The code units on which [lowerUnit] and [upperUnit] are the case
    mappings of JavaScript: Basic Latin and the Cyrillic letters
    U+0400..U+045F.  Accented Latin letters and the other alphabets,
    whose case the embedding does not map, lie outside. *)
Definition isBasicUnit (c : N) : bool := (c <? 128)%N || between 0x400 0x45F c.

(** A text written with those code units only. *)
Definition basicText (text : jsstring) : Prop := Forall (fun c => isBasicUnit c = true) text.

(** What a pattern matches, read off the pattern: [matches ic r x y]
    holds when [r] can take the matcher from state [x] to state [y].
    [repeats] is the loop of a quantifier: each round starts with the
    captures of the quantified term cleared, and a round that consumes
    nothing is refused once the minimum is reached. *)
Inductive repeats (M : mstate -> mstate -> Prop) (gs : list nat)
    : nat -> option nat -> mstate -> mstate -> Prop :=
| repeats_stop min max x :
    min = 0 \/ max = Some 0 -> repeats M gs min max x x
| repeats_more min max x y z :
    max <> Some 0 ->
    M (clearCaptures gs x) y ->
    (min = 0 -> endIndex y <> endIndex x) ->
    repeats M gs (Nat.pred min) (option_map Nat.pred max) y z ->
    repeats M gs min max x z.

Fixpoint matches (ic : bool) (r : regex) (x y : mstate) : Prop :=
  match r with
  | Eps => y = x
  | Lit a => exists b t, rest x = b :: t /\ canon ic a = canon ic b /\ y = step1 x
  | Dot => exists b t, rest x = b :: t /\ isLineTerminator b = false /\ y = step1 x
  | Cls neg items =>
    exists b t, rest x = b :: t /\ cls_match ic neg items b = true /\ y = step1 x
  | Seq a b => exists z, matches ic a x z /\ matches ic b z y
  | Alt a b => matches ic a x y \/ matches ic b x y
  | Rep min max _ a => repeats (matches ic a) (groups a) min max x y
  | Grp n a => exists z, matches ic a x z /\ y = setCapture n x z
  | Bref n =>
    match captures x !! n with
    | Some (Some s) => matchPrefix ic s x = Some y
    | _ => y = x
    end
  | Bol => endIndex x = 0 /\ y = x
  | Eol => rest x = [] /\ y = x
  end.

(** The upper-case letters of the program's patterns: [A-ZА-Я]. *)
Definition isUpperLetter (c : N) : bool := cls_match false false [A_Z; cyrA_Ya] c.

(** An initial: one upper-case letter, with or without a dot after it. *)
Definition isInitial (word : jsstring) : Prop :=
  exists b, isUpperLetter b = true /\ (word = [b] \/ word = [b; ch "."]).

(** The words of a name, as [isLikelyAuthor] splits them. *)
Definition nameWords (text : jsstring) : list jsstring := split (re (plus ws)) text.

(** The lower-case letters [a-zа-я], and the characters that may follow
    them in a name: letters and white space. *)
Definition isLowerLetter (c : N) : bool := cls_match false false [a_z; cyra_ya] c.

Definition isNameTail (c : N) : bool :=
  cls_match false false [A_Z; cyrA_Ya; a_z; cyra_ya; Space] c.

(** A part that reads as a name: an initial, or an upper-case letter, one
    or more lower-case letters, and then any letters and white space. *)
Definition isNamePart (part : jsstring) : Prop :=
  isInitial part
  \/ exists (b : N) (lower more : jsstring),
       part = b :: lower ++ more /\ isUpperLetter b = true /\ lower <> []
       /\ Forall (fun c => isLowerLetter c = true) lower
       /\ Forall (fun c => isNameTail c = true) more.

(** A part that reads as a user name: ASCII letters, then decimal
    digits. *)
Definition isAsciiLetter (c : N) : bool := between 65 90 c || between 97 122 c.

Definition isUserName (part : jsstring) : Prop :=
  exists letters digits : jsstring,
    part = letters ++ digits /\ letters <> [] /\ digits <> []
    /\ Forall (fun c => isAsciiLetter c = true) letters
    /\ Forall (fun c => isDigit c = true) digits.

(** A path segment that normalisation keeps as it is: not empty, free
    of separators, and neither [.] nor [..]. *)
Definition plainSegment (s : jsstring) : Prop :=
  s <> [] /\ Forall (fun c => NodePath.isSlash c = false) s
  /\ s <> [NodePath.dot] /\ s <> [NodePath.dot; NodePath.dot].

(** The absolute path with these segments, in normal form. *)
Definition absolutePath (segs : list jsstring) : jsstring :=
  NodePath.slash :: join [NodePath.slash] segs.

(** The characters [cleanupText] turns into white space or collapses:
    underscore, dot and white space. *)
Definition isSeparator (c : N) : bool := isUnderscoreOrDot c || isSpace c.

(** [A-Za-zА-Яа-я\s,.], the class of the author group of the two-part
    patterns. *)
Definition isNameChar (c : N) : bool :=
  cls_match false false [A_Z; a_z; cyrA_Ya; cyra_ya; Space; One (ch ","); One (ch ".")] c.

(** What the author group of the two-part patterns takes: a letter, then
    at most 50 letters, white-space characters, commas and dots. *)
Definition isAuthorField (s : jsstring) : Prop :=
  exists (b : N) (more : jsstring),
    s = b :: more /\ isLetter b = true
    /\ Forall (fun c => isNameChar c = true) more /\ length more <= 50.

(** White space occurs in [t] only as single U+0020 characters, each
    between two other characters. *)
Definition singleSpaced (t : jsstring) : Prop :=
  spaced true t = true /\ dropSpaces (rev t) = rev t.

(** [s] begins with [p], letter case apart. *)
Fixpoint startsWithFold (s p : jsstring) : bool :=
  match p, s with
  | [], _ => true
  | a :: p', b :: s' => (upperUnit a =? upperUnit b)%N && startsWithFold s' p'
  | _ :: _, [] => false
  end.

(** One of the publisher patterns of [parseFilename] matches [s]. *)
Definition hasPublisherPrefix (s : jsstring) : bool :=
  existsb (fun publisher => test (publisherRegExp publisher) s) publishersToRemove.

(** A title that the parser and the formatter leave as it is: not empty,
    unchanged by [cleanupText], free of the characters the formatter
    replaces, with no dash at either end or between two spaces, and not
    starting with a publisher's name. *)
Definition cleanTitle (T : jsstring) : Prop :=
  T <> [] /\ cleanupText T = T
  /\ Forall (fun c => isInvalidChar c = false) T
  /\ startsWith T (js "-") = false /\ endsWith T (js "-") = false
  /\ includes T (js " - ") = false
  /\ hasPublisherPrefix T = false.

(** An author as the formatter writes it: single-spaced, made by
    [formatAuthorName] from its own cleaned text, which is what the author
    group of the two-part patterns takes. *)
Definition formattedAuthor (A : jsstring) : Prop :=
  singleSpaced A
  /\ isAuthorField (cleanupText A)
  /\ formatAuthorName (cleanupText A) = A.

(** The name without its extension. *)
Definition canonicalStem (T A : jsstring) (Y : Z) : jsstring :=
  T ++ js " - " ++ A ++ js " [" ++ numberToString Y ++ js "]".

(** A pattern term that takes one character with property [P]. *)
Definition oneChar (P : N -> Prop) (x y : mstate) : Prop :=
  exists b t, rest x = b :: t /\ P b /\ y = step1 x.

(** Whether the text before a piece leaves a run open at its end. *)
Definition runEnd (inClass : N -> bool) (inRun : bool) (u : list N) : bool :=
  match last u with
  | Some c => inClass c
  | None => inRun
  end.

(** A four-digit year is written with four digits and read back from
    them. *)
Definition yearChecked (y : Z) : bool :=
  (length (numberToString y) =? 4)
  && forallb isDigit (numberToString y)
  && (parseDigits (numberToString y) =? y)%Z.

(** [q] begins with a space that ends it or that a dash follows, letter
    case apart. *)
Definition spaceDashHead (q : jsstring) : bool :=
  match q with
  | [] => false
  | a :: q' =>
    (upperUnit a =? upperUnit (ch " "))%N
    && match q' with
       | [] => true
       | b :: _ => (upperUnit b =? upperUnit (ch "-"))%N
       end
  end.

(** The shape of the two-part patterns [^(G1)\s+-\s+(G2)$]. *)
Definition twoPart (G1 G2 : regex) : regex :=
  Seq Bol (Seq (Grp 1 G1) (Seq (plus ws) (Seq (Lit (ch "-")) (Seq (plus ws)
      (Seq (Grp 2 G2) Eol))))).

(** What the title group [(.+?)] of the two-part patterns takes. *)
Definition isTitleField (s : jsstring) : Prop :=
  s <> [] /\ Forall (fun c => isLineTerminator c = false) s.

(* ================================================================== *)
(** * The matcher *)
(* ================================================================== *)

Section MatcherTotal.

Lemma safeCont_mono L n n' c : n' <= n -> safeCont L n c -> safeCont L n' c.
Proof. intros Hle H y Hwf Hy. apply H; [exact Hwf | lia]. Qed.

Lemma step1_wf L x b t :
  rest x = b :: t -> wfState L x ->
  wfState L (step1 x) /\ length (rest (step1 x)) < length (rest x).
Proof.
  unfold wfState, step1. intros E H. rewrite E in *. simpl in *. lia.
Qed.

Lemma matchPrefix_wf L ic p : forall x y,
  wfState L x -> matchPrefix ic p x = Some y ->
  wfState L y /\ length (rest y) <= length (rest x).
Proof.
  induction p as [|a p IH]; intros x y Hwf H; simpl in H.
  - inversion H; subst. auto.
  - destruct (rest x) as [|b t] eqn:E; [discriminate|].
    destruct (canon ic a =? canon ic b)%N; [|discriminate].
    destruct (step1_wf L x b t E Hwf) as [Hwf' Hlt].
    destruct (IH _ _ Hwf' H) as [Hy Hle]. rewrite E in Hlt. split; [exact Hy|].
    simpl in *. lia.
Qed.

Lemma repeatMatcher_unfold ma gs fuel min max greedy x c :
  repeatMatcher ma gs (S fuel) min max greedy x c =
  match max with
  | Some O => c x
  | _ =>
    let d := fun y : mstate =>
      if Nat.eqb min 0 && Nat.eqb (endIndex y) (endIndex x) then Failure
      else repeatMatcher ma gs fuel (Nat.pred min) (option_map Nat.pred max) greedy y c in
    let xr := clearCaptures gs x in
    if negb (Nat.eqb min 0) then ma xr d
    else if greedy then orElse (ma xr d) (fun _ => c x)
    else orElse (c x) (fun _ => ma xr d)
  end.
Proof. reflexivity. Qed.

Lemma repeatMatcher_total L ma gs greedy :
  (forall x d, wfState L x -> safeCont L (length (rest x)) d -> ma x d <> OutOfFuel) ->
  forall fuel min max x c,
    min + length (rest x) + 1 <= fuel ->
    wfState L x -> safeCont L (length (rest x)) c ->
    repeatMatcher ma gs fuel min max greedy x c <> OutOfFuel.
Proof.
  intros Hma. induction fuel as [|fuel IH]; intros min max x c Hfuel Hwf Hc; [lia|].
  assert (Hcx : c x <> OutOfFuel) by (apply Hc; [exact Hwf | lia]).
  rewrite repeatMatcher_unfold.
  set (d := fun y : mstate =>
      if Nat.eqb min 0 && Nat.eqb (endIndex y) (endIndex x) then Failure
      else repeatMatcher ma gs fuel (Nat.pred min) (option_map Nat.pred max) greedy y c).
  assert (Hd : safeCont L (length (rest x)) d).
  { intros y Hy Hle. unfold d.
    destruct (Nat.eqb min 0 && Nat.eqb (endIndex y) (endIndex x)) eqn:E; [discriminate|].
    apply IH; [|exact Hy|eapply safeCont_mono; [exact Hle | exact Hc]].
    apply andb_false_iff in E. unfold wfState in *.
    destruct E as [E|E]; apply Nat.eqb_neq in E; lia. }
  assert (Hxr : ma (clearCaptures gs x) d <> OutOfFuel)
    by (apply Hma; [exact Hwf | exact Hd]).
  clearbody d. cbv zeta.
  destruct max as [[|k]|]; [exact Hcx | |].
  all: destruct (Nat.eqb min 0); simpl; [|exact Hxr].
  all: destruct greedy; unfold orElse.
  all: try (destruct (ma (clearCaptures gs x) d); congruence).
  all: destruct (c x); congruence.
Qed.

Local Ltac shorter_rest E :=
  first [lia | rewrite <- E; lia | rewrite E in *; simpl in *; lia].

Lemma matcher_total L ic r : forall x c,
  wfState L x -> safeCont L (length (rest x)) c -> matcher ic r x c <> OutOfFuel.
Proof.
  induction r as [ | a | | neg items | a IHa b IHb | a IHa b IHb
                   | min max greedy a IHa | n a IHa | n | | ];
    intros x c Hwf Hc; simpl.
  - apply Hc; [exact Hwf | lia].
  - destruct (rest x) as [|b t] eqn:E; [discriminate|].
    destruct (canon ic a =? canon ic b)%N; [|discriminate].
    destruct (step1_wf L x b t E Hwf). apply Hc; [assumption | shorter_rest E].
  - destruct (rest x) as [|b t] eqn:E; [discriminate|].
    destruct (isLineTerminator b); [discriminate|].
    destruct (step1_wf L x b t E Hwf). apply Hc; [assumption | shorter_rest E].
  - destruct (rest x) as [|b t] eqn:E; [discriminate|].
    destruct (cls_match ic neg items b); [|discriminate].
    destruct (step1_wf L x b t E Hwf). apply Hc; [assumption | shorter_rest E].
  - apply IHa; [exact Hwf|]. intros y Hy Hle. apply IHb; [exact Hy|].
    eapply safeCont_mono; [exact Hle | exact Hc].
  - unfold orElse. destruct (matcher ic a x c) eqn:E; [|apply IHb; assumption|discriminate].
    exfalso. exact (IHa x c Hwf Hc E).
  - apply (repeatMatcher_total L); [exact IHa | lia | exact Hwf | exact Hc].
  - apply IHa; [exact Hwf|]. intros y Hy Hle. apply Hc; [exact Hy | exact Hle].
  - destruct (captures x !! n) as [[s|]|]; try (apply Hc; [exact Hwf | lia]).
    destruct (matchPrefix ic s x) as [y|] eqn:E; [|discriminate].
    destruct (matchPrefix_wf L ic s x y Hwf E). apply Hc; assumption.
  - destruct (Nat.eqb (endIndex x) 0); [apply Hc; [exact Hwf | lia] | discriminate].
  - destruct (rest x) eqn:E; [apply Hc; [exact Hwf | rewrite ?E; simpl; lia] | discriminate].
Qed.

(** A [None] of [matchAt] is a genuine failure of the pattern. *)
Lemma matchAt_decides R s i :
  i <= length s ->
  matcher (ignoreCase R) (pattern R)
          (MState i (skipn i s) (replicate (S (ngroups (pattern R))) None)) Success
  <> OutOfFuel.
Proof.
  intros Hi. apply (matcher_total (length s)).
  - unfold wfState. simpl. rewrite length_skipn. lia.
  - intros y _ _. discriminate.
Qed.

End MatcherTotal.

(** ** Global replacement of a character class *)

Section ClassReplace.

Variables (neg : bool) (items : list citem) (by_ : list N).

Let R : RegExp := re (Cls neg items).
Let inClass (c : N) : bool := cls_match false neg items c.

Lemma skipn_lookup (s : list N) : forall i,
  skipn i s = match s !! i with Some b => b :: skipn (S i) s | None => [] end.
Proof.
  induction s as [|a s IH]; intros [|i]; simpl; try reflexivity.
  apply IH.
Qed.

Lemma matchAt_class (s : list N) i :
  matchAt R s i =
  match s !! i with
  | Some b => if inClass b then Some (mkMatch i (S i) [None]) else None
  | None => None
  end.
Proof.
  unfold matchAt. simpl. rewrite (skipn_lookup s i).
  destruct (s !! i) as [b|]; simpl; [|reflexivity].
  fold (inClass b). destruct (inClass b); reflexivity.
Qed.

Lemma execLoop_class (s : list N) : forall n i,
  i + n = S (length s) ->
  execLoop R s n i =
  (fun k => mkMatch (i + k) (S (i + k)) [None]) <$> firstInClass inClass (skipn i s).
Proof.
  induction n as [|n IH]; intros i Hn; simpl.
  - rewrite skipn_all2 by lia. reflexivity.
  - rewrite matchAt_class, (skipn_lookup s i).
    destruct (s !! i) as [b|] eqn:E; simpl.
    + destruct (inClass b); simpl.
      * rewrite Nat.add_0_r. reflexivity.
      * rewrite IH by lia. destruct (firstInClass inClass (skipn (S i) s)); simpl;
          [|reflexivity].
        repeat f_equal; lia.
    + rewrite IH by lia. apply lookup_ge_None in E.
      rewrite skipn_all2 by lia. reflexivity.
Qed.

Lemma replaceClass_none t :
  firstInClass inClass t = None -> replaceClass inClass by_ t = t.
Proof.
  induction t as [|c t IH]; simpl; [reflexivity|].
  destruct (inClass c); [discriminate|].
  destruct (firstInClass inClass t); [discriminate|].
  intros _. simpl. f_equal. apply IH. reflexivity.
Qed.

Lemma replaceClass_some t : forall k,
  firstInClass inClass t = Some k ->
  k < length t /\
  replaceClass inClass by_ t = firstn k t ++ by_ ++ replaceClass inClass by_ (skipn (S k) t).
Proof.
  induction t as [|c t IH]; simpl; intros k H; [discriminate|].
  destruct (inClass c) eqn:E.
  - inversion H; subst. simpl. split; [lia | reflexivity].
  - destruct (firstInClass inClass t) as [k'|]; [|discriminate].
    inversion H; subst. destruct (IH k' eq_refl) as [Hlt Heq].
    split; [lia|]. simpl. rewrite Heq. reflexivity.
Qed.

Lemma replaceLoop_unfold Rx (s : list N) fuel lastIndex next acc :
  replaceLoop Rx by_ s (S fuel) lastIndex next acc =
  match execFrom Rx s lastIndex with
  | None => acc ++ skipn next s
  | Some m =>
    replaceLoop Rx by_ s fuel
      (if Nat.eqb (mend m) (mstart m) then S (mend m) else mend m) (mend m)
      (acc ++ substring s next (mstart m) ++ by_)
  end.
Proof. reflexivity. Qed.

Lemma replaceLoop_class (s : list N) : forall fuel i acc,
  i <= length s -> length s - i < fuel ->
  replaceLoop R by_ s fuel i i acc = acc ++ replaceClass inClass by_ (skipn i s).
Proof.
  induction fuel as [|fuel IH]; intros i acc Hi Hfuel; [lia|].
  rewrite replaceLoop_unfold. unfold execFrom. rewrite execLoop_class by lia.
  destruct (firstInClass inClass (skipn i s)) as [k|] eqn:E;
    cbn [fmap option_fmap option_map mend mstart].
  - destruct (replaceClass_some _ _ E) as [Hk Heq]. rewrite length_skipn in Hk.
    rewrite Heq. replace (Nat.eqb (S (i + k)) (i + k)) with false
      by (symmetry; apply Nat.eqb_neq; lia).
    rewrite IH by lia. unfold substring.
    replace (i + k - i) with k by lia.
    rewrite skipn_skipn. replace (S k + i) with (S (i + k)) by lia.
    rewrite <- !app_assoc. reflexivity.
  - rewrite replaceClass_none by exact E. reflexivity.
Qed.

(** [s.replace(/[...]/g, by)] rewrites the string character by
    character. *)
Lemma replaceAll_class (s : list N) :
  replaceAll R by_ s = replaceClass inClass by_ s.
Proof.
  unfold replaceAll. rewrite replaceLoop_class by lia. reflexivity.
Qed.

End ClassReplace.

(* ================================================================== *)
(** * Edit distance: the table computes a metric *)
(* ================================================================== *)

Section EditDistance.

Create HintDb edit.

Local Hint Constructors editScript : edit.

(** Apply a size-bounded induction hypothesis to two scripts. *)
Local Ltac compose IH H1 H2 :=
  let X := fresh in
  pose proof (fun pf => IH _ _ _ _ _ pf H1 H2) as X;
  destruct X as (?r & ?Hr & ?Hs); [simpl in *; lia|].

Local Ltac shorter IH H :=
  apply IH in H; [|simpl in *; lia].

Lemma levRec_nil_r a : levRec a [] = length a.
Proof. destruct a; reflexivity. Qed.

Lemma levRec_cons x a y b :
  levRec (x :: a) (y :: b) =
  if bool_decide (x = y) then levRec a b
  else S (Nat.min (levRec a (y :: b)) (Nat.min (levRec (x :: a) b) (levRec a b))).
Proof. reflexivity. Qed.

Lemma editScript_insert_all b : editScript [] b (length b).
Proof. induction b; simpl; eauto with edit. Qed.

Lemma editScript_delete_all a : editScript a [] (length a).
Proof. induction a; simpl; eauto with edit. Qed.

Lemma editScript_refl a : editScript a a 0.
Proof. induction a; eauto with edit. Qed.

Lemma editScript_sym a b n : editScript a b n -> editScript b a n.
Proof. induction 1; eauto with edit. Qed.

Lemma editScript_zero a b : editScript a b 0 -> a = b.
Proof.
  intros H. remember 0 as n eqn:Hn. induction H; try discriminate; auto.
  f_equal. auto.
Qed.

(** Scripts compose, at no more than the sum of their costs. *)
Lemma editScript_trans_bounded k :
  forall a b c n m,
    length a + length b + length c < k ->
    editScript a b n -> editScript b c m ->
    exists r, r <= n + m /\ editScript a c r.
Proof.
  induction k as [|k IH]; intros a b c n m Hk H1 H2; [lia|].
  inversion H1 as [ | x a1 b1 n1 E1 | y a1 b1 n1 E1 | x a1 b1 n1 E1 | x y a1 b1 n1 E1 ];
    subst.
  - (* both strings empty *)
    exists m. split; [lia | exact H2].
  - (* the first script deletes x *)
    compose IH E1 H2. exists (S r). split; [lia | eauto with edit].
  - (* it inserts y: follow what the second script does with y *)
    inversion H2 as [ | ? ? ? n2 E2 | z ? c2 n2 E2 | ? ? c2 n2 E2 | ? z ? c2 n2 E2 ];
      subst.
    + compose IH E1 E2. exists r. split; [lia | exact Hs].
    + compose IH H1 E2. exists (S r). split; [lia | eauto with edit].
    + compose IH E1 E2. exists (S r). split; [lia | eauto with edit].
    + compose IH E1 E2. exists (S r). split; [lia | eauto with edit].
  - (* it keeps x *)
    inversion H2 as [ | ? ? ? n2 E2 | z ? c2 n2 E2 | ? ? c2 n2 E2 | ? z ? c2 n2 E2 ];
      subst.
    + compose IH E1 E2. exists (S r). split; [lia | eauto with edit].
    + compose IH H1 E2. exists (S r). split; [lia | eauto with edit].
    + compose IH E1 E2. exists r. split; [lia | eauto with edit].
    + compose IH E1 E2. exists (S r). split; [lia | eauto with edit].
  - (* it substitutes y for x *)
    inversion H2 as [ | ? ? ? n2 E2 | z ? c2 n2 E2 | ? ? c2 n2 E2 | ? z ? c2 n2 E2 ];
      subst.
    + compose IH E1 E2. exists (S r). split; [lia | eauto with edit].
    + compose IH H1 E2. exists (S r). split; [lia | eauto with edit].
    + compose IH E1 E2. exists (S r). split; [lia | eauto with edit].
    + compose IH E1 E2. exists (S r). split; [lia | eauto with edit].
Qed.

Lemma editScript_trans a b c n m :
  editScript a b n -> editScript b c m -> exists r, r <= n + m /\ editScript a c r.
Proof. eapply editScript_trans_bounded. apply Nat.lt_succ_diag_r. Qed.

(** The recurrence is the cost of some script ... *)
Lemma levRec_sound a : forall b, editScript a b (levRec a b).
Proof.
  induction a as [|x a IHa]; intros b.
  - apply editScript_insert_all.
  - induction b as [|y b IHb].
    + rewrite levRec_nil_r. apply editScript_delete_all.
    + rewrite levRec_cons. case_bool_decide as Hxy.
      * subst. eauto with edit.
      * destruct (Nat.min_spec (levRec a (y :: b)) (Nat.min (levRec (x :: a) b) (levRec a b)))
          as [[_ ->]|[_ ->]]; [eauto with edit|].
        destruct (Nat.min_spec (levRec (x :: a) b) (levRec a b)) as [[_ ->]|[_ ->]];
          eauto with edit.
Qed.

(** ... and no script is cheaper. *)
Lemma levRec_least_bounded k :
  forall a b n, length a + length b < k -> editScript a b n -> levRec a b <= n.
Proof.
  induction k as [|k IH]; intros a b n Hk H; [lia|].
  inversion H as [ | x a1 b1 n1 E | y a1 b1 n1 E | x a1 b1 n1 E | x y a1 b1 n1 E ]; subst.
  - simpl. lia.
  - (* the script deletes x *)
    pose proof E as Hle. shorter IH Hle.
    destruct b as [|y b'].
    + rewrite levRec_nil_r in *. simpl. lia.
    + rewrite levRec_cons. case_bool_decide as Hxy; [subst y | lia].
      assert (H1 : editScript (x :: b') b' 1) by (eauto using editScript_refl with edit).
      destruct (editScript_trans _ _ _ _ _ E H1) as (r & Hr & Hs).
      shorter IH Hs. lia.
  - (* the script inserts y *)
    pose proof E as Hle. shorter IH Hle.
    destruct a as [|x a'].
    + simpl in *. lia.
    + rewrite levRec_cons. case_bool_decide as Hxy; [subst y | lia].
      assert (H1 : editScript a' (x :: a') 1) by (eauto using editScript_refl with edit).
      destruct (editScript_trans _ _ _ _ _ H1 E) as (r & Hr & Hs).
      shorter IH Hs. lia.
  - rewrite levRec_cons. rewrite bool_decide_eq_true_2 by reflexivity.
    apply IH; [simpl in Hk; lia | assumption].
  - pose proof E as Hle. shorter IH Hle.
    rewrite levRec_cons. case_bool_decide; lia.
Qed.

Lemma levRec_least a b n : editScript a b n -> levRec a b <= n.
Proof. eapply levRec_least_bounded. apply Nat.lt_succ_diag_r. Qed.

Lemma levRec_sym a b : levRec a b = levRec b a.
Proof.
  apply Nat.le_antisymm; apply levRec_least, editScript_sym, levRec_sound.
Qed.

Lemma levRec_zero a b : levRec a b = 0 <-> a = b.
Proof.
  split.
  - intros H. apply editScript_zero. rewrite <- H. apply levRec_sound.
  - intros ->. apply Nat.le_0_r, levRec_least, editScript_refl.
Qed.

Lemma levRec_triangle a b c : levRec a c <= levRec a b + levRec b c.
Proof.
  destruct (editScript_trans _ _ _ _ _ (levRec_sound a b) (levRec_sound b c))
    as (r & Hr & Hs).
  apply levRec_least in Hs. lia.
Qed.

End EditDistance.

(** ** The [dp] table *)

Lemma fold_left_seq_invariant {S : Type} (P : nat -> S -> Prop) (f : S -> nat -> S) :
  forall len start s,
    P start s ->
    (forall k s, start <= k < start + len -> P k s -> P (Datatypes.S k) (f s k)) ->
    P (start + len) (fold_left f (seq start len) s).
Proof.
  induction len as [|len IH]; intros start s H0 Hstep; simpl.
  - rewrite Nat.add_0_r. exact H0.
  - replace (start + Datatypes.S len) with (Datatypes.S start + len) by lia.
    apply IH.
    + apply Hstep; [lia | exact H0].
    + intros k s' Hk. apply Hstep. lia.
Qed.

Section Table.

Variables str1 str2 : list N.

Lemma hasCell_dpSet dp i j v i' j' :
  hasCell dp i' j' -> hasCell (dpSet dp i j v) i' j'.
Proof.
  intros (row & Hrow & Hj). unfold hasCell, dpSet.
  destruct (decide (i = i')) as [->|Hne].
  - exists (<[j := v]> row). rewrite list_lookup_alter_eq, Hrow. simpl.
    rewrite length_insert. auto.
  - exists row. rewrite list_lookup_alter_ne by exact Hne. auto.
Qed.

Lemma shaped_dpSet dp i j v :
  shaped str1 str2 dp -> shaped str1 str2 (dpSet dp i j v).
Proof. intros H i' j' Hi Hj. apply hasCell_dpSet, H; assumption. Qed.

Lemma dpGet_dpSet_eq dp i j v : hasCell dp i j -> dpGet (dpSet dp i j v) i j = v.
Proof.
  intros (row & Hrow & Hj). unfold dpGet, dpSet.
  rewrite list_lookup_alter_eq, Hrow. simpl.
  rewrite list_lookup_insert_eq by exact Hj. reflexivity.
Qed.

Lemma dpGet_dpSet_ne dp i j v i' j' :
  i <> i' \/ j <> j' -> dpGet (dpSet dp i j v) i' j' = dpGet dp i' j'.
Proof.
  intros Hne. unfold dpGet, dpSet.
  destruct (decide (i = i')) as [->|Hi].
  - rewrite list_lookup_alter_eq. destruct (dp !! i') as [row|]; simpl; [|reflexivity].
    rewrite list_lookup_insert_ne by (destruct Hne; congruence). reflexivity.
  - rewrite list_lookup_alter_ne by exact Hi. reflexivity.
Qed.

Lemma shaped_initial :
  shaped str1 str2 (replicate (length str1 + 1) (replicate (length str2 + 1) 0%Z)).
Proof.
  intros i j Hi Hj. exists (replicate (length str2 + 1) 0%Z). split.
  - apply lookup_replicate_2. lia.
  - rewrite length_replicate. lia.
Qed.

Lemma prefixDistance_0_r i :
  i <= length str1 -> prefixDistance str1 str2 i 0 = Z.of_nat i.
Proof.
  intros Hi. unfold prefixDistance. rewrite take_0. simpl.
  rewrite levRec_nil_r, length_rev, length_take. f_equal. lia.
Qed.

Lemma prefixDistance_0_l j :
  j <= length str2 -> prefixDistance str1 str2 0 j = Z.of_nat j.
Proof.
  intros Hj. unfold prefixDistance. rewrite take_0. simpl.
  rewrite length_rev, length_take. f_equal. lia.
Qed.

(** The recurrence between the cells, as the inner loop body reads it. *)
Lemma prefixDistance_step i j :
  1 <= i <= length str1 -> 1 <= j <= length str2 ->
  prefixDistance str1 str2 i j =
  if bool_decide (str1 !! (i - 1) = str2 !! (j - 1))
  then prefixDistance str1 str2 (i - 1) (j - 1)
  else (1 + Z.min (prefixDistance str1 str2 (i - 1) j)
                  (Z.min (prefixDistance str1 str2 i (j - 1))
                         (prefixDistance str1 str2 (i - 1) (j - 1))))%Z.
Proof.
  intros Hi Hj. unfold prefixDistance.
  destruct (lookup_lt_is_Some_2 str1 (i - 1) ltac:(lia)) as [x Hx].
  destruct (lookup_lt_is_Some_2 str2 (j - 1) ltac:(lia)) as [y Hy].
  rewrite Hx, Hy.
  replace (take i str1) with (take (i - 1) str1 ++ [x])
    by (rewrite <- (take_S_r _ _ _ Hx); f_equal; lia).
  replace (take j str2) with (take (j - 1) str2 ++ [y])
    by (rewrite <- (take_S_r _ _ _ Hy); f_equal; lia).
  rewrite !rev_unit, levRec_cons.
  destruct (decide (x = y)) as [->|Hxy].
  - rewrite !bool_decide_eq_true_2 by reflexivity. reflexivity.
  - rewrite !bool_decide_eq_false_2 by congruence. lia.
Qed.

Lemma levCell_filled i j dp :
  1 <= i <= length str1 -> 1 <= j <= length str2 ->
  filled str1 str2 i j dp -> filled str1 str2 i (S j) (levCell str1 str2 i dp j).
Proof.
  intros Hi Hj [Hshape Hcells].
  assert (Hnew : dpGet (levCell str1 str2 i dp j) i j = prefixDistance str1 str2 i j).
  { rewrite prefixDistance_step by assumption. unfold levCell.
    destruct (decide (str1 !! (i - 1) = str2 !! (j - 1))) as [E|E].
    - rewrite !bool_decide_eq_true_2 by exact E.
      rewrite dpGet_dpSet_eq by (apply Hshape; lia). apply Hcells; lia.
    - rewrite !bool_decide_eq_false_2 by exact E.
      rewrite dpGet_dpSet_eq by (apply Hshape; lia).
      rewrite !Hcells by lia. reflexivity. }
  split.
  - unfold levCell. case_bool_decide; apply shaped_dpSet, Hshape.
  - intros i' j' Hi' Hj' Hbefore.
    destruct (decide (i' = i /\ j' = j)) as [[-> ->]|Hother]; [exact Hnew|].
    transitivity (dpGet dp i' j').
    + unfold levCell. case_bool_decide; apply dpGet_dpSet_ne; lia.
    + apply Hcells; lia.
Qed.

Lemma levRow_filled i dp :
  1 <= i <= length str1 ->
  filled str1 str2 i 1 dp -> filled str1 str2 (S i) 1 (levRow str1 str2 (length str2) dp i).
Proof.
  intros Hi H. unfold levRow.
  pose proof (fold_left_seq_invariant (filled str1 str2 i) (levCell str1 str2 i)
                (length str2) 1 dp H) as Hfold.
  destruct Hfold as [Hshape Hcells].
  { intros k s Hk Hs. apply levCell_filled; [lia | lia | exact Hs]. }
  split; [exact Hshape|].
  intros i' j' Hi' Hj' Hbefore. apply Hcells; lia.
Qed.

Lemma levenshteinDistance_prefix :
  levenshteinDistance str1 str2 = prefixDistance str1 str2 (length str1) (length str2).
Proof.
  unfold levenshteinDistance.
  set (dp0 := replicate _ _).
  set (dp1 := fold_left _ (seq 0 (length str1 + 1)) dp0).
  set (dp2 := fold_left _ (seq 0 (length str2 + 1)) dp1).
  (* first border *)
  assert (H1 : shaped str1 str2 dp1 /\ forall i, i < 0 + (length str1 + 1) ->
                 dpGet dp1 i 0 = Z.of_nat i).
  { apply (fold_left_seq_invariant
             (fun k dp => shaped str1 str2 dp /\ forall i, i < k -> dpGet dp i 0 = Z.of_nat i)).
    - split; [apply shaped_initial | intros; lia].
    - intros k dp Hk [Hshape Hcol]. split; [apply shaped_dpSet, Hshape|].
      intros i Hi. destruct (decide (i = k)) as [->|Hne].
      + apply dpGet_dpSet_eq, Hshape; lia.
      + rewrite dpGet_dpSet_ne by lia. apply Hcol. lia. }
  destruct H1 as [Hshape1 Hcol].
  (* second border *)
  assert (H2 : (shaped str1 str2 dp2
                /\ forall i, i <= length str1 -> dpGet dp2 i 0 = Z.of_nat i)
               /\ forall j, j < 0 + (length str2 + 1) -> dpGet dp2 0 j = Z.of_nat j).
  { apply (fold_left_seq_invariant
             (fun k dp => (shaped str1 str2 dp /\
                           forall i, i <= length str1 -> dpGet dp i 0 = Z.of_nat i)
                          /\ forall j, j < k -> dpGet dp 0 j = Z.of_nat j)).
    - split; [split; [exact Hshape1 | intros; apply Hcol; lia] | intros; lia].
    - intros k dp Hk [[Hshape Hc] Hrow]. split; [split|].
      + apply shaped_dpSet, Hshape.
      + intros i Hi. destruct (decide (i = 0 /\ k = 0)) as [[-> ->]|Hne].
        * apply dpGet_dpSet_eq, Hshape; lia.
        * rewrite dpGet_dpSet_ne by lia. apply Hc, Hi.
      + intros j Hj. destruct (decide (j = k)) as [->|Hne].
        * apply dpGet_dpSet_eq, Hshape; lia.
        * rewrite dpGet_dpSet_ne by lia. apply Hrow. lia. }
  destruct H2 as [[Hshape2 Hcol2] Hrow2].
  (* the rows *)
  assert (H3 : filled str1 str2 (1 + length str1) 1
                 (fold_left (levRow str1 str2 (length str2)) (seq 1 (length str1)) dp2)).
  { apply (fold_left_seq_invariant (fun i dp => filled str1 str2 i 1 dp)).
    - split; [exact Hshape2|].
      intros i' j' Hi' Hj' Hb.
      destruct (decide (j' = 0)) as [->|Hj0].
      + rewrite prefixDistance_0_r by exact Hi'. apply Hcol2, Hi'.
      + assert (i' = 0) as -> by lia.
        rewrite prefixDistance_0_l by exact Hj'. apply Hrow2. lia.
    - intros k dp Hk Hf. apply levRow_filled; [lia | exact Hf]. }
  destruct H3 as [_ Hcells]. apply Hcells; lia.
Qed.

End Table.

(** The program's function in closed form. *)
Lemma levenshteinDistance_levRec a b :
  levenshteinDistance a b = Z.of_nat (levRec (rev a) (rev b)).
Proof.
  rewrite levenshteinDistance_prefix. unfold prefixDistance.
  rewrite !firstn_all. reflexivity.
Qed.

(** C9.  For all strings [a], [b] and [c], [levenshteinDistance a b] is
    a non-negative integer, it is symmetric, it is zero exactly when
    [a = b], and it satisfies the triangle inequality. *)
Theorem levenshteinDistance_metric (a b c : jsstring) :
  (0 <= levenshteinDistance a b)%Z
  /\ levenshteinDistance a b = levenshteinDistance b a
  /\ (levenshteinDistance a b = 0%Z <-> a = b)
  /\ (levenshteinDistance a c <= levenshteinDistance a b + levenshteinDistance b c)%Z.
Proof.
  rewrite !levenshteinDistance_levRec. repeat split.
  - lia.
  - f_equal. apply levRec_sym.
  - intros H. apply rev_inj. apply levRec_zero. lia.
  - intros ->. rewrite (proj2 (levRec_zero (rev b) (rev b)) eq_refl). reflexivity.
  - pose proof (levRec_triangle (rev a) (rev b) (rev c)). lia.
Qed.

(* ================================================================== *)
(** * The author validator *)
(* ================================================================== *)


Lemma replaceClass_keeps (inClass : N -> bool) by_ (s : list N) :
  forallb (fun c => negb (inClass c)) s = true -> replaceClass inClass by_ s = s.
Proof.
  induction s as [|c s IH]; simpl; [reflexivity|].
  intros H. apply andb_true_iff in H as [Hc Hs].
  apply negb_true_iff in Hc. rewrite Hc. simpl. f_equal. apply IH, Hs.
Qed.






(* ================================================================== *)
(** * Parsing and formatting *)
(* ================================================================== *)

(** C2 (as the code behaves).  For the input
    [McGraw-Hill.Programming_Basics_-_John_R_Smith_(2019).pdf] the parser
    yields title [Programming Basics], author [John R Smith] and year
    2019, so no external metadata is consulted, and [generateNewFilename]
    returns [Programming Basics - John R., Smith [2019].pdf]: the grouping
    loop of [formatAuthorName] starts a new author at every capitalised
    word, so the surname is split off with a comma. *)
Theorem end_to_end_example :
  let filename := js "McGraw-Hill.Programming_Basics_-_John_R_Smith_(2019).pdf" in
  parseFilename filename
    = mkMetadata (Some (js "Programming Basics")) (Some (js "John R Smith")) (Some 2019%Z)
  /\ truthyStr (author (parseFilename filename)) = true
  /\ generateNewFilename (parseFilename filename)
     = Some (js "Programming Basics - John R., Smith [2019].pdf").
Proof. vm_compute. repeat split; reflexivity. Qed.

(** C2, counterexample: the name stated by the spec is not the one
    produced. *)
Lemma spec_output_not_produced :
  generateNewFilename
    (parseFilename (js "McGraw-Hill.Programming_Basics_-_John_R_Smith_(2019).pdf"))
  <> Some (js "Programming Basics - John R. Smith [2019].pdf").
Proof. vm_compute. discriminate. Qed.

(** The pattern loop returns what the first matching pattern decides. *)
Lemma patternLoop_first_match cleanName year (before : list RegExp) pattern after m :
  Forall (fun p => exec p cleanName = None) before ->
  exec pattern cleanName = Some m ->
  patternLoop (before ++ pattern :: after) cleanName year =
  if 2 <? S (ngroups (Re.pattern pattern)) then
    splitTwoParts (trim (default [] (group cleanName m 1)))
                  (trim (default [] (group cleanName m 2))) year
  else mkMetadata (Some (trim (default [] (group cleanName m 1)))) None year.
Proof.
  intros Hbefore Hm. induction Hbefore as [|p before Hp _ IH]; simpl.
  - rewrite Hm. reflexivity.
  - rewrite Hp. exact IH.
Qed.

(** C3 (as the code behaves).  When the first pattern that matches is a
    two-part pattern, with trimmed sides [firstPart] and [secondPart]:
    if the first side is a likely author it is the author, whether or not
    the second side is one too; otherwise, if the second side is a likely
    author, it is the author; and if neither is, the shorter side is the
    author, the first side on equal lengths. *)
Theorem two_part_split (filename cleanName : jsstring) (year : option Z)
    (before : list RegExp) (pattern : RegExp) (after : list RegExp) (m : MatchResult) :
  parsePrelude filename = (cleanName, year) ->
  patterns = before ++ pattern :: after ->
  Forall (fun p => exec p cleanName = None) before ->
  exec pattern cleanName = Some m ->
  2 < S (ngroups (Re.pattern pattern)) ->
  let firstPart := trim (default [] (group cleanName m 1)) in
  let secondPart := trim (default [] (group cleanName m 2)) in
  parseFilename filename =
    if isLikelyAuthor firstPart then mkMetadata (Some secondPart) (Some firstPart) year
    else if isLikelyAuthor secondPart then mkMetadata (Some firstPart) (Some secondPart) year
    else if length firstPart <=? length secondPart
         then mkMetadata (Some secondPart) (Some firstPart) year
         else mkMetadata (Some firstPart) (Some secondPart) year.
Proof.
  intros Hpre Hpat Hbefore Hm Htwo firstPart secondPart.
  unfold parseFilename. rewrite Hpre, Hpat.
  rewrite (patternLoop_first_match _ _ _ _ _ _ Hbefore Hm).
  apply Nat.ltb_lt in Htwo. rewrite Htwo.
  unfold splitTwoParts. fold firstPart secondPart.
  destruct (isLikelyAuthor firstPart), (isLikelyAuthor secondPart); simpl;
    try reflexivity.
  destruct (length firstPart <=? length secondPart); reflexivity.
Qed.

(** Witness for C3: [Programming Basics - Smith.pdf], where neither side
    is a likely author and the shorter, second side becomes the author. *)
Lemma neither_side_witness :
  parseFilename (js "Programming Basics - Smith.pdf")
  = mkMetadata (Some (js "Programming Basics")) (Some (js "Smith")) None.
Proof.
  pose (pat := hd (re Eps) patterns).
  pose (cleanName := js "Programming Basics - Smith").
  destruct (exec pat cleanName) as [m|] eqn:Hm; [|vm_compute in Hm; discriminate].
  rewrite (two_part_split (js "Programming Basics - Smith.pdf") cleanName None
             [] pat (tl patterns) m).
  - vm_compute in Hm. injection Hm as <-. vm_compute. reflexivity.
  - vm_compute. reflexivity.
  - reflexivity.
  - constructor.
  - exact Hm.
  - vm_compute. lia.
Defined.

(** C3, counterexample: in [John R Smith - Doe A.pdf] both sides are
    likely authors and the first is the longer one; the first side is
    returned as author, not the shorter one. *)
Lemma both_sides_qualify :
  let firstPart := js "John R Smith" in
  let secondPart := js "Doe A" in
  isLikelyAuthor firstPart = true
  /\ isLikelyAuthor secondPart = true
  /\ length secondPart < length firstPart
  /\ parseFilename (js "John R Smith - Doe A.pdf")
     = mkMetadata (Some secondPart) (Some firstPart) None.
Proof. vm_compute. repeat split; try reflexivity. lia. Qed.

(* ================================================================== *)
(** * Processing one file *)
(* ================================================================== *)

#[local] Arguments parseFilename : simpl never.
#[local] Arguments generateNewFilename : simpl never.
#[local] Arguments resolveMetadata : simpl never.
#[local] Arguments pathExists : simpl never.
#[local] Arguments rename : simpl never.
#[local] Arguments NodePath.basename : simpl never.
#[local] Arguments NodePath.dirname : simpl never.
#[local] Arguments NodePath.join2 : simpl never.
#[local] Arguments JS.eqb : simpl never.

(** What is left of [processPdfFile] once the metadata is known. *)
Lemma run_afterMetadata fs filePath metadata evs :
  (let '(fs1, t1, e1) :=
     stepTask fs (afterMetadata filePath (NodePath.basename filePath) metadata) in
   let '(fs2, t2, e2) := stepTask fs1 t1 in
   (fs2, t2, evs ++ e1 ++ e2)) =
  renameIfNew fs filePath metadata evs.
Proof.
  unfold afterMetadata, renameIfNew. cbv zeta.
  destruct (negb (truthyStr (title metadata))); cbn [stepTask];
    [rewrite app_nil_r; reflexivity|].
  destruct (generateNewFilename metadata) as [newFilename|]; cbn [stepTask];
    [|rewrite app_nil_r; reflexivity].
  destruct (JS.eqb newFilename _); cbn [stepTask]; [rewrite app_nil_r; reflexivity|].
  destruct (pathExists fs _ && negb _); cbn [stepTask]; [reflexivity|].
  destruct (rename fs filePath _); reflexivity.
Qed.

Lemma afterMetadata_settled fs filePath filename metadata :
  let '(fs1, t1, _) := stepTask fs (afterMetadata filePath filename metadata) in
  let '(fs2, t2, _) := stepTask fs1 t1 in
  stepTask fs2 t2 = (fs2, t2, []).
Proof.
  unfold afterMetadata.
  destruct (negb (truthyStr (title metadata))); cbn [stepTask]; [reflexivity|].
  destruct (generateNewFilename metadata) as [newFilename|]; cbn [stepTask];
    [|reflexivity].
  destruct (JS.eqb newFilename filename); cbn [stepTask]; [reflexivity|].
  destruct (pathExists fs _ && negb _); cbn [stepTask]; [reflexivity|].
  destruct (rename fs filePath _); reflexivity.
Qed.

(** The three task steps compose to the function as the source reads. *)
Lemma three_steps_direct fs filePath (fm : Metadata) :
  (let t0 := if negb (truthyStr (author fm)) then AwaitExtract filePath fm
             else afterMetadata filePath (NodePath.basename filePath) fm in
   let '(fs1, t1, e1) := stepTask fs t0 in
   let '(fs2, t2, e2) := stepTask fs1 t1 in
   let '(fs3, t3, e3) := stepTask fs2 t2 in
   (fs3, t3, e1 ++ e2 ++ e3)) =
  (let '(metadata, evs) := resolveMetadata fs filePath fm in
   renameIfNew fs filePath metadata evs).
Proof.
  cbv zeta.
  destruct (resolveMetadata fs filePath fm) as [metadata evs] eqn:Hres.
  rewrite <- run_afterMetadata.
  pose proof (afterMetadata_settled fs filePath (NodePath.basename filePath) metadata)
    as Hidle.
  destruct (truthyStr (author fm)) eqn:Hauthor; cbn [negb].
  - (* the file name gives an author: two awaits, the third step is idle *)
    unfold resolveMetadata in Hres. rewrite Hauthor in Hres. cbn [negb] in Hres.
    inversion Hres; subst metadata evs.
    destruct (stepTask fs (afterMetadata filePath _ fm)) as [[fs1 t1] e1].
    destruct (stepTask fs1 t1) as [[fs2 t2] e2].
    rewrite Hidle, app_nil_r. reflexivity.
  - (* no author: the first await is the extraction *)
    assert (Hstep : stepTask fs (AwaitExtract filePath fm)
                    = (fs, afterMetadata filePath (NodePath.basename filePath) metadata,
                       evs))
      by (unfold stepTask; rewrite Hres; reflexivity).
    rewrite Hstep.
    destruct (stepTask fs (afterMetadata filePath _ metadata)) as [[fs1 t1] e1].
    destruct (stepTask fs1 t1) as [[fs2 t2] e2].
    reflexivity.
Qed.

Lemma processPdfFile_direct fs filePath :
  processPdfFile fs filePath = processPdfFileDirect fs filePath.
Proof.
  exact (three_steps_direct fs filePath (parseFilename (NodePath.basename filePath))).
Qed.

Lemma extractCalls_app a b : extractCalls (a ++ b) = extractCalls a ++ extractCalls b.
Proof. induction a as [|[] a IH]; simpl; rewrite ?IH; reflexivity. Qed.

Lemma renameCalls_app a b : renameCalls (a ++ b) = renameCalls a ++ renameCalls b.
Proof. induction a as [|[] a IH]; simpl; rewrite ?IH; reflexivity. Qed.

Lemma resolveMetadata_calls fs filePath fm :
  extractCalls (resolveMetadata fs filePath fm).2 =
    (if truthyStr (author fm) then [] else [filePath])
  /\ renameCalls (resolveMetadata fs filePath fm).2 = [].
Proof.
  unfold resolveMetadata. destruct (truthyStr (author fm)); cbn [negb]; [auto|].
  destruct (extractPdfMetadata fs filePath); auto.
Qed.

(** [renameIfNew] extracts nothing, and calls [fs.rename] at most once,
    on the file itself and a path that is free or the file's own. *)
Lemma renameIfNew_calls fs filePath metadata evs :
  let r := renameIfNew fs filePath metadata evs in
  extractCalls r.2 = extractCalls evs
  /\ (renameCalls r.2 = renameCalls evs /\ r.1.1 = fs
      \/ exists newFilename,
           let newPath := NodePath.join2 (NodePath.dirname filePath) newFilename in
           generateNewFilename metadata = Some newFilename
           /\ JS.eqb newFilename (NodePath.basename filePath) = false
           /\ renameCalls r.2 = renameCalls evs ++ [(filePath, newPath)]
           /\ (pathExists fs newPath = false \/ newPath = filePath)).
Proof.
  unfold renameIfNew. cbv zeta.
  destruct (negb (truthyStr (title metadata))); [auto|].
  destruct (generateNewFilename metadata) as [newFilename|]; [|auto].
  destruct (JS.eqb newFilename _) eqn:Hsame; [auto|].
  destruct (pathExists fs _) eqn:Hexists; cbn [andb].
  - destruct (JS.eqb (NodePath.join2 _ _) filePath) eqn:Hself; cbn [negb].
    + apply bool_decide_eq_true in Hself.
      destruct (rename fs filePath _); cbn [fst snd];
        rewrite extractCalls_app, renameCalls_app; cbn [extractCalls renameCalls];
        rewrite app_nil_r; (split; [reflexivity|]); right; exists newFilename;
        cbv zeta; auto.
    + cbn [fst snd]. rewrite extractCalls_app, renameCalls_app.
      cbn [extractCalls renameCalls]. rewrite !app_nil_r. auto.
  - destruct (rename fs filePath _); cbn [fst snd];
      rewrite extractCalls_app, renameCalls_app; cbn [extractCalls renameCalls];
      rewrite app_nil_r; (split; [reflexivity|]); right; exists newFilename;
      cbv zeta; auto.
Qed.






Lemma generateNewFilename_title metadata newFilename :
  generateNewFilename metadata = Some newFilename -> truthyStr (title metadata) = true.
Proof.
  unfold generateNewFilename. destruct (truthyStr (title metadata)); [reflexivity|].
  discriminate.
Qed.

Lemma renameIfNew_fixed_point fs filePath metadata evs :
  generateNewFilename metadata = Some (NodePath.basename filePath) ->
  renameIfNew fs filePath metadata evs = (fs, Finished filePath (Skipped NothingToDo), evs).
Proof.
  intros Hname. unfold renameIfNew. cbv zeta.
  rewrite (generateNewFilename_title _ _ Hname), Hname. cbn [negb].
  unfold JS.eqb. rewrite bool_decide_eq_true_2 by reflexivity. reflexivity.
Qed.

Lemma direct_fixed_point fs filePath fm :
  generateNewFilename (resolveMetadata fs filePath fm).1 = Some (NodePath.basename filePath) ->
  let r := (let '(metadata, evs) := resolveMetadata fs filePath fm in
            renameIfNew fs filePath metadata evs) in
  r.1.1 = fs /\ r.1.2 = Finished filePath (Skipped NothingToDo) /\ renameCalls r.2 = [].
Proof.
  intros Hname. pose proof (resolveMetadata_calls fs filePath fm) as [_ Hcalls].
  destruct (resolveMetadata fs filePath fm) as [metadata evs].
  cbn [fst snd] in *. rewrite (renameIfNew_fixed_point _ _ _ _ Hname).
  cbn [fst snd]. auto.
Qed.

(** C4, counterexample: title [Book Title], the validator-accepted author
    [Smith, J.] and year 2019.  The canonical name is renamed, to
    [Book Title - Smith J. [2019].pdf]. *)
Lemma canonical_name_renamed :
  let T := js "Book Title" in
  let A := js "Smith, J." in
  let filePath := js "/lib/" ++ canonicalName T A 2019%Z in
  let fs := mkFS {[filePath := mkFile 1 None]} {[js "/lib"]} in
  isValidAuthorName A = true
  /\ isLikelyAuthor A = true
  /\ isLikelyAuthor T = false
  /\ generateNewFilename (parseFilename (canonicalName T A 2019%Z))
     = Some (js "Book Title - Smith J. [2019].pdf")
  /\ renameCalls (processPdfFile fs filePath).2
     = [(filePath, js "/lib/Book Title - Smith J. [2019].pdf")].
Proof. vm_compute. repeat split; reflexivity. Qed.

(** A call of [processPdfFile] run on its own renames nothing but its
    file, and never onto an existing path other than the file's own. *)
Lemma processPdfFile_checks_target fs filePath src dst :
  In (src, dst) (renameCalls (processPdfFile fs filePath).2) ->
  src = filePath /\ (pathExists fs dst = false \/ dst = filePath).
Proof.
  rewrite processPdfFile_direct. unfold processPdfFileDirect. cbv zeta.
  generalize (parseFilename (NodePath.basename filePath)) as fm. intros fm.
  pose proof (resolveMetadata_calls fs filePath fm) as [_ Hnone].
  destruct (resolveMetadata fs filePath fm) as [metadata evs]. cbn [snd] in Hnone.
  destruct (renameIfNew_calls fs filePath metadata evs) as [_ [[-> _]|Hone]].
  - rewrite Hnone. intros [].
  - destruct Hone as (newFilename & _ & _ & -> & Hfree). rewrite Hnone.
    intros [Heq|[]]. inversion Heq; subst. auto.
Qed.

(* ================================================================== *)
(** * Sanitising *)
(* ================================================================== *)

Section Preserved.

(** A property of characters that the replacement text has. *)
Variable P : N -> Prop.

Lemma replaceLoop_preserves R by_ (s : list N) :
  Forall P by_ -> Forall P s ->
  forall fuel lastIndex next acc,
    Forall P acc -> Forall P (replaceLoop R by_ s fuel lastIndex next acc).
Proof.
  intros Hby Hs. induction fuel as [|fuel IH]; intros lastIndex next acc Hacc; simpl.
  - apply Forall_app. split; [exact Hacc | apply Forall_drop, Hs].
  - destruct (execFrom R s lastIndex) as [m|].
    + apply IH. rewrite !Forall_app. repeat split; try assumption.
      unfold substring. apply Forall_take, Forall_drop, Hs.
    + apply Forall_app. split; [exact Hacc | apply Forall_drop, Hs].
Qed.

Lemma replaceAll_preserves R by_ (s : list N) :
  Forall P by_ -> Forall P s -> Forall P (replaceAll R by_ s).
Proof.
  intros Hby Hs. apply replaceLoop_preserves; [exact Hby | exact Hs | constructor].
Qed.

Lemma dropSpaces_preserves (s : list N) : Forall P s -> Forall P (dropSpaces s).
Proof.
  induction 1 as [|c s Hc Hs IH]; simpl; [constructor|].
  destruct (isSpace c); [exact IH | constructor; assumption].
Qed.

Lemma trim_preserves (s : list N) : Forall P s -> Forall P (trim s).
Proof.
  intros H. unfold trim, trimEnd, trimStart.
  apply Forall_rev, dropSpaces_preserves, Forall_rev, dropSpaces_preserves, H.
Qed.

End Preserved.

Lemma replaceClass_clean (inClass : N -> bool) by_ (s : list N) :
  Forall (fun c => inClass c = false) by_ ->
  Forall (fun c => inClass c = false) (replaceClass inClass by_ s).
Proof.
  intros Hby. induction s as [|c s IH]; simpl; [constructor|].
  apply Forall_app. split; [|exact IH].
  destruct (inClass c) eqn:E; [exact Hby | constructor; [exact E | constructor]].
Qed.

(** The sanitising step leaves none of the nine characters. *)
Lemma sanitize_clean (newName : list N) :
  Forall (fun c => isInvalidChar c = false) (sanitize newName).
Proof.
  unfold sanitize.
  apply trim_preserves, replaceAll_preserves; [repeat constructor|].
  apply replaceAll_preserves; [repeat constructor|].
  rewrite replaceAll_class. apply replaceClass_clean. repeat constructor.
Qed.

(** C7 at the failing input.  For the title [aaaa:b] and year 2001 the
    sanitised name [aaaa-b [2001]] has a character repeated four times,
    the fallback rebuilds the name from the unsanitised title, and the
    result still holds the colon. *)
Theorem fallback_skips_sanitizing :
  let metadata := mkMetadata (Some (js "aaaa:b")) None (Some 2001%Z) in
  looksSuspicious (sanitize (js "aaaa:b [2001]")) = true
  /\ generateNewFilename metadata = Some (js "aaaa:b [2001].pdf")
  /\ existsb isInvalidChar (js "aaaa:b [2001].pdf") = true.
Proof. vm_compute. repeat split; reflexivity. Qed.

(* ================================================================== *)
(** * Renaming *)
(* ================================================================== *)

(** C10 at the failing input.  The file [/lib/_.pdf] has no title in its
    name; its embedded title [aaaa/b] reaches the fallback of
    [generateNewFilename] unsanitised, the new name [aaaa/b.pdf] holds a
    separator, and the file is renamed into the directory [/lib/aaaa]. *)
Theorem rename_leaves_directory :
  let filePath := js "/lib/_.pdf" in
  let embedded := mkMetadata (Some (js "aaaa/b")) None None in
  let fs := mkFS {[filePath := mkFile 1 (Some embedded)]} {[js "/lib"; js "/lib/aaaa"]} in
  let newPath := js "/lib/aaaa/b.pdf" in
  (processPdfFile fs filePath).1.2 = Finished filePath (Renamed newPath)
  /\ renameCalls (processPdfFile fs filePath).2 = [(filePath, newPath)]
  /\ files (processPdfFile fs filePath).1.1 !! filePath = None
  /\ files (processPdfFile fs filePath).1.1 !! newPath = Some (mkFile 1 (Some embedded))
  /\ NodePath.dirname filePath = js "/lib"
  /\ NodePath.dirname newPath = js "/lib/aaaa".
Proof. intros. repeat split; vm_compute; reflexivity. Qed.

(** The check of [processPdfFile]: a target that exists and is not the
    file itself ends the call, with the file system untouched. *)
Lemma stepTask_collision fs filePath filename newFilename newPath :
  pathExists fs newPath = true -> newPath <> filePath ->
  stepTask fs (AwaitPathExists filePath filename newFilename newPath)
  = (fs, Finished filePath (Skipped Collision), [EvPathExists newPath]).
Proof.
  intros Hexists Hne. cbn [stepTask]. rewrite Hexists.
  unfold JS.eqb. rewrite bool_decide_eq_false_2 by exact Hne. reflexivity.
Qed.

(** C1 at the failing input.  [My_Book.pdf] and [My.Book.pdf] both
    resolve to [My Book.pdf].  With one call in flight at a time the
    second call finds the target taken and is skipped.  With two calls in
    flight, when both [pathExists] checks settle before either rename,
    both files are renamed and the first one is overwritten by the
    second. *)
Theorem check_then_rename_race :
  let a := js "/lib/My_Book.pdf" in
  let b := js "/lib/My.Book.pdf" in
  let target := js "/lib/My Book.pdf" in
  let fs := mkFS (<[a := mkFile 1 None]> {[b := mkFile 2 None]}) {[js "/lib"]} in
  let one := processFiles 1 fs [a; b] [] in
  let two := processFiles 2 fs [a; b] [0; 1; 0; 1; 0; 0] in
  (active one = [] /\ queue one = []
   /\ renameCalls (log one) = [(a, target)]
   /\ content <$> files (poolFs one) !! target = Some 1%N
   /\ content <$> files (poolFs one) !! b = Some 2%N)
  /\ (active two = [] /\ queue two = []
      /\ renameCalls (log two) = [(a, target); (b, target)]
      /\ content <$> files (poolFs two) !! target = Some 2%N
      /\ size (files (poolFs two)) = 1).
Proof. intros. repeat split; vm_compute; reflexivity. Qed.

(* ================================================================== *)
(** * Start-up *)
(* ================================================================== *)

(** C8 (as the code behaves).  When [PDF_SOURCE_DIR] is unset or empty
    the process ends with exit code 1 and the file system as it was.
    When it is set to a path that leads to no directory, from whatever
    working directory it is resolved, nothing is renamed and the file
    system stays as it was; the first [readdir] rejects, the error is
    logged and the process ends with exit code 0, unless the concurrency
    is below 1, which makes [pLimit] throw before anything else: exit
    code 1. *)
Theorem startup_errors (env : Env) (fs : FileSystem) (schedule : list nat) :
  (truthyStr (PDF_SOURCE_DIR env) = false ->
     exists e, main env fs schedule = Some e
               /\ exitCode e = 1%Z /\ finalFs e = fs /\ renameCalls (output e) = [])
  /\ (forall sourceDir,
        PDF_SOURCE_DIR env = Some sourceDir -> truthy sourceDir = true ->
        (forall cwd, resolveDirectory fs cwd sourceDir = None) ->
        exists e, main env fs schedule = Some e
                  /\ exitCode e = (if (MAX_CONCURRENT env <? 1)%Z then 1%Z else 0%Z)
                  /\ finalFs e = fs /\ renameCalls (output e) = []
                  /\ ((1 <= MAX_CONCURRENT env)%Z -> output e = [EvLogError])).
Proof.
  split.
  - intros Hmissing. unfold main.
    destruct (MAX_CONCURRENT env <? 1)%Z; [eexists; repeat split|].
    destruct (PDF_SOURCE_DIR env) as [sourceDir|]; [|eexists; repeat split].
    cbn [truthyStr] in Hmissing. rewrite Hmissing. eexists; repeat split.
  - intros sourceDir Hdir Htruthy Hnot. unfold main.
    destruct (MAX_CONCURRENT env <? 1)%Z eqn:Hlimit.
    + eexists. split; [reflexivity|]. cbn [exitCode finalFs output renameCalls].
      repeat split. intros Hone. apply Z.ltb_lt in Hlimit. lia.
    + rewrite Hdir, Htruthy.
      unfold getAllPdfFiles. cbn [walk].
      unfold readdir. cbn [List.last removelast]. rewrite (Hnot workingDirectory).
      eexists. split; [reflexivity|]. cbn [exitCode finalFs output renameCalls].
      repeat split.
Qed.

(** Witness for C8: no source directory, and a source directory that
    does not exist, in front of a library with one file. *)
Lemma startup_witness :
  let fs := mkFS {[js "/lib/My_Book.pdf" := mkFile 1 None]} {[js "/lib"]} in
  (exists e, main (mkEnv None None 4) fs [] = Some e
             /\ exitCode e = 1%Z /\ finalFs e = fs /\ renameCalls (output e) = [])
  /\ main (mkEnv (Some (js "/nope")) None 4) fs [] = Some (mkExit 0 fs [EvLogError]).
Proof.
  intros fs. split.
  - apply (proj1 (startup_errors (mkEnv None None 4) fs [])). reflexivity.
  - destruct (proj2 (startup_errors (mkEnv (Some (js "/nope")) None 4) fs []) (js "/nope"))
      as (e & Hmain & Hcode & Hfs & _ & Hout).
    + reflexivity.
    + reflexivity.
    + intros cwd. vm_compute. reflexivity.
    + rewrite Hmain. destruct e as [code final out]. cbn [exitCode finalFs output] in *.
      rewrite Hcode, Hfs, Hout by (vm_compute; discriminate). reflexivity.
Defined.

(** C8, counterexample: a source directory that does not exist ends the
    process with exit code 0. *)
Lemma invalid_directory_exits_zero :
  let fs := mkFS {[js "/lib/My_Book.pdf" := mkFile 1 None]} {[js "/lib"]} in
  exitCode <$> main (mkEnv (Some (js "/nope")) None 4) fs [] = Some 0%Z.
Proof. vm_compute. reflexivity. Qed.

(** The directory may be spelled in any way that leads to it: with a
    trailing separator, a doubled one, or through [.] and [..], the walk
    finds the same file and the run renames it. *)
Lemma source_directory_spellings :
  let fs := mkFS {[js "/lib/My_Book.pdf" := mkFile 1 None]} {[js "/lib"]} in
  Forall (fun sourceDir =>
            getAllPdfFiles fs sourceDir = WalkDone [js "/lib/My_Book.pdf"]
            /\ (renameCalls ∘ output) <$> main (mkEnv (Some sourceDir) None 4) fs []
               = Some [(js "/lib/My_Book.pdf", js "/lib/My Book.pdf")])
         [js "/lib"; js "/lib/"; js "//lib"; js "/lib/."; js "/lib/../lib"]
  /\ Forall (fun sourceDir => getAllPdfFiles fs sourceDir = WalkRejected)
            [js "/nope/../lib"; js "/lib/My_Book.pdf"; js "/lib/My_Book.pdf/.."].
Proof. intros fs. split; repeat constructor; vm_compute; reflexivity. Qed.

(* ================================================================== *)
(** * One call: what it can do to the file system *)
(* ================================================================== *)

Lemma pathExists_false fs p :
  pathExists fs p = false -> files fs !! p = None /\ p ∉ dirs fs.
Proof.
  unfold pathExists. intros H. apply orb_false_iff in H as [Hf Hd].
  apply bool_decide_eq_false in Hf. apply bool_decide_eq_false in Hd.
  split; [|exact Hd]. destruct (files fs !! p) eqn:E; [|reflexivity].
  exfalso. apply Hf. eauto.
Qed.

Lemma rename_Some fs src dst fs' :
  rename fs src dst = Some fs' ->
  exists f, files fs !! src = Some f
            /\ fs' = mkFS (<[dst := f]> (delete src (files fs))) (dirs fs)
            /\ (NodePath.dirname dst ∈ dirs fs) /\ (dst ∉ dirs fs).
Proof.
  unfold rename. destruct (files fs !! src) as [f|]; [|discriminate].
  destruct (bool_decide (NodePath.dirname dst ∈ dirs fs)) eqn:Hd; [|discriminate].
  destruct (bool_decide (dst ∈ dirs fs)) eqn:Hn; [discriminate|].
  cbn [andb negb]. intros H. inversion H; subst.
  apply bool_decide_eq_true in Hd. apply bool_decide_eq_false in Hn.
  exists f. auto.
Qed.

(** How [renameIfNew] can end: skipped, failed, or renamed. *)
Lemma renameIfNew_effect fs filePath metadata evs :
  let r := renameIfNew fs filePath metadata evs in
  exists o, r.1.2 = Finished filePath o /\
    match o with
    | Skipped _ => r.1.1 = fs /\ renameCalls r.2 = renameCalls evs
    | Failed =>
      r.1.1 = fs
      /\ exists newPath, rename fs filePath newPath = None
         /\ renameCalls r.2 = renameCalls evs ++ [(filePath, newPath)]
    | Renamed newPath =>
      exists f,
        files fs !! filePath = Some f
        /\ r.1.1 = mkFS (<[newPath := f]> (delete filePath (files fs))) (dirs fs)
        /\ (files fs !! newPath = None \/ newPath = filePath)
        /\ (NodePath.dirname newPath ∈ dirs fs) /\ (newPath ∉ dirs fs)
        /\ renameCalls r.2 = renameCalls evs ++ [(filePath, newPath)]
    end.
Proof.
  unfold renameIfNew. cbv zeta.
  destruct (negb (truthyStr (title metadata)));
    [eexists; split; [reflexivity|]; cbn [fst snd]; auto|].
  destruct (generateNewFilename metadata) as [newFilename|];
    [|eexists; split; [reflexivity|]; cbn [fst snd]; auto].
  destruct (JS.eqb newFilename _);
    [eexists; split; [reflexivity|]; cbn [fst snd]; auto|].
  set (newPath := NodePath.join2 _ _).
  destruct (pathExists fs newPath && negb (JS.eqb newPath filePath)) eqn:Hcheck.
  { eexists; split; [reflexivity|]. cbn [fst snd]. rewrite renameCalls_app.
    cbn [renameCalls]. rewrite app_nil_r. auto. }
  assert (Hfree : files fs !! newPath = None \/ newPath = filePath).
  { apply andb_false_iff in Hcheck as [Hex|Hself].
    - left. apply (pathExists_false _ _ Hex).
    - right. apply negb_false_iff in Hself. apply bool_decide_eq_true in Hself.
      exact Hself. }
  destruct (rename fs filePath newPath) as [fs'|] eqn:Hren.
  - destruct (rename_Some _ _ _ _ Hren) as (f & Hf & -> & Hdir & Hnd).
    eexists; split; [reflexivity|]. exists f. cbn [fst snd].
    rewrite renameCalls_app. cbn [renameCalls]. repeat split; auto.
  - eexists; split; [reflexivity|]. cbn [fst snd]. split; [reflexivity|].
    exists newPath. rewrite renameCalls_app. cbn [renameCalls]. auto.
Qed.

Lemma direct_effect fs filePath fm :
  let r := (let '(metadata, evs) := resolveMetadata fs filePath fm in
            renameIfNew fs filePath metadata evs) in
  exists o, r.1.2 = Finished filePath o /\
    match o with
    | Skipped _ => r.1.1 = fs /\ renameCalls r.2 = []
    | Failed =>
      r.1.1 = fs
      /\ exists newPath, rename fs filePath newPath = None
         /\ renameCalls r.2 = [(filePath, newPath)]
    | Renamed newPath =>
      exists f,
        files fs !! filePath = Some f
        /\ r.1.1 = mkFS (<[newPath := f]> (delete filePath (files fs))) (dirs fs)
        /\ (files fs !! newPath = None \/ newPath = filePath)
        /\ (NodePath.dirname newPath ∈ dirs fs) /\ (newPath ∉ dirs fs)
        /\ renameCalls r.2 = [(filePath, newPath)]
    end.
Proof.
  pose proof (resolveMetadata_calls fs filePath fm) as [_ Hnone].
  destruct (resolveMetadata fs filePath fm) as [metadata evs]. cbn [snd] in Hnone.
  pose proof (renameIfNew_effect fs filePath metadata evs) as H.
  cbv zeta in *. rewrite Hnone in H. exact H.
Qed.

(** X1.  A call of [processPdfFile] run on its own always finishes, and
    in one of three ways.  Skipped: the file system is as it was and
    [fs.rename] was not called.  Failed: [fs.rename] was called once, for
    this file, rejected, and the file system is as it was.  Renamed: the
    one file has moved, with its content, to a path that held no file (or
    was its own) in an existing directory; nothing else has changed. *)
Theorem processPdfFile_outcomes (fs : FileSystem) (filePath : jsstring) :
  let r := processPdfFile fs filePath in
  exists o, r.1.2 = Finished filePath o /\
    match o with
    | Skipped _ => r.1.1 = fs /\ renameCalls r.2 = []
    | Failed =>
      r.1.1 = fs
      /\ exists newPath, rename fs filePath newPath = None
         /\ renameCalls r.2 = [(filePath, newPath)]
    | Renamed newPath =>
      exists f,
        files fs !! filePath = Some f
        /\ r.1.1 = mkFS (<[newPath := f]> (delete filePath (files fs))) (dirs fs)
        /\ (files fs !! newPath = None \/ newPath = filePath)
        /\ (NodePath.dirname newPath ∈ dirs fs) /\ (newPath ∉ dirs fs)
        /\ renameCalls r.2 = [(filePath, newPath)]
    end.
Proof.
  rewrite processPdfFile_direct.
  exact (direct_effect fs filePath (parseFilename (NodePath.basename filePath))).
Qed.

(** Moving a file to a free path, or onto itself, keeps the stored files
    the same up to their order. *)
Lemma move_keeps_files (m : gmap jsstring File) src dst f :
  m !! src = Some f -> m !! dst = None \/ dst = src ->
  (map_to_list (<[dst := f]> (delete src m))).*2 ≡ₚ (map_to_list m).*2.
Proof.
  intros Hsrc Hfree.
  assert (Hd : delete src m !! dst = None).
  { destruct Hfree as [Hn| ->]; [|apply lookup_delete_eq].
    destruct (decide (src = dst)) as [->|Hne]; [apply lookup_delete_eq|].
    rewrite lookup_delete_ne by exact Hne. exact Hn. }
  rewrite (map_to_list_insert _ _ _ Hd).
  rewrite <- (map_to_list_delete m src f Hsrc). reflexivity.
Qed.

(** X2.  Whatever a single call does, the files of the file system are
    afterwards the same files (as a multiset of contents and embedded
    metadata), and the directories are the same: a call on its own never
    loses, duplicates or overwrites a file. *)
Theorem processPdfFile_keeps_files (fs : FileSystem) (filePath : jsstring) :
  let fs' := (processPdfFile fs filePath).1.1 in
  (map_to_list (files fs')).*2 ≡ₚ (map_to_list (files fs)).*2
  /\ dirs fs' = dirs fs.
Proof.
  cbv zeta. rewrite processPdfFile_direct. unfold processPdfFileDirect. cbv zeta.
  destruct (direct_effect fs filePath (parseFilename (NodePath.basename filePath)))
    as (o & _ & Ho).
  destruct o as [newPath| |].
  - destruct Ho as (f & Hf & -> & Hfree & _). cbn [files dirs].
    split; [apply move_keeps_files; assumption | reflexivity].
  - destruct Ho as [-> _]. auto.
  - destruct Ho as [-> _]. auto.
Qed.

(* ================================================================== *)
(** * The worker pool *)
(* ================================================================== *)

Lemma processFiles_poolAfter maxConcurrent fs pdfFiles schedule :
  processFiles maxConcurrent fs pdfFiles schedule =
  poolAfter maxConcurrent fs pdfFiles (schedule ++ replicate (3 * length pdfFiles) 0).
Proof.
  unfold processFiles, poolAfter, poolStart.
  destruct (refill maxConcurrent pdfFiles []) as [[q a] evs].
  rewrite fold_left_app. reflexivity.
Qed.

Lemma ticks_app a b : ticks (a ++ b) = ticks a + ticks b.
Proof. induction a as [|[] a IH]; simpl; rewrite ?IH; reflexivity. Qed.

Lemma stepsLeftAll_app a b : stepsLeftAll (a ++ b) = stepsLeftAll a + stepsLeftAll b.
Proof. apply sum_list_with_app. Qed.

(** A call that has just started waits for the extraction or for
    [pathExists], or is finished already. *)
Lemma afterMetadata_shape filePath filename metadata :
  match afterMetadata filePath filename metadata with
  | Finished p _ => p = filePath
  | AwaitPathExists p _ _ _ => p = filePath
  | _ => False
  end.
Proof.
  unfold afterMetadata.
  destruct (negb (truthyStr (title metadata))); [reflexivity|].
  destruct (generateNewFilename metadata); [|reflexivity].
  destruct (JS.eqb _ _); reflexivity.
Qed.

Lemma startTask_shape filePath :
  match startTask filePath with
  | AwaitRename _ _ _ _ => False
  | Finished p _ | AwaitPathExists p _ _ _ | AwaitExtract p _ => p = filePath
  end.
Proof.
  unfold startTask. cbv zeta.
  generalize (parseFilename (NodePath.basename filePath)) as fm. intros fm.
  destruct (negb (truthyStr (author fm))); [reflexivity|].
  pose proof (afterMetadata_shape filePath (NodePath.basename filePath) fm) as H.
  destruct (afterMetadata _ _ _); try contradiction; exact H.
Qed.

Lemma startTask_stepsLeft filePath : stepsLeft (startTask filePath) <= 3.
Proof. destruct (startTask filePath); simpl; lia. Qed.

(** One await settles: the call has fewer awaits left, and the file
    system changes only through a rename. *)
Lemma stepTask_progress fs t :
  let '(fs', t', evs) := stepTask fs t in
  (0 < stepsLeft t -> stepsLeft t' < stepsLeft t)
  /\ ticks evs = 0
  /\ (match t with AwaitRename _ _ _ _ => True | _ => fs' = fs end).
Proof.
  destruct t as [filePath fm|filePath filename newFilename newPath
                 |filePath filename newFilename newPath|filePath o]; cbn [stepTask].
  - pose proof (resolveMetadata_calls fs filePath fm) as _.
    unfold resolveMetadata.
    pose proof (afterMetadata_shape filePath (NodePath.basename filePath)) as Hs.
    destruct (negb (truthyStr (author fm))).
    + destruct (extractPdfMetadata fs filePath) as [pm|].
      * specialize (Hs (mergeMetadata fm pm)).
        destruct (afterMetadata _ _ _); try contradiction; simpl; repeat split; lia.
      * specialize (Hs fm).
        destruct (afterMetadata _ _ _); try contradiction; simpl; repeat split; lia.
    + specialize (Hs fm).
      destruct (afterMetadata _ _ _); try contradiction; simpl; repeat split; lia.
  - destruct (pathExists fs newPath && negb (JS.eqb newPath filePath));
      simpl; repeat split; lia.
  - destruct (rename fs filePath newPath); simpl; repeat split; lia.
  - simpl. repeat split; lia.
Qed.

Section Refill.

Variable maxConcurrent : nat.

Local Ltac started IH t :=
  specialize (IH t);
  destruct (refill _ _ _) as [[q a] evs];
  destruct IH as (H1 & H2 & H3 & H4 & H5 & H6 & H7);
  rewrite ?length_app, ?stepsLeftAll_app in *; cbn in *;
  split; [intros; apply H1; lia|];
  split; [intros; apply H2; [lia|assumption]|];
  split; [lia|];
  split; [lia|];
  split; [intros H; apply H5; apply Forall_app; split; [exact H|];
          repeat constructor|];
  split; [intros fs H; apply H6; apply Forall_app; split; [exact H|];
          repeat constructor|];
  exact H7.

(** What the limiter does when it starts queued calls. *)
Lemma refill_spec queue : forall active,
  let '(q, a, evs) := refill maxConcurrent queue active in
  (length active <= maxConcurrent -> length a <= maxConcurrent)
  /\ (length active <= maxConcurrent -> q <> [] -> length a = maxConcurrent)
  /\ ticks evs + length a + length q = length active + length queue
  /\ stepsLeftAll a + 3 * length q <= stepsLeftAll active + 3 * length queue
  /\ (Forall (fun t => 0 < stepsLeft t) active -> Forall (fun t => 0 < stepsLeft t) a)
  /\ (forall fs, Forall (targetFree fs) active -> Forall (targetFree fs) a)
  /\ renameCalls evs = [].
Proof.
  induction queue as [|filePath later IH]; intros active; cbn [refill].
  - repeat split; auto; try lia. intros _ H. contradiction.
  - destruct (length active <? maxConcurrent) eqn:Hroom.
    + apply Nat.ltb_lt in Hroom.
      pose proof (startTask_shape filePath) as Hshape.
      pose proof (startTask_stepsLeft filePath) as Hsteps.
      destruct (startTask filePath) as [p fm|p fn nf np|p fn nf np|p o] eqn:Hstart;
        try contradiction.
      * started IH (active ++ [AwaitExtract p fm]).
      * started IH (active ++ [AwaitPathExists p fn nf np]).
      * specialize (IH active).
        destruct (refill _ later _) as [[q a] evs].
        destruct IH as (H1 & H2 & H3 & H4 & H5 & H6 & H7).
        cbn in *. repeat split; auto; lia.
    + apply Nat.ltb_ge in Hroom. cbn.
      repeat split; auto; try lia.
Qed.

End Refill.




Section Pool.

Variables maxConcurrent n : nat.






End Pool.




(** One settled await of a call whose target is free keeps the files. *)
Lemma stepTask_keeps_files fs t :
  targetFree fs t ->
  let '(fs', t', _) := stepTask fs t in
  (map_to_list (files fs')).*2 ≡ₚ (map_to_list (files fs)).*2
  /\ dirs fs' = dirs fs
  /\ targetFree fs' t'.
Proof.
  intros Hfree.
  destruct t as [filePath fm|filePath filename newFilename newPath
                 |filePath filename newFilename newPath|filePath o]; cbn [stepTask].
  - destruct (resolveMetadata fs filePath fm) as [metadata evs].
    pose proof (afterMetadata_shape filePath (NodePath.basename filePath) metadata) as H.
    destruct (afterMetadata _ _ _); try contradiction; cbn; auto.
  - destruct (pathExists fs newPath) eqn:Hex; cbn [andb].
    + destruct (JS.eqb newPath filePath) eqn:Hself; cbn [negb]; [|cbn; auto].
      apply bool_decide_eq_true in Hself. cbn. auto.
    + cbn. repeat split; auto. left. apply (pathExists_false _ _ Hex).
  - destruct (rename fs filePath newPath) as [fs'|] eqn:Hren; [|cbn; auto].
    destruct (rename_Some _ _ _ _ Hren) as (f & Hf & -> & _).
    cbn [files dirs targetFree]. repeat split; auto.
    apply move_keeps_files; assumption.
  - cbn. auto.
Qed.

Lemma poolStep_oneAtATime fs0 p k :
  oneAtATime fs0 p -> oneAtATime fs0 (poolStep 1 p k).
Proof.
  intros (Hone & Hfree & Hfiles & Hdirs). unfold poolStep.
  destruct (active p !! k) as [t|] eqn:Hk; [|repeat split; assumption].
  destruct (active p) as [|t0 [|t1 ts]] eqn:Hact; [discriminate| |cbn in Hone; lia].
  destruct k as [|k]; [|discriminate]. cbn in Hk. inversion Hk; subst t0. clear Hk.
  inversion Hfree as [|? ? Ht _]; subst.
  pose proof (stepTask_keeps_files (poolFs p) t Ht) as Hstep.
  destruct (stepTask (poolFs p) t) as [[fs' t'] evs].
  destruct Hstep as (Hperm & Hd & Ht').
  assert (Hkeep : oneAtATime fs0 (mkPool fs' (queue p) [t'] (log p ++ evs))).
  { unfold oneAtATime. cbn [active poolFs]. repeat split.
    - cbn. lia.
    - repeat constructor. exact Ht'.
    - rewrite Hperm. exact Hfiles.
    - rewrite Hd. exact Hdirs. }
  destruct t' as [p1 fm|p1 fn nf np|p1 fn nf np|p1 o]; try exact Hkeep.
  cbn [delete list_delete].
  pose proof (refill_spec 1 (queue p) []) as Hre.
  destruct (refill 1 (queue p) []) as [[q a] evs'].
  destruct Hre as (H1 & _ & _ & _ & _ & H6 & _).
  unfold oneAtATime. cbn [active poolFs]. repeat split.
  - apply H1. cbn. lia.
  - apply H6. constructor.
  - rewrite Hperm. exact Hfiles.
  - rewrite Hd. exact Hdirs.
Qed.

Lemma schedule_oneAtATime fs0 schedule : forall p,
  oneAtATime fs0 p -> oneAtATime fs0 (fold_left (poolStep 1) schedule p).
Proof.
  induction schedule as [|k schedule IH]; intros p Hp; cbn [fold_left]; [exact Hp|].
  apply IH, poolStep_oneAtATime, Hp.
Qed.

(** X5.  With one call in flight at a time, whatever the files, the
    metadata they embed and the order of settling, [processFiles] ends
    with the same files it started with (as a multiset of contents) and
    the same directories: nothing is lost or overwritten. *)
Theorem sequential_keeps_files (fs : FileSystem) (pdfFiles : list jsstring)
    (schedule : list nat) :
  let fs' := poolFs (processFiles 1 fs pdfFiles schedule) in
  (map_to_list (files fs')).*2 ≡ₚ (map_to_list (files fs)).*2
  /\ dirs fs' = dirs fs.
Proof.
  cbv zeta. rewrite processFiles_poolAfter. unfold poolAfter.
  assert (Hstart : oneAtATime fs (poolStart 1 fs pdfFiles)).
  { unfold poolStart. pose proof (refill_spec 1 pdfFiles []) as Hre.
    destruct (refill 1 pdfFiles []) as [[q a] evs].
    destruct Hre as (H1 & _ & _ & _ & _ & H6 & _).
    unfold oneAtATime. cbn [active poolFs].
    split; [apply H1; cbn; lia|]. split; [apply H6; constructor|].
    split; reflexivity. }
  destruct (schedule_oneAtATime fs (schedule ++ replicate (3 * length pdfFiles) 0)
              _ Hstart) as (_ & _ & Hfiles & Hdirs).
  split; assumption.
Qed.

(* ================================================================== *)
(** * The renames of a batch *)
(* ================================================================== *)

Section Planned.

Variable pdfFiles : list jsstring.

Lemma afterMetadata_planned filePath metadata :
  filePath ∈ pdfFiles ->
  plannedTask pdfFiles (afterMetadata filePath (NodePath.basename filePath) metadata).
Proof.
  intros Hin. unfold afterMetadata.
  destruct (negb (truthyStr (title metadata))); [exact I|].
  destruct (generateNewFilename metadata) as [newFilename|] eqn:Hgen; [|exact I].
  destruct (JS.eqb newFilename (NodePath.basename filePath)) eqn:Hsame; [exact I|].
  split; [exact Hin|]. exists metadata, newFilename.
  split; [exact Hgen|]. split; [|reflexivity].
  unfold JS.eqb in Hsame. apply bool_decide_eq_false in Hsame. exact Hsame.
Qed.

Lemma startTask_planned filePath :
  filePath ∈ pdfFiles -> plannedTask pdfFiles (startTask filePath).
Proof.
  intros Hin. unfold startTask. cbv zeta.
  generalize (parseFilename (NodePath.basename filePath)) as fm. intros fm.
  destruct (negb (truthyStr (author fm))); [exact Hin|].
  apply afterMetadata_planned, Hin.
Qed.

(** One settled await: the call stays as planned, and a rename is asked
    for only by a call that finishes with it. *)
Lemma stepTask_planned fs t :
  plannedTask pdfFiles t ->
  let '(fs', t', evs) := stepTask fs t in
  plannedTask pdfFiles t'
  /\ Forall (plannedRename pdfFiles) (renameCalls evs)
  /\ length (renameCalls evs) <= match t' with Finished _ _ => 1 | _ => 0 end.
Proof.
  intros Ht.
  destruct t as [filePath fm|filePath filename newFilename newPath
                 |filePath filename newFilename newPath|filePath o]; cbn [stepTask].
  - unfold resolveMetadata.
    destruct (negb (truthyStr (author fm))); [destruct (extractPdfMetadata fs filePath)|];
      (split; [apply afterMetadata_planned, Ht|]); cbn [renameCalls length];
      (split; [constructor | destruct (afterMetadata _ _ _); lia]).
  - destruct (pathExists fs newPath && negb (JS.eqb newPath filePath));
      cbn [renameCalls length plannedTask];
      (split; [first [exact I | exact Ht]|]); (split; [constructor | lia]).
  - destruct (rename fs filePath newPath);
      cbn [renameCalls length plannedTask]; (split; [exact I|]);
      (split; [constructor; [exact Ht | constructor] | lia]).
  - cbn [renameCalls length]. repeat split; [constructor | lia].
Qed.

Lemma refill_planned maxConcurrent queue : forall active,
  Forall (fun filePath => filePath ∈ pdfFiles) queue ->
  Forall (plannedTask pdfFiles) active ->
  let '(q, a, evs) := refill maxConcurrent queue active in
  Forall (fun filePath => filePath ∈ pdfFiles) q /\ Forall (plannedTask pdfFiles) a.
Proof.
  induction queue as [|filePath later IH]; intros active Hq Ha; cbn [refill].
  - split; [constructor | exact Ha].
  - destruct (length active <? maxConcurrent); [|split; assumption].
    inversion Hq as [|? ? Hin Hlater]; subst.
    pose proof (startTask_planned filePath Hin) as Hstart.
    destruct (startTask filePath) as [p fm|p fn nf np|p fn nf np|p o].
    + apply IH; [exact Hlater|]. apply Forall_app.
      split; [exact Ha | constructor; [exact Hstart | constructor]].
    + apply IH; [exact Hlater|]. apply Forall_app.
      split; [exact Ha | constructor; [exact Hstart | constructor]].
    + apply IH; [exact Hlater|]. apply Forall_app.
      split; [exact Ha | constructor; [exact Hstart | constructor]].
    + specialize (IH active Hlater Ha).
      destruct (refill maxConcurrent later active) as [[q a] evs]. exact IH.
Qed.

Lemma poolStep_planned maxConcurrent p k :
  renamesPlanned pdfFiles p -> renamesPlanned pdfFiles (poolStep maxConcurrent p k).
Proof.
  intros (Hq & Ha & Hlog & Hcount). unfold poolStep.
  destruct (active p !! k) as [t|] eqn:Hk; [|repeat split; assumption].
  pose proof (stepTask_planned (poolFs p) t (Forall_lookup_1 _ _ _ _ Ha Hk)) as Hstep.
  pose proof (stepTask_progress (poolFs p) t) as Hprog.
  destruct (stepTask (poolFs p) t) as [[fs' t'] evs].
  destruct Hstep as (Ht' & Hevs & Hone). destruct Hprog as (_ & Hticks & _).
  assert (Hkeep : forall t0, plannedTask pdfFiles t0 -> length (renameCalls evs) <= 0 ->
            renamesPlanned pdfFiles
              (mkPool fs' (queue p) (<[k := t0]> (active p)) (log p ++ evs))).
  { intros t0 Ht0 Hnone. unfold renamesPlanned. cbn [queue active log].
    rewrite renameCalls_app, ticks_app, length_app, Hticks.
    repeat split; [exact Hq | apply Forall_insert; assumption | | lia].
    apply Forall_app. split; assumption. }
  destruct t' as [p1 fm|p1 fn nf np|p1 fn nf np|p1 o];
    try (apply Hkeep; [exact Ht' | exact Hone]).
  pose proof (refill_planned maxConcurrent (queue p) (delete k (active p)) Hq
                (Forall_delete _ _ _ Ha)) as Hre.
  pose proof (refill_spec maxConcurrent (queue p) (delete k (active p))) as Hspec.
  destruct (refill maxConcurrent (queue p) (delete k (active p))) as [[q a] evs'].
  destruct Hre as [Hq' Ha']. destruct Hspec as (_ & _ & _ & _ & _ & _ & Hnone).
  unfold renamesPlanned. cbn [queue active log].
  rewrite !renameCalls_app, !ticks_app, !length_app, Hticks, Hnone.
  cbn [renameCalls ticks length app].
  repeat split; [exact Hq' | exact Ha' | | lia].
  rewrite app_nil_r. apply Forall_app. split; assumption.
Qed.

Lemma schedule_planned maxConcurrent schedule : forall p,
  renamesPlanned pdfFiles p ->
  renamesPlanned pdfFiles (fold_left (poolStep maxConcurrent) schedule p).
Proof.
  induction schedule as [|k schedule IH]; intros p Hp; cbn [fold_left]; [exact Hp|].
  apply IH, poolStep_planned, Hp.
Qed.

Lemma poolStart_planned maxConcurrent fs :
  renamesPlanned pdfFiles (poolStart maxConcurrent fs pdfFiles).
Proof.
  unfold poolStart.
  pose proof (refill_planned maxConcurrent pdfFiles []) as Hre.
  pose proof (refill_spec maxConcurrent pdfFiles []) as Hspec.
  destruct (refill maxConcurrent pdfFiles []) as [[q a] evs].
  destruct Hre as [Hq Ha]; [apply Forall_forall; auto | constructor |].
  destruct Hspec as (_ & _ & _ & _ & _ & _ & Hnone).
  unfold renamesPlanned. cbn [queue active log]. rewrite Hnone.
  repeat split; [exact Hq | exact Ha | constructor | simpl; lia].
Qed.

End Planned.

(** ** Each file at most once *)

Lemma afterMetadata_path (filePath filename : jsstring) (metadata : Metadata) :
  taskPath (afterMetadata filePath filename metadata) = filePath.
Proof.
  unfold afterMetadata.
  destruct (negb (truthyStr (title metadata))); [reflexivity|].
  destruct (generateNewFilename metadata) as [newFilename|]; [|reflexivity].
  destruct (JS.eqb newFilename filename); reflexivity.
Qed.

Lemma startTask_path (filePath : jsstring) : taskPath (startTask filePath) = filePath.
Proof.
  unfold startTask. cbv zeta.
  generalize (parseFilename (NodePath.basename filePath)) as fm. intros fm.
  destruct (negb (truthyStr (author fm))); [reflexivity | apply afterMetadata_path].
Qed.

(** A settled await leaves the call with its file; the only rename asked
    for is of that file, by the call that finishes with it. *)
Lemma stepTask_path (fs : FileSystem) (t : task) :
  let '(fs', t', evs) := stepTask fs t in
  taskPath t' = taskPath t
  /\ (renameCalls evs).*1 ⊆+ match t' with Finished _ _ => [taskPath t] | _ => [] end.
Proof.
  destruct t as [filePath fm|filePath filename newFilename newPath
                 |filePath filename newFilename newPath|filePath o]; cbn [stepTask].
  - unfold resolveMetadata.
    destruct (negb (truthyStr (author fm))); [destruct (extractPdfMetadata fs filePath)|];
      (split; [apply afterMetadata_path|]); cbn [renameCalls fmap list_fmap];
      apply submseteq_nil_l.
  - destruct (pathExists fs newPath && negb (JS.eqb newPath filePath));
      cbn [renameCalls taskPath fmap list_fmap]; (split; [reflexivity|]);
      apply submseteq_nil_l.
  - destruct (rename fs filePath newPath);
      cbn [renameCalls taskPath fmap list_fmap fst]; (split; [reflexivity|]);
      reflexivity.
  - cbn [renameCalls taskPath fmap list_fmap]. split; [reflexivity | apply submseteq_nil_l].
Qed.

Lemma refill_once (maxConcurrent : nat) (queue : list jsstring) : forall active,
  let '(q, a, evs) := refill maxConcurrent queue active in
  (taskPath <$> a) ++ q ⊆+ (taskPath <$> active) ++ queue.
Proof.
  induction queue as [|filePath later IH]; intros active; cbn [refill]; [reflexivity|].
  destruct (length active <? maxConcurrent); [|reflexivity].
  pose proof (startTask_path filePath) as Hpath.
  assert (Hstart : forall t, taskPath t = filePath ->
            let '(q, a, evs) := refill maxConcurrent later (active ++ [t]) in
            (taskPath <$> a) ++ q ⊆+ (taskPath <$> active) ++ filePath :: later).
  { intros t Ht. specialize (IH (active ++ [t])).
    destruct (refill maxConcurrent later (active ++ [t])) as [[q a] evs].
    etransitivity; [exact IH|].
    rewrite fmap_app, <- app_assoc. cbn [fmap list_fmap app]. rewrite Ht. reflexivity. }
  destruct (startTask filePath) as [p fm|p fn nf np|p fn nf np|p o];
    try exact (Hstart _ Hpath).
  specialize (IH active).
  destruct (refill maxConcurrent later active) as [[q a] evs].
  etransitivity; [exact IH|].
  apply submseteq_skips_l, submseteq_cons. reflexivity.
Qed.

Lemma poolStep_once (pdfFiles : list jsstring) (maxConcurrent : nat) (p : pool) (k : nat) :
  renamedOnce pdfFiles p -> renamedOnce pdfFiles (poolStep maxConcurrent p k).
Proof.
  unfold renamedOnce. intros Hp. unfold poolStep.
  destruct (active p !! k) as [t|] eqn:Hk; [|exact Hp].
  pose proof (stepTask_path (poolFs p) t) as Hstep.
  destruct (stepTask (poolFs p) t) as [[fs' t'] evs].
  destruct Hstep as [Hsame Hevs].
  assert (Hkeep : (renameCalls evs).*1 ⊆+ [] ->
            (renameCalls (log p ++ evs)).*1
              ++ (taskPath <$> <[k := t']> (active p)) ++ queue p ⊆+ pdfFiles).
  { intros Hnone. apply submseteq_nil_r in Hnone.
    rewrite renameCalls_app, fmap_app, Hnone, app_nil_r.
    rewrite list_fmap_insert, Hsame.
    rewrite (list_insert_id (taskPath <$> active p) k (taskPath t)); [exact Hp|].
    rewrite list_lookup_fmap, Hk. reflexivity. }
  destruct t' as [p1 fm|p1 fn nf np|p1 fn nf np|p1 o];
    try (cbn [queue active log]; apply Hkeep; exact Hevs).
  pose proof (refill_once maxConcurrent (queue p) (delete k (active p))) as Hre.
  pose proof (refill_spec maxConcurrent (queue p) (delete k (active p))) as Hspec.
  destruct (refill maxConcurrent (queue p) (delete k (active p))) as [[q a] evs'].
  destruct Hspec as (_ & _ & _ & _ & _ & _ & Hnone).
  cbn [queue active log].
  rewrite !renameCalls_app, Hnone. cbn [renameCalls app]. rewrite app_nil_r.
  etransitivity; [|exact Hp].
  rewrite fmap_app, <- app_assoc. apply submseteq_skips_l.
  etransitivity; [apply submseteq_app; [exact Hevs | exact Hre]|].
  cbn [app]. rewrite app_comm_cons. apply submseteq_app; [|reflexivity].
  rewrite (delete_Permutation (active p) k t Hk) at 2. reflexivity.
Qed.

Lemma schedule_once (pdfFiles : list jsstring) (maxConcurrent : nat)
    (schedule : list nat) : forall p,
  renamedOnce pdfFiles p ->
  renamedOnce pdfFiles (fold_left (poolStep maxConcurrent) schedule p).
Proof.
  induction schedule as [|k schedule IH]; intros p Hp; cbn [fold_left]; [exact Hp|].
  apply IH, poolStep_once, Hp.
Qed.

Lemma poolStart_once (pdfFiles : list jsstring) (maxConcurrent : nat) (fs : FileSystem) :
  renamedOnce pdfFiles (poolStart maxConcurrent fs pdfFiles).
Proof.
  unfold poolStart, renamedOnce.
  pose proof (refill_once maxConcurrent pdfFiles []) as Hre.
  pose proof (refill_spec maxConcurrent pdfFiles []) as Hspec.
  destruct (refill maxConcurrent pdfFiles []) as [[q a] evs].
  destruct Hspec as (_ & _ & _ & _ & _ & _ & Hnone).
  cbn [queue active log]. rewrite Hnone. exact Hre.
Qed.

Lemma filter_fst_fmap (f : jsstring -> bool) (calls : list (jsstring * jsstring)) :
  fst <$> List.filter (fun call => f call.1) calls = List.filter f (calls.*1).
Proof.
  induction calls as [|call calls IH]; [reflexivity|].
  cbn [List.filter fmap list_fmap]. destruct (f call.1); cbn [fmap list_fmap];
    [f_equal|]; exact IH.
Qed.

Lemma filter_submseteq (f : jsstring -> bool) (l k : list jsstring) :
  l ⊆+ k -> List.filter f l ⊆+ List.filter f k.
Proof.
  induction 1 as [|x l k _ IH|x y l|x l k _ IH|l k m _ IH1 _ IH2]; cbn [List.filter].
  - reflexivity.
  - destruct (f x); [apply submseteq_skip|]; exact IH.
  - destruct (f x), (f y); try reflexivity. apply submseteq_swap.
  - destruct (f x); [apply submseteq_cons|]; exact IH.
  - etransitivity; eassumption.
Qed.

(** X6.  However the awaited calls settle and whatever the concurrency,
    every rename [processFiles] asks for is of a listed file, to a name
    [generateNewFilename] made that is not the file's own, joined to the
    file's directory; and no file is renamed more often than it is
    listed: the renamed files, taken in the order of the calls, are a
    sub-multiset of the list, so that a file listed once is renamed at
    most once and there are at most as many renames as files. *)
Theorem processFiles_renames (maxConcurrent : nat) (fs : FileSystem)
    (pdfFiles : list jsstring) (schedule : list nat) :
  let calls := renameCalls (log (processFiles maxConcurrent fs pdfFiles schedule)) in
  Forall (plannedRename pdfFiles) calls
  /\ calls.*1 ⊆+ pdfFiles
  /\ (forall filePath,
        length (List.filter (fun call => JS.eqb call.1 filePath) calls)
        <= length (List.filter (fun listed => JS.eqb listed filePath) pdfFiles))
  /\ length calls <= length pdfFiles.
Proof.
  cbv zeta. rewrite processFiles_poolAfter. unfold poolAfter.
  destruct (schedule_planned pdfFiles maxConcurrent
              (schedule ++ replicate (3 * length pdfFiles) 0) _
              (poolStart_planned pdfFiles maxConcurrent fs)) as (_ & _ & Hlog & _).
  pose proof (schedule_once pdfFiles maxConcurrent
                (schedule ++ replicate (3 * length pdfFiles) 0) _
                (poolStart_once pdfFiles maxConcurrent fs)) as Honce.
  unfold renamedOnce in Honce.
  set (p := fold_left (poolStep maxConcurrent)
              (schedule ++ replicate (3 * length pdfFiles) 0)
              (poolStart maxConcurrent fs pdfFiles)) in *.
  assert (Hsub : (renameCalls (log p)).*1 ⊆+ pdfFiles).
  { etransitivity; [|exact Honce]. apply submseteq_inserts_r. reflexivity. }
  split; [exact Hlog|]. split; [exact Hsub|]. split.
  - intros filePath.
    rewrite <- (length_fmap fst
                  (List.filter (fun call => JS.eqb call.1 filePath) (renameCalls (log p)))).
    pose proof (filter_fst_fmap (fun listed => JS.eqb listed filePath)
                  (renameCalls (log p))) as Hfst.
    cbv beta in Hfst. rewrite Hfst.
    apply submseteq_length, filter_submseteq, Hsub.
  - rewrite <- (length_fmap fst (renameCalls (log p))).
    apply submseteq_length, Hsub.
Qed.

(* ================================================================== *)
(** * What a batch can do to the file system *)
(* ================================================================== *)

(** Moving a file, even onto another, adds no file. *)
Lemma move_adds_no_file (m : gmap jsstring File) src dst f :
  m !! src = Some f ->
  (map_to_list (<[dst := f]> (delete src m))).*2 ⊆+ (map_to_list m).*2.
Proof.
  intros Hsrc. rewrite <- (map_to_list_delete m src f Hsrc).
  set (m1 := delete src m). cbn [fmap list_fmap snd].
  destruct (m1 !! dst) as [g|] eqn:Hdst.
  - rewrite <- (insert_delete_eq m1 dst f).
    rewrite map_to_list_insert by apply lookup_delete_eq.
    rewrite <- (map_to_list_delete m1 dst g Hdst).
    cbn [fmap list_fmap snd]. apply submseteq_skip, submseteq_cons. reflexivity.
  - rewrite map_to_list_insert by exact Hdst. reflexivity.
Qed.

Lemma filesAmong_refl fs : filesAmong fs fs.
Proof. split; reflexivity. Qed.

Lemma filesAmong_trans fs0 fs1 fs2 :
  filesAmong fs0 fs1 -> filesAmong fs1 fs2 -> filesAmong fs0 fs2.
Proof.
  intros [H1 D1] [H2 D2]. split; [etransitivity; eassumption | congruence].
Qed.

Lemma stepTask_among fs t : filesAmong fs (stepTask fs t).1.1.
Proof.
  destruct t as [filePath fm|filePath filename newFilename newPath
                 |filePath filename newFilename newPath|filePath o]; cbn [stepTask].
  - destruct (resolveMetadata fs filePath fm). apply filesAmong_refl.
  - destruct (pathExists fs newPath && negb (JS.eqb newPath filePath));
      apply filesAmong_refl.
  - destruct (rename fs filePath newPath) as [fs'|] eqn:Hren; [|apply filesAmong_refl].
    destruct (rename_Some _ _ _ _ Hren) as (f & Hf & -> & _).
    split; [apply move_adds_no_file, Hf | reflexivity].
  - apply filesAmong_refl.
Qed.

Lemma poolStep_among maxConcurrent p k :
  filesAmong (poolFs p) (poolFs (poolStep maxConcurrent p k)).
Proof.
  unfold poolStep. destruct (active p !! k) as [t|]; [|apply filesAmong_refl].
  pose proof (stepTask_among (poolFs p) t) as H.
  destruct (stepTask (poolFs p) t) as [[fs' t'] evs]. cbn [fst] in H.
  destruct t'; try exact H.
  destruct (refill maxConcurrent (queue p) (delete k (active p))) as [[q a] evs'].
  exact H.
Qed.

Lemma schedule_among maxConcurrent schedule : forall p,
  filesAmong (poolFs p) (poolFs (fold_left (poolStep maxConcurrent) schedule p)).
Proof.
  induction schedule as [|k schedule IH]; intros p; cbn [fold_left];
    [apply filesAmong_refl|].
  eapply filesAmong_trans; [apply poolStep_among | apply IH].
Qed.

(** X7.  Whatever the concurrency and the order in which the awaited
    calls settle, the files at the end of [processFiles] are among the
    files at its start, each at most as often, and the directories are
    the same: the batch creates, copies and alters nothing; all it can
    lose is a file overwritten by a rename. *)
Theorem processFiles_adds_no_file (maxConcurrent : nat) (fs : FileSystem)
    (pdfFiles : list jsstring) (schedule : list nat) :
  filesAmong fs (poolFs (processFiles maxConcurrent fs pdfFiles schedule)).
Proof.
  rewrite processFiles_poolAfter. unfold poolAfter.
  assert (Hstart : poolFs (poolStart maxConcurrent fs pdfFiles) = fs).
  { unfold poolStart. destruct (refill maxConcurrent pdfFiles []) as [[q a] evs].
    reflexivity. }
  rewrite <- Hstart at 1. apply schedule_among.
Qed.

(* ================================================================== *)
(** * A whole run *)
(* ================================================================== *)



(* ================================================================== *)
(** * The directory walk *)
(* ================================================================== *)

Lemma visitItems_entries fs currentDir items :
  readdir fs currentDir = Some items ->
  forall todo stack pdfFiles stack' pdfFiles',
    todo ⊆ items ->
    Forall (pdfEntry fs) pdfFiles ->
    fold_left (visitItem currentDir) todo (stack, pdfFiles) = (stack', pdfFiles') ->
    Forall (pdfEntry fs) pdfFiles'.
Proof.
  intros Hdir. induction todo as [|[name isDirectory] todo IH];
    intros stack pdfFiles stack' pdfFiles' Hsub Hacc Hfold; simpl in Hfold.
  - inversion Hfold; subst. exact Hacc.
  - assert (Hin : (name, isDirectory) ∈ items) by (apply Hsub; left).
    assert (Hsub' : todo ⊆ items) by (intros x Hx; apply Hsub; right; exact Hx).
    destruct isDirectory; [eapply IH; eassumption|].
    destruct (JS.eqb (toLowerCase (NodePath.extname name)) (js ".pdf")) eqn:E;
      [|eapply IH; eassumption].
    eapply IH; [exact Hsub' | | exact Hfold].
    apply Forall_app. split; [exact Hacc|]. constructor; [|constructor].
    exists currentDir, name, items. repeat split; try assumption.
    unfold JS.eqb in E. apply bool_decide_eq_true in E. exact E.
Qed.

Lemma walk_entries fs : forall fuel stack acc pdfFiles,
  Forall (pdfEntry fs) acc ->
  walk fuel fs stack acc = WalkDone pdfFiles ->
  Forall (pdfEntry fs) pdfFiles.
Proof.
  induction fuel as [|fuel IH]; intros stack acc pdfFiles Hacc Hwalk.
  - destruct stack; simpl in Hwalk; [inversion Hwalk; subst; exact Hacc | discriminate].
  - destruct stack as [|d stack]; [inversion Hwalk; subst; exact Hacc|].
    cbn [walk] in Hwalk.
    destruct (readdir fs (List.last (d :: stack) [])) as [items|] eqn:Hdir; [|discriminate].
    destruct (fold_left (visitItem (List.last (d :: stack) [])) items
                (removelast (d :: stack), acc)) as [stack' acc'] eqn:Hfold.
    eapply IH; [|exact Hwalk].
    eapply visitItems_entries; [exact Hdir | | exact Hacc | exact Hfold].
    intros x Hx. exact Hx.
Qed.

(** X9.  Every path [getAllPdfFiles] returns is [path.join] of a
    readable directory and the name of one of its non-directory entries,
    with the extension [.pdf] in any letter case: it never returns a
    directory or a file of another type. *)
Theorem getAllPdfFiles_entries (fs : FileSystem) (dir : jsstring) (pdfFiles : list jsstring) :
  getAllPdfFiles fs dir = WalkDone pdfFiles ->
  Forall (pdfEntry fs) pdfFiles.
Proof. apply walk_entries. constructor. Qed.

Lemma walk_witness :
  let fs := mkFS {[js "/lib/My_Book.PDF" := mkFile 1 None;
                   js "/lib/notes.txt" := mkFile 2 None;
                   js "/lib/sub/Other.pdf" := mkFile 3 None]}
                 {[js "/lib"; js "/lib/sub"; js "/lib/x.pdf"]} in
  getAllPdfFiles fs (js "/lib") = WalkDone [js "/lib/My_Book.PDF"; js "/lib/sub/Other.pdf"]
  /\ Forall (pdfEntry fs) [js "/lib/My_Book.PDF"; js "/lib/sub/Other.pdf"].
Proof.
  intros fs.
  assert (H : getAllPdfFiles fs (js "/lib")
              = WalkDone [js "/lib/My_Book.PDF"; js "/lib/sub/Other.pdf"])
    by (vm_compute; reflexivity).
  split; [exact H | exact (getAllPdfFiles_entries fs (js "/lib") _ H)].
Defined.

(* ================================================================== *)
(** * Edit distance: bounds *)
(* ================================================================== *)

Lemma editScript_lengths a b n :
  editScript a b n -> length a <= length b + n /\ length b <= length a + n.
Proof. induction 1; simpl; lia. Qed.

Lemma editScript_longest a : forall b,
  editScript a b (Nat.max (length a) (length b)).
Proof.
  induction a as [|x a IH]; intros b.
  - apply editScript_insert_all.
  - destruct b as [|y b].
    + apply editScript_delete_all.
    + simpl. apply es_subst, IH.
Qed.

(** X10.  The edit distance of two strings is at least the difference of
    their lengths and at most the length of the longer one; against the
    empty string it is the length of the other. *)
Theorem levenshteinDistance_bounds (a b : jsstring) :
  (Z.abs (Z.of_nat (length a) - Z.of_nat (length b)) <= levenshteinDistance a b)%Z
  /\ (levenshteinDistance a b <= Z.max (Z.of_nat (length a)) (Z.of_nat (length b)))%Z
  /\ levenshteinDistance a [] = Z.of_nat (length a)
  /\ levenshteinDistance [] b = Z.of_nat (length b).
Proof.
  rewrite !levenshteinDistance_levRec.
  pose proof (editScript_lengths _ _ _ (levRec_sound (rev a) (rev b))) as [H1 H2].
  pose proof (levRec_least _ _ _ (editScript_longest (rev a) (rev b))) as H3.
  rewrite !length_rev in *.
  repeat split.
  - lia.
  - lia.
  - simpl. rewrite levRec_nil_r, length_rev. reflexivity.
  - simpl. rewrite length_rev. reflexivity.
Qed.

(* ================================================================== *)
(** * Cleaning a text *)
(* ================================================================== *)

(** ** Global replacement of the runs of a character class *)

Section ClassRuns.

Variables (neg : bool) (items : list citem) (by_ : list N).

Let R : RegExp := re (plus (Cls neg items)).
Let inClass (c : N) : bool := cls_match false neg items c.

(** The greedy loop takes the whole run. *)
Lemma repeat_class_greedy : forall fuel min i (t : list N) caps,
  min + length t < fuel ->
  repeatMatcher (matcher false (Cls neg items)) [] fuel min None true (MState i t caps) Success
  = if min <=? span inClass t
    then Success (MState (i + span inClass t) (skipn (span inClass t) t) caps)
    else Failure.
Proof.
  set (ma := matcher false (Cls neg items)).
  assert (Hma : forall x d, ma x d =
    match rest x with
    | b :: _ => if inClass b then d (step1 x) else Failure
    | [] => Failure
    end) by reflexivity.
  clearbody ma.
  induction fuel as [|fuel IH]; intros min i t caps Hfuel; [lia|].
  rewrite repeatMatcher_unfold. cbv zeta.
  change (clearCaptures [] (MState i t caps)) with (MState i t caps).
  rewrite Hma. destruct t as [|b t]; cbn [rest span].
  - destruct min; cbn; [rewrite Nat.add_0_r|]; reflexivity.
  - destruct (inClass b) eqn:E.
    + unfold step1. cbn [endIndex rest captures tl option_map].
      replace (Nat.eqb (S i) i) with false by (symmetry; apply Nat.eqb_neq; lia).
      rewrite andb_false_r. simpl in Hfuel.
      rewrite IH by (destruct min; simpl; lia).
      replace (i + S (span inClass t)) with (S i + span inClass t) by lia.
      destruct min as [|min]; cbn [negb Nat.eqb Nat.pred Nat.leb orElse skipn].
      * reflexivity.
      * destruct (min <=? span inClass t) eqn:E'; reflexivity.
    + destruct min; cbn; [rewrite Nat.add_0_r|]; reflexivity.
Qed.

Lemma matchAt_plus (s : list N) i :
  matchAt R s i =
  match span inClass (skipn i s) with
  | 0 => None
  | S k => Some (mkMatch i (i + S k) [None])
  end.
Proof.
  unfold matchAt. cbn [R re plus pattern ignoreCase matcher groups rest].
  rewrite repeat_class_greedy by lia.
  destruct (span inClass (skipn i s)); reflexivity.
Qed.

Lemma span_0 (t : list N) : span inClass t = 0 -> firstInClass inClass t <> Some 0.
Proof. destruct t as [|c t]; simpl; [discriminate|]. destruct (inClass c); [lia|].
  destruct (firstInClass inClass t); discriminate. Qed.

Lemma execLoop_plus (s : list N) : forall n i,
  i + n = S (length s) ->
  execLoop R s n i =
  (fun k => mkMatch (i + k) (i + k + span inClass (skipn (i + k) s)) [None])
    <$> firstInClass inClass (skipn i s).
Proof.
  induction n as [|n IH]; intros i Hn; simpl.
  - rewrite skipn_all2 by lia. reflexivity.
  - rewrite matchAt_plus, (skipn_lookup s i).
    destruct (s !! i) as [b|] eqn:E; cbn [span firstInClass].
    + destruct (inClass b) eqn:Eb; cbn [fmap option_fmap option_map].
      * rewrite !Nat.add_0_r, (skipn_lookup s i), E. cbn [span]. rewrite Eb. reflexivity.
      * rewrite IH by lia. destruct (firstInClass inClass (skipn (S i) s)) as [k|]; simpl;
          [|reflexivity].
        replace (i + S k) with (S (i + k)) by lia. reflexivity.
    + rewrite IH by lia. apply lookup_ge_None in E.
      rewrite skipn_all2 by lia. reflexivity.
Qed.

Lemma collapseRuns_in_run (t : list N) :
  collapseRuns inClass by_ true t = collapseRuns inClass by_ false (skipn (span inClass t) t).
Proof.
  induction t as [|c t IH]; simpl; [reflexivity|].
  destruct (inClass c) eqn:E; simpl; [exact IH | rewrite E; reflexivity].
Qed.

Lemma collapseRuns_none (t : list N) :
  firstInClass inClass t = None -> collapseRuns inClass by_ false t = t.
Proof.
  induction t as [|c t IH]; simpl; [reflexivity|].
  destruct (inClass c); [discriminate|].
  destruct (firstInClass inClass t); [discriminate|].
  intros _. f_equal. apply IH. reflexivity.
Qed.

Lemma collapseRuns_some (t : list N) : forall k,
  firstInClass inClass t = Some k ->
  k < length t /\ 0 < span inClass (skipn k t)
  /\ k + span inClass (skipn k t) <= length t
  /\ collapseRuns inClass by_ false t =
     firstn k t ++ by_ ++
     collapseRuns inClass by_ false (skipn (k + span inClass (skipn k t)) t).
Proof.
  induction t as [|c t IH]; simpl; intros k H; [discriminate|].
  destruct (inClass c) eqn:E.
  - inversion H; subst. cbn [skipn span firstn app Nat.add]. rewrite E.
    rewrite collapseRuns_in_run. repeat split; try lia.
    clear. induction t as [|c t IH]; simpl; [lia|]. destruct (inClass c); simpl; lia.
  - destruct (firstInClass inClass t) as [k'|]; [|discriminate].
    inversion H; subst. destruct (IH k' eq_refl) as (Hlt & Hpos & Hle & Heq).
    cbn [skipn firstn app Nat.add]. repeat split; try lia.
    rewrite Heq. reflexivity.
Qed.

Lemma replaceLoop_plus (s : list N) : forall fuel i acc,
  i <= length s -> length s - i < fuel ->
  replaceLoop R by_ s fuel i i acc = acc ++ collapseRuns inClass by_ false (skipn i s).
Proof.
  induction fuel as [|fuel IH]; intros i acc Hi Hfuel; [lia|].
  rewrite replaceLoop_unfold. unfold execFrom. rewrite execLoop_plus by lia.
  destruct (firstInClass inClass (skipn i s)) as [k|] eqn:E;
    cbn [fmap option_fmap option_map mend mstart].
  - destruct (collapseRuns_some _ _ E) as (Hk & Hpos & Hle & Heq).
    rewrite length_skipn in Hk, Hle. rewrite skipn_skipn in Hpos, Hle.
    repeat rewrite skipn_skipn in Heq.
    replace (k + i) with (i + k) in * by lia.
    replace (k + span inClass (skipn (i + k) s) + i)
      with (i + k + span inClass (skipn (i + k) s)) in Heq by lia.
    rewrite Heq.
    replace (Nat.eqb (i + k + span inClass (skipn (i + k) s)) (i + k)) with false
      by (symmetry; apply Nat.eqb_neq; lia).
    rewrite IH by lia. unfold substring.
    replace (i + k - i) with k by lia.
    rewrite <- !app_assoc. reflexivity.
  - rewrite collapseRuns_none by exact E. reflexivity.
Qed.

(** [s.replace(/[...]+/g, by)] replaces each maximal run once. *)
Lemma replaceAll_plus (s : list N) :
  replaceAll R by_ s = collapseRuns inClass by_ false s.
Proof.
  unfold replaceAll. rewrite replaceLoop_plus by lia. reflexivity.
Qed.

End ClassRuns.

(** ** [cleanupText] *)

Lemma collapseRuns_ext (f g : N -> bool) by_ (t : list N) :
  (forall c, f c = g c) -> forall b, collapseRuns f by_ b t = collapseRuns g by_ b t.
Proof.
  intros Hfg. induction t as [|c t IH]; intros b; simpl; [reflexivity|].
  rewrite Hfg, !IH. reflexivity.
Qed.

(** The two global replacements of [cleanupText], run by run. *)
Lemma cleanupText_runs (text : list N) :
  cleanupText text =
  trim (collapseRuns isSpace (js " ") false
          (collapseRuns isUnderscoreOrDot (js " ") false text)).
Proof.
  unfold cleanupText. destruct text as [|c text]; [reflexivity|].
  cbn [truthy negb]. unfold ws. rewrite !replaceAll_plus. f_equal.
  apply collapseRuns_ext. intros a. unfold cls_match. simpl.
  rewrite orb_false_r. reflexivity.
Qed.

Lemma collapseRuns_clean (inClass : N -> bool) by_ (t : list N) :
  Forall (fun c => inClass c = false) by_ ->
  forall b, Forall (fun c => inClass c = false) (collapseRuns inClass by_ b t).
Proof.
  intros Hby. induction t as [|c t IH]; intros b; simpl; [constructor|].
  destruct (inClass c) eqn:E.
  - apply Forall_app. split; [destruct b; [constructor | exact Hby] | apply IH].
  - constructor; [exact E | apply IH].
Qed.

Lemma collapseRuns_preserves (P : N -> Prop) (inClass : N -> bool) by_ (t : list N) :
  Forall P by_ -> Forall P t -> forall b, Forall P (collapseRuns inClass by_ b t).
Proof.
  intros Hby. induction 1 as [|c t Hc Ht IH]; intros b; simpl; [constructor|].
  destruct (inClass c).
  - apply Forall_app. split; [destruct b; [constructor | exact Hby] | apply IH].
  - constructor; [exact Hc | apply IH].
Qed.

Lemma collapseRuns_fixed (inClass : N -> bool) by_ (t : list N) :
  Forall (fun c => inClass c = false) t ->
  forall b, collapseRuns inClass by_ b t = t.
Proof.
  induction 1 as [|c t Hc Ht IH]; intros b; simpl; [reflexivity|].
  rewrite Hc, IH. reflexivity.
Qed.

Lemma collapseRuns_content (inClass : N -> bool) by_ (t : list N) :
  (forall c, inClass c = true -> isContent c = false) ->
  List.filter isContent by_ = [] ->
  forall b, List.filter isContent (collapseRuns inClass by_ b t) = List.filter isContent t.
Proof.
  intros Hclass Hby. induction t as [|c t IH]; intros b; simpl; [reflexivity|].
  destruct (inClass c) eqn:E.
  - rewrite List.filter_app, IH, (Hclass c E).
    destruct b; [reflexivity | rewrite Hby; reflexivity].
  - simpl. rewrite IH. reflexivity.
Qed.

Lemma collapseRuns_spaced (t : list N) : forall b,
  spaced b (collapseRuns isSpace (js " ") b t) = true.
Proof.
  induction t as [|c t IH]; intros b; simpl; [reflexivity|].
  destruct (isSpace c) eqn:E.
  - destruct b; simpl; [apply IH|]. apply (IH true).
  - simpl. rewrite E. apply IH.
Qed.

Lemma collapseRuns_spaced_fixed (t : list N) : forall b,
  spaced b t = true -> collapseRuns isSpace (js " ") b t = t.
Proof.
  induction t as [|c t IH]; intros b H; simpl in *; [reflexivity|].
  destruct (isSpace c) eqn:E.
  - apply andb_true_iff in H as [H Ht]. apply andb_true_iff in H as [Hc Hb].
    apply N.eqb_eq in Hc. apply negb_true_iff in Hb. subst b c.
    simpl. rewrite IH by exact Ht. reflexivity.
  - rewrite IH by exact H. reflexivity.
Qed.

Lemma dropSpaces_split (s : list N) :
  exists p, s = p ++ dropSpaces s /\ Forall (fun c => isSpace c = true) p.
Proof.
  induction s as [|c s (p & Hs & Hp)]; simpl.
  - exists []. split; [reflexivity | constructor].
  - destruct (isSpace c) eqn:E.
    + exists (c :: p). split; [simpl; f_equal; exact Hs | constructor; assumption].
    + exists []. split; [reflexivity | constructor].
Qed.

Lemma dropSpaces_head (s : list N) c v : dropSpaces s = c :: v -> isSpace c = false.
Proof.
  induction s as [|a s IH]; simpl; [discriminate|].
  destruct (isSpace a) eqn:E; [exact IH|]. intros H. inversion H; subst. exact E.
Qed.

Lemma dropSpaces_fixed (s : list N) :
  (forall c v, s = c :: v -> isSpace c = false) -> dropSpaces s = s.
Proof.
  destruct s as [|c s]; simpl; [reflexivity|]. intros H.
  rewrite (H c s eq_refl). reflexivity.
Qed.

Lemma dropSpaces_spaced (s : list N) : forall b b',
  spaced b s = true -> spaced b' (dropSpaces s) = true.
Proof.
  induction s as [|c s IH]; intros b b' H; simpl in *; [reflexivity|].
  destruct (isSpace c) eqn:E.
  - apply andb_true_iff in H as [_ H]. apply (IH true), H.
  - simpl. rewrite E. exact H.
Qed.

Lemma spaced_prefix (u v : list N) : forall b,
  spaced b (u ++ v) = true -> spaced b u = true.
Proof.
  induction u as [|c u IH]; intros b H; simpl in *; [reflexivity|].
  destruct (isSpace c).
  - apply andb_true_iff in H as [H Hu]. rewrite H. apply IH, Hu.
  - apply IH, H.
Qed.

(** What [trim] returns, given a text whose white space is single
    spaces. *)
Lemma trim_spaced (s : list N) b :
  spaced b s = true ->
  spaced true (trim s) = true /\ dropSpaces (rev (trim s)) = rev (trim s).
Proof.
  intros H. unfold trim, trimEnd, trimStart.
  pose proof (dropSpaces_spaced s b true H) as Hd.
  destruct (dropSpaces_split (rev (dropSpaces s))) as (p & Hp & _).
  set (e := dropSpaces (rev (dropSpaces s))) in *.
  assert (Hrev : dropSpaces s = rev e ++ rev p).
  { rewrite <- rev_app_distr, <- Hp, rev_involutive. reflexivity. }
  split.
  - rewrite Hrev in Hd. apply spaced_prefix in Hd. exact Hd.
  - rewrite rev_involutive. apply dropSpaces_fixed. intros c v He.
    apply (dropSpaces_head (rev (dropSpaces s)) c v). exact He.
Qed.

Lemma trim_fixed (t : list N) :
  spaced true t = true -> dropSpaces (rev t) = rev t -> trim t = t.
Proof.
  intros Hs Hr. unfold trim, trimEnd, trimStart.
  rewrite (dropSpaces_fixed t).
  - rewrite Hr. apply rev_involutive.
  - intros c v ->. simpl in Hs. destruct (isSpace c); [|reflexivity].
    rewrite andb_false_r in Hs. discriminate.
Qed.

Lemma dropSpaces_content (s : list N) :
  List.filter isContent (dropSpaces s) = List.filter isContent s.
Proof.
  induction s as [|c s IH]; simpl; [reflexivity|].
  destruct (isSpace c) eqn:E; [|reflexivity].
  unfold isContent at 2. rewrite E, andb_false_r. exact IH.
Qed.

Lemma filter_rev_bool (f : N -> bool) (s : list N) :
  List.filter f (rev s) = rev (List.filter f s).
Proof.
  induction s as [|c s IH]; simpl; [reflexivity|].
  rewrite List.filter_app, IH. simpl. destruct (f c); simpl;
    [reflexivity | apply app_nil_r].
Qed.

Lemma trim_content (s : list N) :
  List.filter isContent (trim s) = List.filter isContent s.
Proof.
  unfold trim, trimEnd, trimStart.
  rewrite filter_rev_bool, dropSpaces_content, filter_rev_bool, rev_involutive.
  apply dropSpaces_content.
Qed.

(** The shape of every text [cleanupText] returns. *)
Lemma cleanupText_shape (text : list N) :
  Forall (fun c => isUnderscoreOrDot c = false) (cleanupText text)
  /\ spaced true (cleanupText text) = true
  /\ dropSpaces (rev (cleanupText text)) = rev (cleanupText text).
Proof.
  rewrite cleanupText_runs.
  set (s1 := collapseRuns isUnderscoreOrDot (js " ") false text).
  split.
  - apply trim_preserves, collapseRuns_preserves; [repeat constructor|].
    apply collapseRuns_clean. repeat constructor.
  - apply (trim_spaced _ false), collapseRuns_spaced.
Qed.

(** What [spaced] says of the characters, and of the two ends of a
    trimmed text. *)
Lemma spaced_chars (s : list N) : forall b,
  spaced b s = true ->
  Forall (fun c => isSpace c = true -> c = ch " ") s
  /\ forall u v, s <> u ++ ch " " :: ch " " :: v.
Proof.
  induction s as [|c s IH]; intros b H; simpl in H.
  - split; [constructor | intros [|? ?] ?; discriminate].
  - destruct (isSpace c) eqn:E.
    + apply andb_true_iff in H as [H Hs]. apply andb_true_iff in H as [Hc _].
      apply N.eqb_eq in Hc. subst c. destruct (IH _ Hs) as [Hall Hadj].
      split; [constructor; [reflexivity | exact Hall]|].
      intros [|a u] v Heq; simpl in Heq; inversion Heq; subst.
      * simpl in Hs. discriminate.
      * eapply Hadj. reflexivity.
    + destruct (IH _ H) as [Hall Hadj].
      split; [constructor; [congruence | exact Hall]|].
      intros [|a u] v Heq; simpl in Heq; inversion Heq; subst.
      * discriminate.
      * eapply Hadj. reflexivity.
Qed.

Lemma trimmed_ends (t : list N) :
  spaced true t = true -> dropSpaces (rev t) = rev t ->
  (forall c v, t = c :: v -> isSpace c = false)
  /\ (forall u c, t = u ++ [c] -> isSpace c = false).
Proof.
  intros Hsp Hrev. split.
  - intros c v Ht. rewrite Ht in Hsp. simpl in Hsp. destruct (isSpace c); [|reflexivity].
    rewrite andb_false_r in Hsp. discriminate.
  - intros u c Ht. rewrite Ht, rev_app_distr in Hrev. simpl in Hrev.
    destruct (isSpace c) eqn:E; [|reflexivity].
    destruct (dropSpaces_split (rev u)) as (p & Hp & _).
    apply (f_equal length) in Hp, Hrev. rewrite length_app in Hp. simpl in Hrev. lia.
Qed.

(** X11.  Whatever the text, the cleaned text holds no underscore and no
    dot, its white space is single U+0020 characters that are neither
    first nor last, and the characters other than underscore, dot and
    white space are those of the text, in the same order. *)
Theorem cleanupText_tidy (text : jsstring) :
  let t := cleanupText text in
  Forall (fun c => c <> ch "_" /\ c <> ch ".") t
  /\ Forall (fun c => isSpace c = true -> c = ch " ") t
  /\ (forall u v, t <> u ++ ch " " :: ch " " :: v)
  /\ (forall c v, t = c :: v -> isSpace c = false)
  /\ (forall u c, t = u ++ [c] -> isSpace c = false)
  /\ List.filter isContent t = List.filter isContent text.
Proof.
  intros t. destruct (cleanupText_shape text) as (Hud & Hsp & Hrev). fold t in Hud, Hsp, Hrev.
  destruct (spaced_chars _ _ Hsp) as [Hall Hadj].
  destruct (trimmed_ends _ Hsp Hrev) as [Hfirst Hlast].
  split; [|split; [exact Hall|split; [exact Hadj|split; [exact Hfirst|split; [exact Hlast|]]]]].
  - eapply Forall_impl; [exact Hud|]. intros c Hc. cbv beta in Hc.
    split; intros ->; vm_compute in Hc; discriminate.
  - subst t. rewrite cleanupText_runs, trim_content.
    rewrite !collapseRuns_content; try reflexivity.
    + intros c Hc. unfold isContent. rewrite Hc. reflexivity.
    + intros c Hc. unfold isContent. rewrite Hc. apply andb_false_r.
Qed.

(** X12.  Cleaning a cleaned text changes nothing. *)
Theorem cleanupText_idempotent (text : jsstring) :
  cleanupText (cleanupText text) = cleanupText text.
Proof.
  destruct (cleanupText_shape text) as (Hud & Hsp & Hrev).
  set (t := cleanupText text) in *. clearbody t.
  rewrite cleanupText_runs.
  rewrite (collapseRuns_fixed isUnderscoreOrDot) by exact Hud.
  rewrite collapseRuns_spaced_fixed.
  - apply trim_fixed; assumption.
  - destruct t as [|c t]; [reflexivity|]. simpl in *.
    destruct (isSpace c); [|exact Hsp]. rewrite andb_false_r in Hsp. discriminate.
Qed.

(* ================================================================== *)
(** * Generated names *)
(* ================================================================== *)

Lemma replace_preserves (P : N -> Prop) R by_ (s : list N) :
  Forall P by_ -> Forall P s -> Forall P (replace R by_ s).
Proof.
  intros Hby Hs. unfold replace. destruct (exec R s) as [m|]; [|exact Hs].
  rewrite !Forall_app. repeat split;
    [apply Forall_take, Hs | exact Hby | apply Forall_drop, Hs].
Qed.

Lemma cleanupText_preserves (P : N -> Prop) (s : list N) :
  P (ch " ") -> Forall P s -> Forall P (cleanupText s).
Proof.
  intros Hsp Hs. unfold cleanupText. destruct (negb (truthy s)); [exact Hs|].
  apply trim_preserves, replaceAll_preserves; [repeat constructor; exact Hsp|].
  apply replaceAll_preserves; [repeat constructor; exact Hsp | exact Hs].
Qed.

Lemma digit_valid (c : N) : (48 <= c <= 57)%N -> isInvalidChar c = false.
Proof.
  intros Hc. unfold isInvalidChar, cls_match, invalidChars.
  cbn [existsb item_match item_has xorb].
  repeat (rewrite (proj2 (N.eqb_neq _ c)) by (vm_compute ch; lia)). reflexivity.
Qed.

Lemma digitsOfPos_valid : forall fuel n (acc : list N),
  Forall (fun c => isInvalidChar c = false) acc ->
  Forall (fun c => isInvalidChar c = false) (digitsOfPos fuel n acc).
Proof.
  induction fuel as [|fuel IH]; intros n acc Hacc; simpl; [exact Hacc|].
  assert (Hd : isInvalidChar (48 + n mod 10) = false).
  { apply digit_valid. assert (H : (n mod 10 < 10)%N) by (apply N.mod_lt; lia).
    revert H. generalize (n mod 10)%N. intros m Hm. lia. }
  destruct (n <? 10)%N; [|apply IH]; constructor; assumption.
Qed.

Lemma yearSuffix_valid y : Forall (fun c => isInvalidChar c = false) (yearSuffix y).
Proof.
  unfold yearSuffix. destruct y as [z|]; [|constructor].
  destruct (truthyNum (Some z)); [|constructor].
  rewrite !Forall_app. repeat split; try (repeat constructor).
  unfold numberToString.
  destruct (z <? 0)%Z; [constructor; [reflexivity|]|]; apply digitsOfPos_valid; constructor.
Qed.

(** Where a generated name comes from: a stem free of the nine
    characters when the title is, and the extension. *)
Lemma generateNewFilename_stem (metadata : Metadata) (T newFilename : jsstring) :
  title metadata = Some T ->
  Forall (fun c => isInvalidChar c = false) T ->
  generateNewFilename metadata = Some newFilename ->
  exists stem, newFilename = stem ++ js ".pdf"
               /\ Forall (fun c => isInvalidChar c = false) stem.
Proof.
  intros HT Hclean Hgen. unfold generateNewFilename in Hgen. rewrite HT in Hgen.
  change (default [] (Some T)) with T in Hgen.
  destruct (negb (truthyStr (Some T))); [discriminate|].
  set (title_ := replace leadingDash [] (replace trailingDash [] (cleanupText T))) in Hgen.
  assert (Htitle : Forall (fun c => isInvalidChar c = false) title_).
  { repeat apply replace_preserves; try constructor.
    apply cleanupText_preserves; [reflexivity | exact Hclean]. }
  clearbody title_. destruct (negb (truthy title_)); [discriminate|].
  cbv zeta in Hgen.
  match type of Hgen with
  | Some ((if looksSuspicious (sanitize ?n) then _ else _) ++ _) = _ =>
    revert Hgen; generalize n; intros name Hgen
  end.
  inversion Hgen; subst; clear Hgen. eexists. split; [reflexivity|].
  destruct (looksSuspicious (sanitize name)).
  - apply Forall_app. split; [exact Htitle | apply yearSuffix_valid].
  - apply sanitize_clean.
Qed.

(** X13.  When the title holds none of the nine characters the sanitising
    class names, neither does the generated file name, on the main path
    and on the fallback alike; and the name ends in [.pdf]. *)
Theorem generateNewFilename_clean (metadata : Metadata) (T newFilename : jsstring) :
  title metadata = Some T ->
  Forall (fun c => isInvalidChar c = false) T ->
  generateNewFilename metadata = Some newFilename ->
  Forall (fun c => isInvalidChar c = false) newFilename
  /\ exists stem, newFilename = stem ++ js ".pdf".
Proof.
  intros HT Hclean Hgen.
  destruct (generateNewFilename_stem metadata T newFilename HT Hclean Hgen)
    as (stem & -> & Hstem).
  split; [|exists stem; reflexivity].
  apply Forall_app. split; [exact Hstem|]. repeat constructor.
Qed.

Lemma clean_title_witness :
  Forall (fun c => isInvalidChar c = false)
         (js "Programming Basics - John R., Smith [2019].pdf")
  /\ exists stem, js "Programming Basics - John R., Smith [2019].pdf" = stem ++ js ".pdf".
Proof.
  apply (generateNewFilename_clean
           (mkMetadata (Some (js "Programming Basics")) (Some (js "John R Smith"))
                       (Some 2019%Z))
           (js "Programming Basics")).
  - reflexivity.
  - vm_compute. repeat constructor.
  - vm_compute. reflexivity.
Defined.

(** X14.  Whatever the name, the sanitising step returns a text with
    none of the nine characters, whose white space is single U+0020
    characters that are neither first nor last. *)
Theorem sanitize_tidy (newName : jsstring) :
  let t := sanitize newName in
  Forall (fun c => isInvalidChar c = false) t
  /\ Forall (fun c => isSpace c = true -> c = ch " ") t
  /\ (forall u v, t <> u ++ ch " " :: ch " " :: v)
  /\ (forall c v, t = c :: v -> isSpace c = false)
  /\ (forall u c, t = u ++ [c] -> isSpace c = false).
Proof.
  intros t. split; [apply sanitize_clean|].
  assert (Hshape : spaced true t = true /\ dropSpaces (rev t) = rev t).
  { unfold t, sanitize, ws. rewrite replaceAll_plus.
    apply (trim_spaced _ false).
    erewrite collapseRuns_ext; [apply collapseRuns_spaced|].
    intros a. unfold cls_match. simpl. rewrite orb_false_r. reflexivity. }
  destruct Hshape as [Hsp Hrev].
  destruct (spaced_chars _ _ Hsp) as [Hall Hadj].
  destruct (trimmed_ends _ Hsp Hrev) as [Hfirst Hlast].
  auto.
Qed.

(* ================================================================== *)
(** * Paths: a plain name stays in its directory *)
(* ================================================================== *)

Section Paths.

Import NodePath.

Let noSlash (s : list N) : Prop := Forall (fun c => isSlash c = false) s.

Lemma isSlash_slash : isSlash slash = true.
Proof. reflexivity. Qed.

Lemma takeSegment_app (s t : list N) :
  noSlash s -> takeSegment (s ++ slash :: t) = s /\ dropSegment (s ++ slash :: t) = slash :: t.
Proof.
  induction 1 as [|c s Hc Hs [IH1 IH2]]; simpl.
  - split; reflexivity.
  - rewrite Hc, IH1, IH2. split; reflexivity.
Qed.

Lemma takeSegment_plain (s : list N) :
  noSlash s -> takeSegment s = s /\ dropSegment s = [].
Proof.
  induction 1 as [|c s Hc Hs [IH1 IH2]]; simpl.
  - split; reflexivity.
  - rewrite Hc, IH1, IH2. split; reflexivity.
Qed.

Lemma dropSlashes_plain (s : list N) :
  s <> [] -> noSlash s -> forall t, dropSlashes (s ++ t) = s ++ t.
Proof.
  intros Hne Hs t. destruct s as [|c s]; [congruence|].
  inversion Hs; subst. simpl. rewrite H1. reflexivity.
Qed.

Lemma join_cons (x : list N) (l : list jsstring) :
  l <> [] -> join [slash] (x :: l) = x ++ slash :: join [slash] l.
Proof. destruct l; [congruence | reflexivity]. Qed.

Lemma join_snoc (l : list jsstring) (x : list N) :
  l <> [] -> join [slash] (l ++ [x]) = join [slash] l ++ slash :: x.
Proof.
  induction l as [|y l IH]; [congruence|]. intros _.
  destruct l as [|z l]; [reflexivity|].
  specialize (IH ltac:(congruence)).
  change (join [slash] ((y :: z :: l) ++ [x]))
    with (y ++ slash :: join [slash] ((z :: l) ++ [x])).
  rewrite IH.
  change (join [slash] (y :: z :: l)) with (y ++ slash :: join [slash] (z :: l)).
  rewrite <- app_assoc. reflexivity.
Qed.

(** The segments of a joined path are the parts joined. *)
Lemma segments_join : forall (l : list jsstring) fuel,
  l <> [] -> Forall noSlash l -> length l <= fuel ->
  segments fuel (join [slash] l) = l.
Proof.
  induction l as [|x l IH]; intros fuel Hne Hall Hfuel; [congruence|].
  inversion Hall as [|? ? Hx Hl]; subst.
  destruct fuel as [|fuel]; [simpl in Hfuel; lia|].
  destruct l as [|y l].
  - simpl. destruct (takeSegment_plain x Hx) as [-> ->]. reflexivity.
  - rewrite join_cons by congruence. cbn [segments].
    destruct (takeSegment_app x (join [slash] (y :: l)) Hx) as [-> ->].
    rewrite IH; [reflexivity | congruence | exact Hl | simpl in *; lia].
Qed.

Lemma length_join (l : list jsstring) : length l <= S (length (join [slash] l)).
Proof.
  induction l as [|x l IH]; [simpl; lia|].
  destruct l as [|y l]; [simpl; lia|].
  rewrite join_cons by congruence. rewrite length_app. simpl in *. lia.
Qed.

(** Normalisation drops the empty segments and keeps the plain ones. *)
Lemma normalizeSegments_plain b : forall (l stack : list jsstring),
  Forall (fun s => s = [] \/ plainSegment s) l ->
  normalizeSegments b l stack
  = rev stack ++ List.filter (fun s => negb (JS.eqb s [])) l.
Proof.
  induction l as [|s l IH]; intros stack Hall; simpl.
  - rewrite app_nil_r. reflexivity.
  - inversion Hall as [|? ? Hs Hl]; subst. destruct Hs as [->|(Hne & _ & Hdot & Hdots)].
    + cbn. apply IH, Hl.
    + unfold JS.eqb. rewrite !bool_decide_eq_false_2 by assumption. cbn [orb negb].
      rewrite IH by exact Hl. simpl. rewrite <- app_assoc. reflexivity.
Qed.

Lemma plain_noSlash s : s = [] \/ plainSegment s -> noSlash s.
Proof. intros [->|(_ & H & _)]; [constructor | exact H]. Qed.

Lemma last_app_plain (p x : list N) :
  x <> [] -> noSlash x -> isSlash (List.last (p ++ x) 0%N) = false.
Proof.
  intros Hne Hx. destruct (exists_last Hne) as (x' & c & ->).
  rewrite app_assoc, last_last.
  apply Forall_app in Hx as [_ Hc]. inversion Hc; assumption.
Qed.

(** An absolute path whose last segment is plain, normalised. *)
Lemma normalize_absolute (l : list jsstring) (x : list N) :
  Forall (fun s => s = [] \/ plainSegment s) l -> plainSegment x ->
  normalize (slash :: join [slash] (l ++ [x]))
  = absolutePath (List.filter (fun s => negb (JS.eqb s [])) l ++ [x]).
Proof.
  intros Hl Hx. unfold normalize. cbn [isSlash_slash].
  change (isSlash slash) with true. cbn [negb].
  assert (Hall : Forall (fun s => s = [] \/ plainSegment s) ([] :: l ++ [x])).
  { constructor; [left; reflexivity|]. apply Forall_app. split; [exact Hl|].
    constructor; [right; exact Hx | constructor]. }
  assert (Hsegs : segments (S (length (slash :: join [slash] (l ++ [x]))))
                    (slash :: join [slash] (l ++ [x])) = [] :: l ++ [x]).
  { change (slash :: join [slash] (l ++ [x])) with ([] ++ slash :: join [slash] (l ++ [x])).
    rewrite <- (join_cons [] (l ++ [x])) by (destruct l; simpl; congruence).
    apply segments_join; [congruence | |].
    - eapply Forall_impl; [exact Hall|]. intros s. apply plain_noSlash.
    - pose proof (length_join ([] :: l ++ [x])). lia. }
  destruct Hx as (Hne & Hns & Hd & Hdd).
  set (kept := List.filter (fun s => negb (JS.eqb s [])) l).
  assert (Hfilter : List.filter (fun s => negb (JS.eqb s [])) ([] :: l ++ [x]) = kept ++ [x]).
  { cbn [List.filter]. change (JS.eqb [] []) with true. cbn [negb].
    rewrite List.filter_app. cbn [List.filter].
    replace (JS.eqb x []) with false
      by (symmetry; apply bool_decide_eq_false_2; exact Hne).
    reflexivity. }
  rewrite Hsegs, normalizeSegments_plain by exact Hall.
  rewrite Hfilter. cbn [rev app].
  assert (Hres : join [slash] (kept ++ [x]) <> []).
  { destruct kept as [|y kept']; [exact Hne|].
    rewrite join_snoc by congruence. intros H. apply app_eq_nil in H as [_ H]. discriminate. }
  assert (Hlast : isSlash (List.last (slash :: join [slash] (l ++ [x])) 0%N) = false).
  { assert (Hshape : exists p, slash :: join [slash] (l ++ [x]) = p ++ x).
    { destruct l as [|y l']; [exists [slash]; reflexivity|].
      exists (slash :: join [slash] (y :: l') ++ [slash]).
      rewrite join_snoc by congruence. cbn [app]. rewrite <- app_assoc. reflexivity. }
    destruct Hshape as [p Hp]. rewrite Hp. apply last_app_plain; assumption. }
  rewrite Hlast.
  unfold absolutePath.
  destruct (join [slash] (kept ++ [x])) eqn:E; [congruence|]. reflexivity.
Qed.

(** Joining a plain name to an absolute directory in normal form. *)
Lemma join2_absolute (segs : list jsstring) (x : list N) :
  Forall plainSegment segs -> plainSegment x ->
  join2 (absolutePath segs) x = absolutePath (segs ++ [x]).
Proof.
  intros Hsegs Hx. unfold join2, absolutePath.
  destruct x as [|c x'] eqn:Ex; [destruct Hx as [H _]; congruence|]. rewrite <- Ex in *.
  assert (Hkeep : forall l : list jsstring, Forall plainSegment l ->
            List.filter (fun s => negb (JS.eqb s [])) l = l).
  { induction 1 as [|s l (Hs & _) _ IH]; simpl; [reflexivity|].
    unfold JS.eqb at 1. rewrite bool_decide_eq_false_2 by exact Hs. simpl. rewrite IH.
    reflexivity. }
  replace (c :: x') with x by exact Ex.
  destruct segs as [|y segs'].
  - change ((slash :: join [slash] []) ++ [slash] ++ x)
      with (slash :: join [slash] ([[]] ++ [x])).
    rewrite normalize_absolute; [reflexivity | | exact Hx].
    constructor; [left; reflexivity | constructor].
  - replace ((slash :: join [slash] (y :: segs')) ++ [slash] ++ x)
      with (slash :: join [slash] ((y :: segs') ++ [x]))
      by (rewrite join_snoc by congruence; reflexivity).
    rewrite normalize_absolute; [| |exact Hx].
    + rewrite Hkeep by exact Hsegs. reflexivity.
    + eapply Forall_impl; [exact Hsegs|]. intros s Hs. right. exact Hs.
Qed.

Lemma join_plain_nonempty (segs : list jsstring) :
  segs <> [] -> Forall plainSegment segs -> join [slash] segs <> [].
Proof.
  intros Hne Hall. destruct segs as [|y segs]; [congruence|].
  inversion Hall as [|? ? (Hy & _) _]; subst.
  destruct segs; [exact Hy|]. rewrite join_cons by congruence.
  destruct y; [congruence | discriminate].
Qed.

(** The directory of an absolute path in normal form is the path of the
    segments before the last. *)
Lemma dirname_absolute (segs : list jsstring) (x : list N) :
  Forall plainSegment segs -> plainSegment x ->
  dirname (absolutePath (segs ++ [x])) = absolutePath segs.
Proof.
  intros Hsegs (Hne & Hns & _). unfold dirname, absolutePath.
  change (isSlash slash) with true. cbn [andb].
  assert (Hrev : noSlash (rev x)) by (apply Forall_rev; exact Hns).
  assert (Hrevne : rev x <> []).
  { intros H. apply (f_equal (@rev N)) in H. rewrite rev_involutive in H. exact (Hne H). }
  destruct segs as [|y segs'].
  - cbn [app join]. rewrite <- (app_nil_r (rev x)).
    rewrite dropSlashes_plain by assumption. rewrite app_nil_r.
    destruct (takeSegment_plain _ Hrev) as [_ ->]. reflexivity.
  - rewrite join_snoc by congruence. rewrite rev_app_distr. cbn [rev].
    rewrite <- app_assoc. cbn [app].
    rewrite dropSlashes_plain by assumption.
    destruct (takeSegment_app (rev x) (rev (join [slash] (y :: segs'))) Hrev) as [_ ->].
    pose proof (join_plain_nonempty (y :: segs') ltac:(congruence) Hsegs) as Hjoin.
    destruct (rev (join [slash] (y :: segs'))) as [|c before] eqn:E.
    + apply (f_equal (@rev N)) in E. rewrite rev_involutive in E. contradiction.
    + cbn [length Nat.eqb]. rewrite <- E, rev_involutive. reflexivity.
Qed.

End Paths.

(** A generated name is a plain path segment when the title is free of
    the nine characters. *)
Lemma generated_plain (metadata : Metadata) (T newFilename : jsstring) :
  title metadata = Some T ->
  Forall (fun c => isInvalidChar c = false) T ->
  generateNewFilename metadata = Some newFilename ->
  plainSegment newFilename.
Proof.
  intros HT Hclean Hgen.
  destruct (generateNewFilename_stem metadata T newFilename HT Hclean Hgen)
    as (stem & -> & Hstem).
  assert (Hlen : 4 <= length (stem ++ js ".pdf"))
    by (rewrite length_app; simpl; lia).
  split; [intros H; rewrite H in Hlen; simpl in Hlen; lia|].
  split; [|split; intros H; rewrite H in Hlen; simpl in Hlen; lia].
  apply Forall_app. split; [|repeat constructor].
  eapply Forall_impl; [exact Hstem|]. intros c Hc.
  destruct (NodePath.isSlash c) eqn:E; [|reflexivity].
  apply N.eqb_eq in E. subst c. discriminate Hc.
Qed.

(** Where a finished call moved its file. *)
Lemma renameIfNew_target fs filePath metadata evs newPath :
  (renameIfNew fs filePath metadata evs).1.2 = Finished filePath (Renamed newPath) ->
  exists newFilename,
    generateNewFilename metadata = Some newFilename
    /\ newPath = NodePath.join2 (NodePath.dirname filePath) newFilename.
Proof.
  unfold renameIfNew. cbv zeta.
  destruct (negb (truthyStr (title metadata))); [discriminate|].
  destruct (generateNewFilename metadata) as [newFilename|]; [|discriminate].
  destruct (JS.eqb newFilename _); [discriminate|].
  destruct (pathExists fs _ && negb (JS.eqb _ filePath)); [discriminate|].
  destruct (rename fs filePath _); [|discriminate].
  cbn [fst snd]. intros H. inversion H; subst. exists newFilename. auto.
Qed.

(** X15.  A file that lies in an absolute directory in normal form, and
    whose title (from the file name or, failing an author there, merged
    with the embedded metadata) holds none of the nine characters the
    sanitising class names, is renamed within its directory: the
    directory of the new path is the directory of the old one. *)
Theorem rename_stays_in_directory (fs : FileSystem) (filePath : jsstring)
    (segs : list jsstring) (T newPath : jsstring) :
  NodePath.dirname filePath = absolutePath segs ->
  Forall plainSegment segs ->
  title (resolveMetadata fs filePath (parseFilename (NodePath.basename filePath))).1
    = Some T ->
  Forall (fun c => isInvalidChar c = false) T ->
  (processPdfFile fs filePath).1.2 = Finished filePath (Renamed newPath) ->
  NodePath.dirname newPath = NodePath.dirname filePath.
Proof.
  intros Hdir Hsegs HT Hclean. rewrite processPdfFile_direct.
  unfold processPdfFileDirect. cbv zeta.
  generalize dependent (parseFilename (NodePath.basename filePath)). intros fm HT.
  destruct (resolveMetadata fs filePath fm) as [metadata evs]. cbn [fst] in HT.
  intros Hdone. apply renameIfNew_target in Hdone as (newFilename & Hgen & ->).
  pose proof (generated_plain metadata T newFilename HT Hclean Hgen) as Hplain.
  rewrite Hdir, join2_absolute by assumption.
  apply dirname_absolute; assumption.
Qed.

Lemma stays_witness :
  let fs := mkFS {[js "/lib/sub/My_Book.pdf" := mkFile 1 None]} {[js "/lib"; js "/lib/sub"]} in
  (processPdfFile fs (js "/lib/sub/My_Book.pdf")).1.2
    = Finished (js "/lib/sub/My_Book.pdf") (Renamed (js "/lib/sub/My Book.pdf"))
  /\ NodePath.dirname (js "/lib/sub/My Book.pdf") = NodePath.dirname (js "/lib/sub/My_Book.pdf").
Proof.
  intros fs.
  assert (Hrun : (processPdfFile fs (js "/lib/sub/My_Book.pdf")).1.2
                 = Finished (js "/lib/sub/My_Book.pdf") (Renamed (js "/lib/sub/My Book.pdf")))
    by (vm_compute; reflexivity).
  split; [exact Hrun|].
  apply (rename_stays_in_directory fs (js "/lib/sub/My_Book.pdf") [js "lib"; js "sub"]
           (js "My Book")).
  - vm_compute. reflexivity.
  - repeat constructor; try (intro H; discriminate H).
  - vm_compute. reflexivity.
  - vm_compute. repeat constructor.
  - exact Hrun.
Defined.

(** ** Every match of the matcher is a match of the pattern *)

Section MatcherSound.

Variable ic : bool.

Lemma repeatMatcher_sound ma (M : mstate -> mstate -> Prop) gs greedy :
  (forall x d w, ma x d = Success w -> exists y, M x y /\ d y = Success w) ->
  forall fuel min max x c w,
    repeatMatcher ma gs fuel min max greedy x c = Success w ->
    exists y, repeats M gs min max x y /\ c y = Success w.
Proof.
  intros Hma. induction fuel as [|fuel IH]; intros min max x c w H; [discriminate|].
  rewrite repeatMatcher_unfold in H. cbv zeta in H.
  assert (Hstop : min = 0 \/ max = Some 0 -> c x = Success w ->
                  exists y, repeats M gs min max x y /\ c y = Success w).
  { intros Hcond Hc. exists x. split; [constructor; exact Hcond | exact Hc]. }
  assert (Hmore : max <> Some 0 -> forall y,
    M (clearCaptures gs x) y ->
    (if Nat.eqb min 0 && Nat.eqb (endIndex y) (endIndex x) then Failure
     else repeatMatcher ma gs fuel (Nat.pred min) (option_map Nat.pred max) greedy y c)
    = Success w ->
    exists y, repeats M gs min max x y /\ c y = Success w).
  { intros Hmax y Hy Hd.
    destruct (Nat.eqb min 0 && Nat.eqb (endIndex y) (endIndex x)) eqn:E; [discriminate|].
    apply IH in Hd as (z & Hz & Hc). exists z. split; [|exact Hc].
    apply (repeats_more M gs min max x y z Hmax Hy); [|exact Hz].
    intros ->. simpl in E. apply Nat.eqb_neq in E. exact E. }
  assert (Hcases :
    (max = Some 0 /\ c x = Success w)
    \/ (max <> Some 0 /\ min = 0 /\ c x = Success w)
    \/ (max <> Some 0 /\ exists y, M (clearCaptures gs x) y /\
          (if Nat.eqb min 0 && Nat.eqb (endIndex y) (endIndex x) then Failure
           else repeatMatcher ma gs fuel (Nat.pred min) (option_map Nat.pred max) greedy y c)
          = Success w)).
  { destruct (decide (max = Some 0)) as [->|Hmax]; [left; auto|]. right.
    assert (H' :
      (if negb (Nat.eqb min 0)
       then ma (clearCaptures gs x)
              (fun y => if Nat.eqb min 0 && Nat.eqb (endIndex y) (endIndex x) then Failure
                        else repeatMatcher ma gs fuel (Nat.pred min)
                               (option_map Nat.pred max) greedy y c)
       else if greedy
            then orElse (ma (clearCaptures gs x)
                   (fun y => if Nat.eqb min 0 && Nat.eqb (endIndex y) (endIndex x)
                             then Failure
                             else repeatMatcher ma gs fuel (Nat.pred min)
                                    (option_map Nat.pred max) greedy y c))
                   (fun _ => c x)
            else orElse (c x) (fun _ => ma (clearCaptures gs x)
                   (fun y => if Nat.eqb min 0 && Nat.eqb (endIndex y) (endIndex x)
                             then Failure
                             else repeatMatcher ma gs fuel (Nat.pred min)
                                    (option_map Nat.pred max) greedy y c))) = Success w).
    { destruct max as [[|k]|]; [congruence | exact H | exact H]. }
    clear H.
    destruct (Nat.eqb min 0) eqn:Emin; cbn [negb] in H'.
    - apply Nat.eqb_eq in Emin. unfold orElse in H'.
      destruct greedy.
      + match type of H' with match ?a with _ => _ end = _ => destruct a eqn:Ea end;
          [discriminate | left; auto|].
        right. split; [exact Hmax|]. rewrite H' in Ea. apply Hma in Ea. exact Ea.
      + destruct (c x) eqn:Ec; [discriminate| |left; rewrite <- H'; auto].
        right. split; [exact Hmax|]. apply Hma in H'. exact H'.
    - right. split; [exact Hmax|]. apply Hma in H'. exact H'. }
  destruct Hcases as [[Hmax Hc]|[(Hmax & Hmin & Hc)|(Hmax & y & Hy & Hd)]].
  - apply Hstop; [right; exact Hmax | exact Hc].
  - apply Hstop; [left; exact Hmin | exact Hc].
  - apply (Hmore Hmax y Hy Hd).
Qed.

Lemma matcher_sound r : forall x c w,
  matcher ic r x c = Success w -> exists y, matches ic r x y /\ c y = Success w.
Proof.
  induction r as [ | a | | neg items | a IHa b IHb | a IHa b IHb
                   | min max greedy a IHa | n a IHa | n | | ];
    intros x c w H; simpl in H.
  - exists x. split; [reflexivity | exact H].
  - destruct (rest x) as [|b t] eqn:E; [discriminate|].
    destruct (canon ic a =? canon ic b)%N eqn:Eb; [|discriminate].
    exists (step1 x). split; [|exact H]. simpl. exists b, t.
    apply N.eqb_eq in Eb. auto.
  - destruct (rest x) as [|b t] eqn:E; [discriminate|].
    destruct (isLineTerminator b) eqn:Eb; [discriminate|].
    exists (step1 x). split; [|exact H]. simpl. exists b, t. auto.
  - destruct (rest x) as [|b t] eqn:E; [discriminate|].
    destruct (cls_match ic neg items b) eqn:Eb; [|discriminate].
    exists (step1 x). split; [|exact H]. simpl. exists b, t. auto.
  - apply IHa in H as (z & Hz & H). apply IHb in H as (y & Hy & H).
    exists y. split; [|exact H]. simpl. exists z. auto.
  - unfold orElse in H. destruct (matcher ic a x c) eqn:E; [discriminate| |].
    + apply IHb in H as (y & Hy & H). exists y. split; [right; exact Hy | exact H].
    + inversion H; subst. apply IHa in E as (y' & Hy & E).
      exists y'. split; [left; exact Hy | exact E].
  - apply (repeatMatcher_sound _ (matches ic a)) in H; [exact H | exact IHa].
  - apply IHa in H as (z & Hz & H). exists (setCapture n x z). split; [|exact H].
    simpl. exists z. auto.
  - simpl. destruct (captures x !! n) as [[s|]|] eqn:E.
    + destruct (matchPrefix ic s x) as [y|] eqn:Ey; [|discriminate].
      exists y. auto.
    + exists x. auto.
    + exists x. auto.
  - destruct (Nat.eqb (endIndex x) 0) eqn:E; [|discriminate].
    apply Nat.eqb_eq in E. exists x. simpl. auto.
  - destruct (rest x) eqn:E; [|discriminate]. exists x. simpl. auto.
Qed.




Lemma execLoop_matchAt R (s : list N) m : forall n i,
  execLoop R s n i = Some m -> exists j, i <= j < i + n /\ matchAt R s j = Some m.
Proof.
  induction n as [|n IH]; intros i H; simpl in H; [discriminate|].
  destruct (matchAt R s i) as [m'|] eqn:E.
  - inversion H; subst. exists i. split; [lia | exact E].
  - apply IH in H as (j & Hj & H). exists j. split; [lia | exact H].
Qed.

End MatcherSound.

(** A successful [exec] is a match of the pattern at some index. *)
Lemma exec_matches R (s : list N) m :
  exec R s = Some m ->
  exists i y,
    matches (ignoreCase R) (pattern R)
            (MState i (skipn i s) (replicate (S (ngroups (pattern R))) None)) y
    /\ m = mkMatch i (endIndex y) (captures y).
Proof.
  unfold exec, execFrom. intros H. apply execLoop_matchAt in H as (i & _ & H).
  unfold matchAt in H.
  destruct (matcher (ignoreCase R) (pattern R)
              (MState i (skipn i s) (replicate (S (ngroups (pattern R))) None)) Success)
    as [| |y] eqn:E; try discriminate.
  apply matcher_sound in E as (y' & Hy & E). inversion E; subst y'.
  inversion H; subst. exists i, y. auto.
Qed.

Lemma execLoop_finds R (s : list N) i : forall n j,
  j <= i < j + n -> matchAt R s i <> None -> execLoop R s n j <> None.
Proof.
  induction n as [|n IH]; intros j Hj Hm; [lia|]. simpl.
  destruct (matchAt R s j) eqn:E; [discriminate|].
  apply IH; [|exact Hm].
  destruct (Nat.eq_dec i j) as [->|Hne]; [congruence | lia].
Qed.

(** ** Every match of the pattern is found by the matcher *)

Section MatcherComplete.

Variable ic : bool.

Lemma orElse_left a b : a <> Failure -> orElse a b <> Failure.
Proof. destruct a; simpl; congruence. Qed.

Lemma orElse_right a b : b tt <> Failure -> orElse a b <> Failure.
Proof. destruct a; simpl; congruence. Qed.

Lemma repeatMatcher_complete ma (M : mstate -> mstate -> Prop) gs greedy c :
  (forall x y d, M x y -> d y <> Failure -> ma x d <> Failure) ->
  forall min max x z,
    repeats M gs min max x z -> c z <> Failure ->
    forall fuel, repeatMatcher ma gs fuel min max greedy x c <> Failure.
Proof.
  intros Hma min max x z H Hc.
  induction H as [min max x Hcond | min max x y z Hmax Hy Hne _ IH];
    intros [|fuel]; try discriminate; rewrite repeatMatcher_unfold; cbv zeta.
  - destruct Hcond as [-> | ->]; [|exact Hc].
    destruct max as [[|k]|]; [exact Hc | |]; cbn [Nat.eqb negb];
      (destruct greedy; [apply orElse_right | apply orElse_left]; exact Hc).
  - assert (Hrun : ma (clearCaptures gs x)
       (fun y => if Nat.eqb min 0 && Nat.eqb (endIndex y) (endIndex x) then Failure
                 else repeatMatcher ma gs fuel (Nat.pred min) (option_map Nat.pred max)
                                    greedy y c) <> Failure).
    { apply (Hma _ y); [exact Hy|].
      destruct (Nat.eqb min 0 && Nat.eqb (endIndex y) (endIndex x)) eqn:E; [|apply IH, Hc].
      apply andb_true_iff in E as [Emin Eend].
      apply Nat.eqb_eq in Emin, Eend. exfalso. apply (Hne Emin Eend). }
    destruct max as [[|k]|]; [congruence | |];
      (destruct (Nat.eqb min 0); cbn [negb]; [|exact Hrun]);
      (destruct greedy; [apply orElse_left; exact Hrun|]);
      unfold orElse; (destruct (c x); [discriminate | exact Hrun | discriminate]).
Qed.

Lemma matcher_complete r : forall x y c,
  matches ic r x y -> c y <> Failure -> matcher ic r x c <> Failure.
Proof.
  induction r as [ | a | | neg items | a IHa b IHb | a IHa b IHb
                   | min max greedy a IHa | n a IHa | n | | ];
    intros x y c H Hc; simpl in H; simpl.
  - subst. exact Hc.
  - destruct H as (b & t & -> & Hb & ->). apply N.eqb_eq in Hb. rewrite Hb. exact Hc.
  - destruct H as (b & t & -> & -> & ->). exact Hc.
  - destruct H as (b & t & -> & -> & ->). exact Hc.
  - destruct H as (z & Hz & Hy). apply (IHa x z); [exact Hz|]. apply (IHb z y); assumption.
  - destruct H as [H|H].
    + apply orElse_left. apply (IHa x y); assumption.
    + apply orElse_right. apply (IHb x y); assumption.
  - eapply (repeatMatcher_complete _ (matches ic a)); [exact IHa | exact H | exact Hc].
  - destruct H as (z & Hz & ->). apply (IHa x z); assumption.
  - destruct (captures x !! n) as [[s|]|]; [rewrite H; exact Hc | subst; exact Hc ..].
  - destruct H as [-> ->]. exact Hc.
  - destruct H as [-> ->]. exact Hc.
Qed.

End MatcherComplete.

(** [test] holds exactly when the pattern matches at some index. *)
Lemma test_matches R (s : list N) :
  test R s = true <->
  exists i y, i <= length s /\
    matches (ignoreCase R) (pattern R)
            (MState i (skipn i s) (replicate (S (ngroups (pattern R))) None)) y.
Proof.
  split.
  - unfold test. destruct (exec R s) as [m|] eqn:E; [|discriminate]. intros _.
    unfold exec, execFrom in E. apply execLoop_matchAt in E as (i & Hi & E).
    unfold matchAt in E.
    destruct (matcher (ignoreCase R) (pattern R)
                (MState i (skipn i s) (replicate (S (ngroups (pattern R))) None)) Success)
      as [| |y] eqn:Em; try discriminate.
    apply matcher_sound in Em as (y' & Hy & _). exists i, y'. split; [lia | exact Hy].
  - intros (i & y & Hi & H).
    assert (Hm : matchAt R s i <> None).
    { unfold matchAt. pose proof (matchAt_decides R s i Hi) as Htotal.
      pose proof (matcher_complete _ _ _ _ Success H ltac:(discriminate)) as Hfound.
      destruct (matcher (ignoreCase R) (pattern R)
                  (MState i (skipn i s) (replicate (S (ngroups (pattern R))) None)) Success);
        congruence. }
    unfold test, exec, execFrom.
    pose proof (execLoop_finds R s i (S (length s) - 0) 0) as Hfind.
    destruct (execLoop R s (S (length s) - 0) 0); [reflexivity|].
    exfalso. apply Hfind; [lia | exact Hm | reflexivity].
Qed.

(** ** A character followed by copies of itself *)

Section RepeatedCharacter.

Lemma orElse_Success a y : orElse a (fun _ => Success y) <> Failure.
Proof. destruct a; simpl; discriminate. Qed.

(** A greedy loop that may stop at once, run to the end of the pattern,
    succeeds. *)
Lemma repeat_optional_succeeds L ic a fuel max x :
  wfState L x -> length (rest x) + 1 <= fuel ->
  exists y, repeatMatcher (matcher ic a) (groups a) fuel 0 max true x Success = Success y.
Proof.
  intros Hwf Hfuel.
  assert (Htotal : repeatMatcher (matcher ic a) (groups a) fuel 0 max true x Success
                   <> OutOfFuel).
  { apply (repeatMatcher_total L).
    - intros x' d. apply matcher_total.
    - lia.
    - exact Hwf.
    - intros y _ _. discriminate. }
  assert (Hfail : repeatMatcher (matcher ic a) (groups a) fuel 0 max true x Success
                  <> Failure).
  { destruct fuel as [|fuel]; [lia|]. rewrite repeatMatcher_unfold.
    destruct max as [[|k]|]; [discriminate| |]; apply orElse_Success. }
  destruct (repeatMatcher (matcher ic a) (groups a) fuel 0 max true x Success) as [| |y];
    [congruence | congruence | exists y; reflexivity].
Qed.

(** [\1{k,}] after group 1 captured the single character [a], in front
    of [k] more copies of [a]. *)
Lemma backreference_run (a : N) : forall k fuel i (t : list N) (caps : list (option jsstring)),
  caps !! 1 = Some (Some ([a] : jsstring)) ->
  k + length (replicate k a ++ t) + 1 <= fuel ->
  exists y,
    repeatMatcher (matcher false (Bref 1)) [] fuel k None true
                  (MState i (replicate k a ++ t) caps) Success = Success y.
Proof.
  induction k as [|k IH]; intros fuel i t caps Hcaps Hfuel.
  - apply (repeat_optional_succeeds (i + length t) false (Bref 1)).
    + reflexivity.
    + simpl in *. lia.
  - destruct fuel as [|fuel]; [lia|]. rewrite repeatMatcher_unfold. cbv zeta.
    change (clearCaptures [] (MState i (replicate (S k) a ++ t) caps))
      with (MState i (replicate (S k) a ++ t) caps).
    cbn [Nat.eqb negb andb Nat.pred option_map].
    change (matcher false (Bref 1) (MState i (replicate (S k) a ++ t) caps) ?d)
      with (match caps !! 1 with
            | Some (Some s) =>
              match matchPrefix false s (MState i (replicate (S k) a ++ t) caps) with
              | Some y => d y
              | None => Failure
              end
            | _ => d (MState i (replicate (S k) a ++ t) caps)
            end).
    rewrite Hcaps.
    cbn [replicate app matchPrefix rest]. unfold canon. rewrite N.eqb_refl.
    unfold step1. cbn [endIndex rest captures tl].
    apply IH; [exact Hcaps|]. cbn [replicate app length] in Hfuel. lia.
Qed.

(** [/(.)\1{k,}/] finds every character followed by [k] copies of
    itself. *)
Lemma test_repeated_character (k : nat) (u v : list N) (a : N) :
  isLineTerminator a = false ->
  test (re (Seq (Grp 1 Dot) (atLeast k (Bref 1)))) (u ++ a :: replicate k a ++ v) = true.
Proof.
  intros Ha. set (s := u ++ a :: replicate k a ++ v).
  set (R := re (Seq (Grp 1 Dot) (atLeast k (Bref 1)))).
  assert (Hm : matchAt R s (length u) <> None).
  { unfold matchAt, s. rewrite drop_app_length.
    set (caps := replicate (S (ngroups (pattern R))) None : list (option jsstring)).
    assert (E : matcher (ignoreCase R) (pattern R)
                  (MState (length u) (a :: replicate k a ++ v) caps) Success
                = if isLineTerminator a then Failure
                  else repeatMatcher (matcher false (Bref 1)) []
                         (k + length (replicate k a ++ v) + 1) k None true
                         (MState (S (length u)) (replicate k a ++ v)
                            (<[1 := Some (firstn (S (length u) - length u)
                                            (a :: replicate k a ++ v))]> caps))
                         Success) by reflexivity.
    rewrite E, Ha. replace (S (length u) - length u) with 1 by lia.
    destruct (backreference_run a k (k + length (replicate k a ++ v) + 1) (S (length u)) v
                (<[1 := Some (firstn 1 (a :: replicate k a ++ v))]> caps))
      as [y Hy]; [reflexivity | lia |].
    rewrite Hy. discriminate. }
  unfold test, exec, execFrom.
  pose proof (execLoop_finds R s (length u) (S (length s) - 0) 0) as Hfind.
  destruct (execLoop R s (S (length s) - 0) 0); [reflexivity|].
  exfalso. apply Hfind; [|exact Hm|reflexivity].
  unfold s. rewrite length_app. simpl. lia.
Qed.

Lemma repeats_backreference_inv (a : N) k z y :
  repeats (matches false (Bref 1)) [] k None z y ->
  captures z !! 1 = Some (Some ([a] : jsstring)) ->
  exists n, k <= n /\ rest z = replicate n a ++ rest y.
Proof.
  remember None as max eqn:Emax. intros H.
  induction H as [min max x Hcond | min max x y z Hmax Hy Hne _ IH]; subst max; intros Hcaps.
  - destruct Hcond as [-> | ?]; [|discriminate]. exists 0. split; [lia | reflexivity].
  - cbn [matches] in Hy.
    change (captures (clearCaptures [] x)) with (captures x) in Hy. rewrite Hcaps in Hy.
    cbn [matchPrefix] in Hy. change (rest (clearCaptures [] x)) with (rest x) in Hy.
    destruct (rest x) as [|c t] eqn:Hrest; [discriminate|].
    unfold canon in Hy. destruct (N.eqb_spec a c) as [<-|]; [|discriminate].
    inversion Hy; subst y. clear Hy.
    destruct (IH eq_refl) as (n & Hn & Hrun); [exact Hcaps|].
    cbn [rest step1 clearCaptures tl] in Hrun. rewrite Hrest in Hrun. cbn [tl] in Hrun.
    exists (S n). split; [lia|]. simpl. rewrite Hrun. reflexivity.
Qed.

(** [/(.)\1{k,}/] finds nothing else. *)
Lemma test_repeated_character_inv (k : nat) (s : list N) :
  test (re (Seq (Grp 1 Dot) (atLeast k (Bref 1)))) s = true ->
  exists u a v, isLineTerminator a = false /\ s = u ++ a :: replicate k a ++ v.
Proof.
  intros H. apply test_matches in H as (i & y & _ & H).
  cbn [re pattern ignoreCase atLeast matches] in H.
  destruct H as (z & (z0 & (b & t & Hrest & Hb & ->) & ->) & Hrun).
  cbn [rest] in Hrest.
  apply (repeats_backreference_inv b) in Hrun as (n & Hn & Hrun).
  - cbn [rest setCapture step1 tl] in Hrun. rewrite Hrest in Hrun. cbn [tl] in Hrun.
    exists (firstn i s), b, (replicate (n - k) b ++ rest y). split; [exact Hb|].
    rewrite <- (firstn_skipn i s) at 1. rewrite Hrest, Hrun. f_equal. f_equal.
    rewrite app_assoc, <- replicate_add. f_equal. f_equal. lia.
  - unfold setCapture, step1. cbn [captures endIndex rest].
    replace (S i - i) with 1 by lia. rewrite Hrest. reflexivity.
Qed.

End RepeatedCharacter.

(** ** The user-name pattern *)

Lemma between_true lo hi c : between lo hi c = true <-> (lo <= c <= hi)%N.
Proof. unfold between. rewrite andb_true_iff, !N.leb_le. reflexivity. Qed.

Lemma between_false lo hi c : between lo hi c = false <-> (c < lo \/ hi < c)%N.
Proof. unfold between. rewrite andb_false_iff, !N.leb_gt. reflexivity. Qed.

Local Ltac case_units :=
  unfold upperUnit, lowerUnit in *;
  repeat match goal with
  | H : context [if between ?a ?b ?c then _ else _] |- _ => destruct (between a b c) eqn:?
  | |- context [if between ?a ?b ?c then _ else _] => destruct (between a b c) eqn:?
  end;
  repeat match goal with
  | H : between _ _ _ = true |- _ => apply between_true in H
  | H : between _ _ _ = false |- _ => apply between_false in H
  end.

Lemma folded_digit c : cls_match true false [Digit] c = isDigit c.
Proof.
  unfold cls_match, isDigit. cbn [existsb item_match item_has xorb]. unfold isDigit.
  rewrite orb_false_r. apply eq_true_iff_eq. rewrite !orb_true_iff. split.
  - intros [[H|H]|H]; [exact H | |]; case_units; apply between_true; lia.
  - intros H. left. left. exact H.
Qed.

Lemma folded_letter c : cls_match true false [a_z] c = isAsciiLetter c.
Proof.
  unfold cls_match, isAsciiLetter, a_z. cbn [existsb item_match item_has xorb].
  change (ch "a") with 97%N. change (ch "z") with 122%N.
  rewrite orb_false_r. apply eq_true_iff_eq. rewrite !orb_true_iff. split.
  - intros [[H|H]|H]; [right; exact H | |]; case_units;
      first [left; reflexivity | left; apply between_true; lia
            | right; reflexivity | right; apply between_true; lia].
  - intros [H|H]; [|left; left; exact H].
    right. case_units; first [reflexivity | apply between_true; lia | lia].
Qed.

Lemma repeats_class_inv ic neg items min x z :
  repeats (matches ic (Cls neg items)) [] min None x z ->
  exists ds : list N,
    rest x = ds ++ rest z /\ min <= length ds
    /\ Forall (fun c => cls_match ic neg items c = true) ds
    /\ endIndex z = endIndex x + length ds.
Proof.
  remember None as max eqn:Emax. intros H.
  induction H as [min max x Hcond | min max x y z Hmax Hy Hne _ IH]; subst max.
  - destruct Hcond as [-> | ?]; [|discriminate].
    exists []. split; [reflexivity|]. split; [simpl; lia|].
    split; [constructor | simpl; lia].
  - destruct Hy as (b & t & Hrest & Hb & ->).
    destruct (IH eq_refl) as (ds & Hds & Hmin & Hall & Hend).
    destruct x as [i s caps]. cbn [rest step1 clearCaptures endIndex tl] in *. subst s.
    cbn [tl] in Hds. subst t.
    exists (b :: ds). split; [reflexivity|]. split; [simpl; lia|].
    split; [constructor; assumption | simpl; lia].
Qed.

Lemma repeats_class_run ic neg items (t : list N) caps : forall (ds : list N) min i,
  Forall (fun c => cls_match ic neg items c = true) ds -> min <= length ds ->
  repeats (matches ic (Cls neg items)) [] min None
          (MState i (ds ++ t) caps) (MState (i + length ds) t caps).
Proof.
  induction ds as [|b ds IH]; intros min i Hall Hmin.
  - simpl in *. replace (i + 0) with i by lia. constructor. left. lia.
  - inversion Hall; subst.
    apply (repeats_more _ _ _ _ _ (MState (S i) (ds ++ t) caps)); [discriminate | | |].
    + exists b, (ds ++ t). repeat split. assumption.
    + intros _. simpl. lia.
    + replace (i + length (b :: ds)) with (S i + length ds) by (simpl; lia).
      apply IH; [assumption | simpl in Hmin; lia].
Qed.

(** [/^[a-z]+\d+$/i] accepts exactly the user names. *)
Lemma usernamePattern_spec (part : list N) :
  test usernamePattern part = true <-> isUserName part.
Proof.
  rewrite test_matches.
  cbn [usernamePattern rei pattern ignoreCase cat plus digit matches].
  split.
  - intros (i & y & _ & z & [Hi ->] & z1 & Hletters & z2 & Hdigits & Hend & ->).
    cbn [endIndex] in Hi. subst i. change (skipn 0 part) with part in *.
    apply repeats_class_inv in Hletters as (ls & Hls & Hlmin & Hlall & _).
    apply repeats_class_inv in Hdigits as (ds & Hds & Hdmin & Hdall & _).
    cbn [rest] in Hls. rewrite Hend, app_nil_r in Hds. rewrite Hds in Hls.
    exists ls, ds. repeat split.
    + exact Hls.
    + intros ->. simpl in Hlmin. lia.
    + intros ->. simpl in Hdmin. lia.
    + eapply Forall_impl; [exact Hlall|]. intros c Hc. rewrite <- folded_letter. exact Hc.
    + eapply Forall_impl; [exact Hdall|]. intros c Hc. rewrite <- folded_digit. exact Hc.
  - intros (ls & ds & -> & Hls & Hds & Hlall & Hdall).
    set (caps := replicate (S (ngroups (pattern usernamePattern))) None
                 : list (option jsstring)).
    exists 0, (MState (0 + length ls + length ds) [] caps).
    split; [lia|]. change (skipn 0 (ls ++ ds)) with (ls ++ ds).
    exists (MState 0 (ls ++ ds) caps). split; [split; reflexivity|].
    exists (MState (0 + length ls) ds caps). split.
    { apply repeats_class_run.
      - eapply Forall_impl; [exact Hlall|]. intros c Hc. rewrite folded_letter. exact Hc.
      - destruct ls; [congruence | simpl; lia]. }
    exists (MState (0 + length ls + length ds) [] caps). split; [|split; reflexivity].
    rewrite <- (app_nil_r ds) at 1. apply repeats_class_run.
    + eapply Forall_impl; [exact Hdall|]. intros c Hc. rewrite folded_digit. exact Hc.
    + destruct ds; [congruence | simpl; lia].
Qed.

(** ** The name pattern and the initial pattern *)

Lemma initialPattern_spec (word : list N) :
  test initialPattern word = true <-> isInitial word.
Proof.
  rewrite test_matches.
  cbn [initialPattern re pattern ignoreCase cat matches upperLetter].
  set (caps := replicate (S (ngroups (pattern initialPattern))) None
               : list (option jsstring)).
  split.
  - intros (i & y & _ & [H|H]).
    + destruct H as (z & [Hi ->] & z1 & (b & t & Hrest & Hb & ->) & z2
                     & (c & t' & Hrest' & Hc & ->) & Hend & _).
      cbn [rest step1 endIndex tl] in Hi, Hrest, Hrest', Hend. subst i.
      change (skipn 0 word) with word in *. unfold canon in Hc.
      rewrite Hrest in Hrest', Hend. cbn [tl] in Hrest', Hend.
      rewrite Hrest' in Hend. cbn [tl] in Hend. subst.
      exists b. split; [exact Hb|]. right. reflexivity.
    + destruct H as (z & [Hi ->] & z1 & (b & t & Hrest & Hb & ->) & Hend & _).
      cbn [rest step1 endIndex tl] in Hi, Hrest, Hend. subst i.
      change (skipn 0 word) with word in *.
      rewrite Hrest in Hend. cbn [tl] in Hend. subst.
      exists b. split; [exact Hb|]. left. reflexivity.
  - intros (b & Hb & [->| ->]).
    + exists 0, (MState 1 [] caps). split; [simpl; lia|]. right.
      exists (MState 0 [b] caps). split; [split; reflexivity|].
      exists (MState 1 [] caps). split; [|split; reflexivity].
      exists b, []. repeat split. exact Hb.
    + exists 0, (MState 2 [] caps). split; [simpl; lia|]. left.
      exists (MState 0 [b; ch "."] caps). split; [split; reflexivity|].
      exists (MState 1 [ch "."] caps). split; [exists b, [ch "."]; repeat split; exact Hb|].
      exists (MState 2 [] caps). split; [|split; reflexivity].
      exists (ch "."), []. repeat split.
Qed.

Lemma namePattern_spec (part : list N) :
  test namePattern part = true <-> isNamePart part.
Proof.
  rewrite test_matches.
  cbn [namePattern re pattern ignoreCase cat plus star matches upperLetter lowerLetter].
  set (caps := replicate (S (ngroups (pattern namePattern))) None
               : list (option jsstring)).
  split.
  - intros (i & y & _ & [H|[H|[H|H]]]).
    + destruct H as (z & [Hi ->] & z1 & (b & t & Hrest & Hb & ->) & z2 & Hlower & Hend & _).
      cbn [rest step1 endIndex tl] in Hi, Hrest. subst i.
      change (skipn 0 part) with part in *.
      apply repeats_class_inv in Hlower as (ls & Hls & Hmin & Hall & _).
      cbn [rest step1 tl] in Hls. rewrite Hrest in Hls. cbn [tl] in Hls.
      rewrite Hend in Hls.
      right. exists b, ls, []. rewrite Hrest, Hls. repeat split; try assumption.
      * intros ->. simpl in Hmin. lia.
      * constructor.
    + destruct H as (z & [Hi ->] & z1 & (b & t & Hrest & Hb & ->) & z2
                     & (c & t' & Hrest' & Hc & ->) & Hend & _).
      cbn [rest step1 endIndex tl] in Hi, Hrest, Hrest', Hend. subst i.
      change (skipn 0 part) with part in *. unfold canon in Hc.
      rewrite Hrest in Hrest', Hend. cbn [tl] in Hrest', Hend.
      rewrite Hrest' in Hend. cbn [tl] in Hend. subst.
      left. exists b. split; [exact Hb|]. right. reflexivity.
    + destruct H as (z & [Hi ->] & z1 & (b & t & Hrest & Hb & ->) & Hend & _).
      cbn [rest step1 endIndex tl] in Hi, Hrest, Hend. subst i.
      change (skipn 0 part) with part in *.
      rewrite Hrest in Hend. cbn [tl] in Hend. subst.
      left. exists b. split; [exact Hb|]. left. reflexivity.
    + destruct H as (z & [Hi ->] & z1 & (b & t & Hrest & Hb & ->) & z2 & Hlower
                     & z3 & Hmore & Hend & _).
      cbn [rest step1 endIndex tl] in Hi, Hrest. subst i.
      change (skipn 0 part) with part in *.
      apply repeats_class_inv in Hlower as (ls & Hls & Hmin & Hall & _).
      apply repeats_class_inv in Hmore as (rs & Hrs & _ & Hall' & _).
      cbn [rest step1 tl] in Hls. rewrite Hrest in Hls. cbn [tl] in Hls.
      rewrite Hend, app_nil_r in Hrs. rewrite Hrs in Hls.
      right. exists b, ls, rs. rewrite Hrest, Hls. repeat split; try assumption.
      intros ->. simpl in Hmin. lia.
  - intros [(b & Hb & [->| ->]) | (b & ls & rs & -> & Hb & Hne & Hls & Hrs)].
    + exists 0, (MState 1 [] caps). split; [simpl; lia|]. right. right. left.
      exists (MState 0 [b] caps). split; [split; reflexivity|].
      exists (MState 1 [] caps). split; [|split; reflexivity].
      exists b, []. repeat split. exact Hb.
    + exists 0, (MState 2 [] caps). split; [simpl; lia|]. right. left.
      exists (MState 0 [b; ch "."] caps). split; [split; reflexivity|].
      exists (MState 1 [ch "."] caps). split; [exists b, [ch "."]; repeat split; exact Hb|].
      exists (MState 2 [] caps). split; [|split; reflexivity].
      exists (ch "."), []. repeat split.
    + exists 0, (MState (1 + length ls + length rs) [] caps). split; [lia|].
      right. right. right.
      exists (MState 0 (b :: ls ++ rs) caps). split; [split; reflexivity|].
      exists (MState 1 (ls ++ rs) caps).
      split; [exists b, (ls ++ rs); repeat split; exact Hb|].
      exists (MState (1 + length ls) rs caps). split.
      { apply repeats_class_run; [exact Hls|]. destruct ls; [congruence | simpl; lia]. }
      exists (MState (1 + length ls + length rs) [] caps). split; [|split; reflexivity].
      rewrite <- (app_nil_r rs) at 1. apply repeats_class_run; [exact Hrs | lia].
Qed.

(* ================================================================== *)
(** * Accepted author names *)
(* ================================================================== *)

Lemma replaceClass_filter (inClass : N -> bool) (s : list N) :
  replaceClass inClass [] s = List.filter (fun c => negb (inClass c)) s.
Proof.
  induction s as [|c s IH]; simpl; [reflexivity|].
  rewrite IH. destruct (inClass c); reflexivity.
Qed.

Lemma existsb_Exists {A} (f : A -> bool) (P : A -> Prop) (l : list A) :
  (forall x, f x = true <-> P x) -> existsb f l = true <-> Exists P l.
Proof.
  intros Hf. induction l as [|x l IH]; simpl.
  - split; [discriminate | intros H; inversion H].
  - rewrite orb_true_iff, Exists_cons, IH, Hf. reflexivity.
Qed.

Lemma test_class_iff neg items (s : list N) :
  test (re (Cls neg items)) s = true <->
  Exists (fun c => cls_match false neg items c = true) s.
Proof.
  unfold test, exec, execFrom. rewrite execLoop_class by lia.
  change (skipn 0 s) with s.
  induction s as [|c s IH]; simpl.
  - split; [discriminate | intros H; inversion H].
  - rewrite Exists_cons. destruct (cls_match false neg items c); simpl.
    + split; auto.
    + rewrite <- IH. destruct (firstInClass (cls_match false neg items) s); simpl.
      * split; auto.
      * split; [discriminate | intros [?|?]; discriminate].
Qed.

Lemma size_list_to_set_le (l : list jsstring) :
  size (list_to_set l : gset jsstring) <= length l.
Proof.
  induction l as [|x l IH].
  - rewrite list_to_set_nil, size_empty. simpl. lia.
  - rewrite list_to_set_cons, size_union_alt, size_singleton. cbn [length].
    assert (Hsub : (list_to_set l ∖ {[x]} : gset jsstring) ⊆ list_to_set l)
      by (intros y Hy; apply elem_of_difference in Hy as [Hy _]; exact Hy).
    apply subseteq_size in Hsub. lia.
Qed.

Lemma size_list_to_set_NoDup (l : list jsstring) :
  length l <= size (list_to_set l : gset jsstring) <-> NoDup l.
Proof.
  split; [|intros H; rewrite size_list_to_set by exact H; lia].
  induction l as [|x l IH]; intros H; [constructor|].
  pose proof (size_list_to_set_le l) as Hle.
  rewrite list_to_set_cons, size_union_alt, size_singleton in H. cbn [length] in H.
  assert (Hsub : (list_to_set l ∖ {[x]} : gset jsstring) ⊆ list_to_set l)
    by (intros y Hy; apply elem_of_difference in Hy as [Hy _]; exact Hy).
  apply subseteq_size in Hsub.
  constructor; [|apply IH; lia].
  intros Hin.
  assert (Hx : x ∈ (list_to_set l : gset jsstring))
    by (apply elem_of_list_to_set; exact Hin).
  assert (Hlt : size (list_to_set l ∖ {[x]} : gset jsstring)
                < size (list_to_set l : gset jsstring)).
  { apply subset_size. split; [intros y Hy; apply elem_of_difference in Hy as [Hy _]; exact Hy|].
    intros Hall. apply Hall in Hx. apply elem_of_difference in Hx as [_ Hx].
    apply Hx. apply elem_of_singleton. reflexivity. }
  lia.
Qed.

Lemma noSimilarParts_pairs (parts : list jsstring) :
  noSimilarParts parts = true <->
  forall i j p q, i < j -> parts !! i = Some p -> parts !! j = Some q ->
    tooSimilar p q = false.
Proof.
  induction parts as [|a parts IH]; simpl.
  - split; [intros _ i j p q _ Hi; discriminate | reflexivity].
  - rewrite andb_true_iff, IH, forallb_forall. split.
    + intros [Ha Hrest] i j p q Hij Hi Hj.
      destruct j as [|j]; [lia|]. destruct i as [|i]; simpl in Hi, Hj.
      * inversion Hi; subst. apply negb_true_iff, Ha.
        apply list_elem_of_In. eapply list_elem_of_lookup_2, Hj.
      * apply (Hrest i j); [lia | exact Hi | exact Hj].
    + intros H. split.
      * intros q Hq. apply list_elem_of_In, list_elem_of_lookup_1 in Hq as [j Hj].
        apply negb_true_iff. apply (H 0 (S j)); [lia | reflexivity | exact Hj].
      * intros i j p q Hij Hi Hj. apply (H (S i) (S j)); [lia | exact Hi | exact Hj].
Qed.

Lemma tooSimilar_false (p q : list N) :
  tooSimilar p q = false <->
  toLowerCase p <> toLowerCase q
  /\ (length p < 10 -> length q < 10 -> (2 <= levenshteinDistance p q)%Z).
Proof.
  unfold tooSimilar, JS.eqb. rewrite orb_false_iff, bool_decide_eq_false.
  apply and_iff_compat_l.
  destruct (Nat.ltb_spec (length p) 10); destruct (Nat.ltb_spec (length q) 10);
    cbn [andb]; try (split; [intros _ ? ?; lia | reflexivity]).
  rewrite Z.leb_gt. split; [intros ? _ _; lia | intros H'; specialize (H' H H0); lia].
Qed.

Lemma lineTerminator_stripped a : isLineTerminator a = true -> isStripped a = true.
Proof.
  intros H. unfold isStripped, cls_match. cbn [existsb item_match item_has xorb].
  unfold isSpace. rewrite H, !orb_true_r. reflexivity.
Qed.

(** A text with a letter is not made of other symbols only. *)
Lemma letters_not_weird (s : list N) :
  Exists (fun c => isLetter c = true) s ->
  test (re (cat [Bol; plus (Cls true [A_Z; a_z; cyrA_Ya; cyra_ya; d0_9]); Eol])) s = false.
Proof.
  intros Hletter. apply not_true_is_false. intros H. apply test_matches in H.
  cbn [re pattern ignoreCase cat plus matches] in H.
  destruct H as (i & y & _ & z & [Hi ->] & z1 & Hrun & Hend & _).
  cbn [endIndex] in Hi. subst i. change (skipn 0 s) with s in Hrun.
  apply repeats_class_inv in Hrun as (ds & Hds & _ & Hall & _).
  cbn [rest] in Hds. rewrite Hend, app_nil_r in Hds. subst ds.
  apply Exists_exists in Hletter as (c & Hin & Hc).
  rewrite Forall_forall in Hall. specialize (Hall c Hin).
  unfold isLetter, cls_match in *. cbn [existsb xorb] in *.
  rewrite !orb_false_r in *.
  destruct (item_match false A_Z c); [discriminate|].
  destruct (item_match false a_z c); [discriminate|].
  destruct (item_match false cyrA_Ya c); [discriminate|].
  destruct (item_match false cyra_ya c); discriminate.
Qed.

(** X16.  Among the texts written in Basic Latin and the Cyrillic
    letters U+0400..U+045F, on which the embedding's case mapping is that
    of JavaScript, the author names the validator accepts are exactly
    those with between 2 and 100 characters other than dot, comma, dash
    and white space, a Latin or Cyrillic letter among them and none of
    them three times in a row, split at dashes and commas into at most six
    parts, one of which reads as a name and none as a user name, no two
    parts equal up to letter case, and no two parts shorter than ten
    characters within edit distance one of each other. *)
Theorem isValidAuthorName_spec (text : jsstring) :
  basicText text ->
  let cleanText := List.filter (fun c => negb (isStripped c)) text in
  let parts := nameParts text in
  isValidAuthorName text = true <->
  2 <= length cleanText <= 100
  /\ Exists (fun c => isLetter c = true) cleanText
  /\ (forall u a v, cleanText <> u ++ a :: a :: a :: v)
  /\ length parts <= 6
  /\ Exists isNamePart parts
  /\ Forall (fun part => ~ isUserName part) parts
  /\ NoDup (map toLowerCase parts)
  /\ (forall i j p q, i < j -> parts !! i = Some p -> parts !! j = Some q ->
        length p < 10 -> length q < 10 -> (2 <= levenshteinDistance p q)%Z).
Proof.
  intros _ cleanText parts. unfold isValidAuthorName. cbv zeta.
  rewrite replaceAll_class. fold isStripped.
  rewrite replaceClass_filter. fold cleanText. fold (nameParts text). fold parts.
  assert (Hclean : Forall (fun a => isLineTerminator a = false) cleanText).
  { apply Forall_forall. intros a Hin. apply list_elem_of_In, filter_In in Hin as [_ Hin].
    apply negb_true_iff in Hin.
    destruct (isLineTerminator a) eqn:E; [|reflexivity].
    rewrite (lineTerminator_stripped a E) in Hin. discriminate. }
  assert (Hrun : forall s : list N, Forall (fun a => isLineTerminator a = false) s ->
            (test (re (Seq (Grp 1 Dot) (atLeast 2 (Bref 1)))) s = true
             <-> exists u a v, s = u ++ a :: a :: a :: v)).
  { intros s Hs. split.
    - intros H. apply test_repeated_character_inv in H as (u & a & v & _ & H).
      exists u, a, v. exact H.
    - intros (u & a & v & Heq).
      assert (Ha : isLineTerminator a = false).
      { rewrite Forall_forall in Hs. apply Hs. rewrite Heq.
        apply elem_of_app. right. left. }
      rewrite Heq. apply (test_repeated_character 2 u v a Ha). }
  assert (Hletters : forall s : list N, test (re anyLetter) s = true
                     <-> Exists (fun c => isLetter c = true) s)
    by (intros s; apply test_class_iff).
  assert (Huser : forall l, existsb (test usernamePattern) l = true <-> Exists isUserName l)
    by (intros l; apply existsb_Exists, usernamePattern_spec).
  assert (Hname : forall l, existsb (test namePattern) l = true <-> Exists isNamePart l)
    by (intros l; apply existsb_Exists, namePattern_spec).
  assert (Hdup : forall l : list jsstring,
            (size (list_to_set (map toLowerCase l) : gset jsstring) <? length l) = false
            <-> NoDup (map toLowerCase l)).
  { intros l. rewrite Nat.ltb_ge, <- size_list_to_set_NoDup, length_map. reflexivity. }
  assert (Hpairs : forall l : list jsstring, NoDup (map toLowerCase l) ->
            (noSimilarParts l = true <->
             forall i j p q, i < j -> l !! i = Some p -> l !! j = Some q ->
               length p < 10 -> length q < 10 -> (2 <= levenshteinDistance p q)%Z)).
  { intros l Hnd. rewrite noSimilarParts_pairs. split.
    - intros H i j p q Hij Hi Hj.
      apply (proj1 (tooSimilar_false p q) (H i j p q Hij Hi Hj)).
    - intros H i j p q Hij Hi Hj. apply tooSimilar_false.
      split; [|apply (H i j); assumption].
      intros Heq.
      assert (Hi' : map toLowerCase l !! i = Some (toLowerCase p))
        by (rewrite list_lookup_fmap, Hi; reflexivity).
      assert (Hj' : map toLowerCase l !! j = Some (toLowerCase q))
        by (rewrite list_lookup_fmap, Hj; reflexivity).
      rewrite <- Heq in Hj'.
      pose proof (NoDup_lookup _ _ _ _ Hnd Hi' Hj'). lia. }
  split.
  - intros H.
    destruct (negb (truthy text)); [discriminate|].
    destruct (test (re (Seq (Grp 1 Dot) (atLeast 2 (Bref 1)))) cleanText) eqn:E1;
      [discriminate|].
    match type of H with (if ?c then _ else _) = _ => destruct c; [discriminate|] end.
    destruct (test (re anyLetter) cleanText) eqn:E3; [|discriminate].
    cbn [negb] in H.
    destruct ((length cleanText <? 2) || (100 <? length cleanText)) eqn:E4; [discriminate|].
    destruct (size (list_to_set (map toLowerCase parts) : gset jsstring) <? length parts)
      eqn:E5; [discriminate|].
    destruct (6 <? length parts) eqn:E6; [discriminate|].
    destruct (existsb (test usernamePattern) parts) eqn:E7; [discriminate|].
    destruct (existsb (test namePattern) parts) eqn:E8; [|discriminate].
    cbn [negb] in H.
    apply orb_false_iff in E4 as [Hlo Hhi]. apply Nat.ltb_ge in Hlo, Hhi, E6.
    apply Hdup in E5.
    split; [lia|]. split; [apply Hletters; exact E3|].
    split; [intros u a v Heq; assert (true = false) as Habs
              by (rewrite <- E1; symmetry; apply (Hrun _ Hclean); eauto); discriminate|].
    split; [exact E6|]. split; [apply Hname; exact E8|].
    split; [|split; [exact E5 | apply Hpairs; assumption]].
    apply Forall_forall. intros part Hin Hpart.
    assert (Hsome : Exists isUserName parts)
      by (apply Exists_exists; exists part; split; assumption).
    apply Huser in Hsome. congruence.
  - intros (Hlen & Hlet & Hno & Hsix & Hnm & Hus & Hnd & Hdist).
    assert (E0 : negb (truthy text) = false).
    { destruct text; [simpl in Hlen; lia | reflexivity]. }
    assert (E1 : test (re (Seq (Grp 1 Dot) (atLeast 2 (Bref 1)))) cleanText = false).
    { apply not_true_is_false. intros Ht. apply (Hrun _ Hclean) in Ht as (u & a & v & Heq).
      exact (Hno u a v Heq). }
    assert (E4 : (length cleanText <? 2) || (100 <? length cleanText) = false).
    { apply orb_false_iff. split; apply Nat.ltb_ge; lia. }
    assert (E6 : (6 <? length parts) = false) by (apply Nat.ltb_ge; exact Hsix).
    assert (E7 : existsb (test usernamePattern) parts = false).
    { apply not_true_is_false. intros Ht. apply Huser, Exists_exists in Ht as (part & Hin & Hp).
      rewrite Forall_forall in Hus. exact (Hus part Hin Hp). }
    rewrite E0, E1, (letters_not_weird _ Hlet), (proj2 (Hletters _) Hlet).
    cbn [negb]. rewrite E4, (proj2 (Hdup _) Hnd), E6, E7, (proj2 (Hname _) Hnm).
    cbn [negb]. apply Hpairs; assumption.
Qed.

Lemma accepted_witness :
  let text := js "Smith, J." in
  basicText text
  /\ 2 <= length (List.filter (fun c => negb (isStripped c)) text) <= 100
  /\ NoDup (map toLowerCase (nameParts text)).
Proof.
  intros text.
  assert (Hbasic : basicText text) by (repeat constructor).
  destruct (proj1 (isValidAuthorName_spec text Hbasic)) as (Hlen & _ & _ & _ & _ & _ & Hdup & _).
  - vm_compute. reflexivity.
  - split; [exact Hbasic | split; assumption].
Defined.

(* ================================================================== *)
(** * Likely authors *)
(* ================================================================== *)

(** X17.  A name is taken for an author exactly when the validator
    accepts it and either one of its words is an initial, or it holds a
    dot or a comma, has at most three words and one of them has at most
    two characters. *)
Theorem isLikelyAuthor_spec (text : jsstring) :
  isLikelyAuthor text = true <->
  isValidAuthorName text = true
  /\ (Exists isInitial (nameWords text)
      \/ (Exists (fun c => c = ch "." \/ c = ch ",") text
          /\ length (nameWords text) <= 3
          /\ Exists (fun word : jsstring => length word <= 2) (nameWords text))).
Proof.
  unfold isLikelyAuthor. cbv zeta. fold (nameWords text).
  destruct (isValidAuthorName text); cbn [negb];
    [|split; [discriminate | intros [? _]; discriminate]].
  rewrite !orb_true_iff, !andb_true_iff.
  rewrite (existsb_Exists _ isInitial) by apply initialPattern_spec.
  rewrite (existsb_Exists _ (fun word : jsstring => length word <= 2))
    by (intros w; apply Nat.leb_le).
  rewrite test_class_iff, Nat.leb_le.
  assert (Hclass : Exists (fun c => cls_match false false [One (ch "."); One (ch ",")] c = true)
                          text
                   <-> Exists (fun c => c = ch "." \/ c = ch ",") text).
  { assert (Hc : forall c, cls_match false false [One (ch "."); One (ch ",")] c = true
                          <-> (c = ch "." \/ c = ch ",")).
    { intros c. unfold cls_match. cbn [existsb item_match item_has xorb].
      rewrite !orb_true_iff, !N.eqb_eq. intuition congruence. }
    split; intros H; (eapply Exists_impl; [exact H|]); intros c; apply Hc. }
  rewrite Hclass. intuition.
Qed.

Lemma likely_witness : isLikelyAuthor (js "Smith, J.") = true.
Proof.
  apply (proj2 (isLikelyAuthor_spec (js "Smith, J."))). split.
  - vm_compute. reflexivity.
  - left. apply Exists_exists. exists (js "J."). split.
    + vm_compute. right. left.
    + exists (ch "J"). split; [reflexivity | right; reflexivity].
Defined.

(* ================================================================== *)
(** * Parsed file names *)
(* ================================================================== *)






(* ================================================================== *)
(** * Canonical names *)
(* ================================================================== *)

(** ** Text around a space *)

Lemma runEnd_cons (inClass : N -> bool) b c (u : list N) :
  runEnd inClass b (c :: u) = runEnd inClass (inClass c) u.
Proof.
  unfold runEnd. destruct u as [|d u]; [reflexivity|].
  rewrite last_cons. destruct (last (d :: u)) eqn:E; [reflexivity|].
  apply last_None in E. discriminate.
Qed.

Lemma collapseRuns_app (inClass : N -> bool) by_ (u v : list N) : forall b,
  collapseRuns inClass by_ b (u ++ v)
  = collapseRuns inClass by_ b u ++ collapseRuns inClass by_ (runEnd inClass b u) v.
Proof.
  induction u as [|c u IH]; intros b; [reflexivity|].
  rewrite runEnd_cons. cbn [app collapseRuns].
  destruct (inClass c); rewrite IH.
  - rewrite <- app_assoc. reflexivity.
  - reflexivity.
Qed.

(** The two passes of [cleanupText] are one: every run of underscores,
    dots and white space becomes one space. *)
Lemma collapseRuns_twice (s : list N) : forall b1 b2,
  (b1 = true -> b2 = true) ->
  collapseRuns isSpace (js " ") b2 (collapseRuns isUnderscoreOrDot (js " ") b1 s)
  = collapseRuns isSeparator (js " ") b2 s.
Proof.
  induction s as [|c s IH]; intros b1 b2 Hb; [reflexivity|].
  cbn [collapseRuns]. unfold isSeparator at 1.
  destruct (isUnderscoreOrDot c) eqn:Hud.
  - cbn [orb]. destruct b1.
    + rewrite (Hb eq_refl). cbn [app]. apply IH. auto.
    + change (js " ") with [32%N]. cbn [app collapseRuns].
      change (isSpace 32) with true. cbn iota.
      change [32%N] with (js " "). rewrite (IH true true) by auto.
      reflexivity.
  - cbn [orb collapseRuns]. destruct (isSpace c).
    + rewrite (IH false true) by discriminate. reflexivity.
    + rewrite (IH false false) by discriminate. reflexivity.
Qed.

Lemma cleanupText_separators (text : list N) :
  cleanupText text = trim (collapseRuns isSeparator (js " ") false text).
Proof. rewrite cleanupText_runs, (collapseRuns_twice text false false); auto. Qed.

Lemma spaced_weaken (t : list N) : spaced true t = true -> spaced false t = true.
Proof.
  destruct t as [|c t]; [reflexivity|]. cbn [spaced].
  destruct (isSpace c); [|auto]. rewrite andb_false_r. discriminate.
Qed.

Lemma separators_spaced (t : list N) : forall b,
  spaced b (collapseRuns isSeparator (js " ") b t) = true.
Proof.
  induction t as [|c t IH]; intros b; [reflexivity|].
  cbn [collapseRuns]. unfold isSeparator at 1.
  destruct (isUnderscoreOrDot c || isSpace c) eqn:Hc.
  - destruct b; cbn [app].
    + apply IH.
    + change (js " ") with [32%N]. cbn [app spaced].
      change (isSpace 32) with true. cbn iota.
      change [32%N] with (js " "). rewrite IH. reflexivity.
  - apply orb_false_iff in Hc as [_ Hc]. cbn [spaced]. rewrite Hc. apply IH.
Qed.

(** Where a text ends, its collapsed form ends. *)
Lemma separators_last (t : list N) : forall b,
  match last t with
  | None => True
  | Some c =>
    if isSeparator c
    then collapseRuns isSeparator (js " ") b t = []
         \/ last (collapseRuns isSeparator (js " ") b t) = Some 32%N
    else last (collapseRuns isSeparator (js " ") b t) = Some c
  end.
Proof.
  induction t as [|c t IH]; intros b; [exact I|].
  destruct t as [|d t].
  - cbn [last collapseRuns]. destruct (isSeparator c); [|reflexivity].
    destruct b; [left; reflexivity | right; reflexivity].
  - rewrite last_cons. specialize (IH (isSeparator c)).
    destruct (last (d :: t)) as [e|] eqn:E; [|apply last_None in E; discriminate].
    cbn [collapseRuns] in *. destruct (isSeparator c) eqn:Hc.
    + destruct (isSeparator e).
      * destruct IH as [IH|IH].
        -- rewrite IH, app_nil_r.
           destruct b; [left; reflexivity | right; reflexivity].
        -- right. rewrite last_app, IH. reflexivity.
      * rewrite last_app, IH. reflexivity.
    + destruct (isSeparator e).
      * right. destruct IH as [IH|IH].
        -- change (js " ") with [32%N] in IH. destruct (isSeparator d); discriminate IH.
        -- rewrite last_cons, IH. reflexivity.
      * rewrite last_cons, IH. reflexivity.
Qed.

Lemma dropSpaces_all (p s : list N) :
  Forall (fun c => isSpace c = true) p -> dropSpaces (p ++ s) = dropSpaces s.
Proof.
  induction 1 as [|c p Hc _ IH]; [reflexivity|]. cbn [app dropSpaces]. rewrite Hc. exact IH.
Qed.

(** A text between white space is what [trim] leaves of it. *)
Lemma trim_sandwich (p m q : list N) :
  Forall (fun c => isSpace c = true) p -> Forall (fun c => isSpace c = true) q ->
  (forall c v, m = c :: v -> isSpace c = false) ->
  (forall u c, m = u ++ [c] -> isSpace c = false) ->
  trim (p ++ m ++ q) = m.
Proof.
  intros Hp Hq Hhead Hlast. unfold trim, trimStart, trimEnd.
  rewrite (dropSpaces_all p _ Hp).
  destruct m as [|c v].
  - cbn [app]. rewrite <- (app_nil_r q), (dropSpaces_all q [] Hq). reflexivity.
  - cbn [app dropSpaces]. rewrite (Hhead c v eq_refl).
    change (c :: v ++ q) with ((c :: v) ++ q). rewrite rev_app_distr.
    rewrite dropSpaces_all by (apply Forall_rev; exact Hq).
    rewrite dropSpaces_fixed; [apply rev_involutive|].
    intros d w Hd. 
    assert (Heq : c :: v = rev w ++ [d]).
    { rewrite <- (rev_involutive (c :: v)), Hd. reflexivity. }
    exact (Hlast _ _ Heq).
Qed.

(** Conversely, a text is what [trim] leaves of it between white
    space. *)
Lemma trim_decompose (w : list N) :
  exists p q, w = p ++ trim w ++ q
              /\ Forall (fun c => isSpace c = true) p
              /\ Forall (fun c => isSpace c = true) q
              /\ (forall c v, trim w = c :: v -> isSpace c = false)
              /\ (forall u c, trim w = u ++ [c] -> isSpace c = false).
Proof.
  destruct (dropSpaces_split w) as (p & Hw & Hp).
  destruct (dropSpaces_split (rev (dropSpaces w))) as (q & Hr & Hq).
  exists p, (rev q). unfold trim, trimStart, trimEnd.
  split; [|split; [exact Hp | split; [apply Forall_rev; exact Hq | split]]].
  - rewrite <- rev_app_distr, <- Hr, rev_involutive. exact Hw.
  - intros c v Hcv.
    destruct (dropSpaces (rev (dropSpaces w))) as [|e t] eqn:E; [discriminate|].
    destruct (dropSpaces w) as [|c' v'] eqn:Ew.
    + cbn in E. discriminate.
    + pose proof (dropSpaces_head _ _ _ Ew) as Hc'.
      assert (Hsub : exists x, c' :: v' = rev (e :: t) ++ x).
      { exists (rev q). rewrite <- rev_app_distr, <- Hr, rev_involutive. reflexivity. }
      destruct Hsub as [x Hx]. rewrite Hcv in Hx. cbn [app] in Hx.
      inversion Hx; subst. exact Hc'.
  - intros u c Huc.
    assert (Hrev : dropSpaces (rev (dropSpaces w)) = c :: rev u).
    { rewrite <- (rev_involutive (dropSpaces (rev (dropSpaces w)))), Huc, rev_app_distr.
      reflexivity. }
    exact (dropSpaces_head _ _ _ Hrev).
Qed.

Lemma in_run_dropSpaces (t : list N) :
  collapseRuns isSeparator (js " ") true t
  = dropSpaces (collapseRuns isSeparator (js " ") false t).
Proof.
  assert (Hhead : forall s : list N,
            dropSpaces (collapseRuns isSeparator (js " ") true s)
            = collapseRuns isSeparator (js " ") true s).
  { induction s as [|c s IH]; [reflexivity|]. cbn [collapseRuns].
    destruct (isSeparator c) eqn:Hc; [exact IH|].
    apply orb_false_iff in Hc as [_ Hc]. cbn [dropSpaces]. rewrite Hc. reflexivity. }
  destruct t as [|c t]; [reflexivity|]. cbn [collapseRuns].
  destruct (isSeparator c) eqn:Hc.
  - change (js " ") with [32%N]. cbn [app dropSpaces]. change (isSpace 32) with true.
    cbn iota. change [32%N] with (js " "). symmetry. apply Hhead.
  - apply orb_false_iff in Hc as [_ Hc]. cbn [dropSpaces]. rewrite Hc. reflexivity.
Qed.

(** After a text that does not end in white space, a single-spaced text
    has no white space or one space. *)
Lemma trailing_spaces (x q : list N) :
  Forall (fun c => isSpace c = true -> c = ch " ") (x ++ q) ->
  (forall u v, x ++ q <> u ++ ch " " :: ch " " :: v) ->
  Forall (fun c => isSpace c = true) q ->
  q = [] \/ q = [ch " "].
Proof.
  intros Hchars Hpairs Hq. destruct q as [|c1 q]; [left; reflexivity|]. right.
  apply Forall_app in Hchars as [_ Hchars].
  inversion Hq as [|? ? Hc1 Hq']; subst. inversion Hchars as [|? ? Hc1' Hchars']; subst.
  rewrite (Hc1' Hc1) in *. destruct q as [|c2 q]; [reflexivity|].
  inversion Hq' as [|? ? Hc2 _]; subst. inversion Hchars' as [|? ? Hc2' _]; subst.
  rewrite (Hc2' Hc2) in *. exfalso. exact (Hpairs x q eq_refl).
Qed.

(** [cleanupText] works on the two sides of a space separately. *)
Lemma cleanupText_space (u v : list N) :
  cleanupText u <> [] -> cleanupText v <> [] ->
  cleanupText (u ++ ch " " :: v) = cleanupText u ++ ch " " :: cleanupText v.
Proof.
  rewrite !cleanupText_separators. intros Hu Hv.
  set (cR := collapseRuns isSeparator (js " ")) in *.
  destruct (trim_decompose (cR false u)) as (pu & qu & Hwu & Hpu & Hqu & Hu1 & Hu2).
  destruct (trim_decompose (cR false v)) as (pv & qv & Hwv & Hpv & Hqv & Hv1 & Hv2).
  set (U' := trim (cR false u)) in *. set (V' := trim (cR false v)) in *.
  assert (Htrue : cR true v = V' ++ qv).
  { unfold cR. rewrite in_run_dropSpaces. fold cR. rewrite Hwv.
    rewrite (dropSpaces_all pv _ Hpv). apply dropSpaces_fixed.
    intros c w Hcw. destruct V' as [|c' w'] eqn:EV; [congruence|].
    cbn [app] in Hcw. inversion Hcw; subst. exact (Hv1 _ _ eq_refl). }
  assert (Hmiddle : qu ++ (if runEnd isSeparator false u then [] else [ch " "]) = [ch " "]).
  { pose proof (separators_spaced u false) as Hsp. fold cR in Hsp.
    apply spaced_chars in Hsp as [Hchars Hpairs].
    assert (Hq : qu = [] \/ qu = [ch " "]).
    { apply (trailing_spaces (pu ++ U')); [| |exact Hqu].
      - rewrite <- app_assoc, <- Hwu. exact Hchars.
      - rewrite <- app_assoc, <- Hwu. exact Hpairs. }
    destruct (last U') as [e|] eqn:Ee; [|apply last_None in Ee; congruence].
    pose proof Ee as Ee'. apply last_Some in Ee' as [U0 HU0].
    pose proof (Hu2 _ _ HU0) as He.
    assert (Hlast : last (cR false u) = if decide (qu = []) then Some e else Some (ch " ")).
    { rewrite Hwu. destruct Hq as [-> | ->].
      - rewrite app_nil_r, last_app, Ee. reflexivity.
      - rewrite !last_app. reflexivity. }
    assert (Hune : u <> []).
    { intros ->. apply Hu. reflexivity. }
    pose proof (separators_last u false) as Hend. fold cR in Hend.
    unfold runEnd.
    destruct (last u) as [c|] eqn:Ec; [|apply last_None in Ec; congruence].
    destruct (isSeparator c) eqn:Hc.
    - destruct Hend as [Hend|Hend].
      + rewrite Hend in Hwu. destruct pu; destruct U'; discriminate || congruence.
      + rewrite Hend in Hlast. destruct Hq as [-> | ->]; [|reflexivity].
        rewrite decide_True in Hlast by reflexivity.
        inversion Hlast; subst e. discriminate He.
    - rewrite Hend in Hlast. destruct Hq as [-> | ->]; [reflexivity|].
      rewrite decide_False in Hlast by discriminate.
      inversion Hlast; subst c. discriminate Hc. }
  unfold cR at 1. rewrite collapseRuns_app. fold cR.
  assert (Hstep : cR (runEnd isSeparator false u) (ch " " :: v)
                  = (if runEnd isSeparator false u then [] else [ch " "]) ++ cR true v).
  { unfold cR. cbn [collapseRuns]. change (isSeparator (ch " ")) with true. cbn iota.
    destruct (runEnd isSeparator false u); reflexivity. }
  rewrite Hstep, Htrue, Hwu.
  replace ((pu ++ U' ++ qu) ++ (if runEnd isSeparator false u then [] else [ch " "])
           ++ V' ++ qv)
    with (pu ++ (U' ++ ch " " :: V') ++ qv).
  - apply trim_sandwich; [exact Hpu | exact Hqv | |].
    + intros c w Hcw. destruct U' as [|c' w'] eqn:EU; [congruence|].
      cbn [app] in Hcw. inversion Hcw; subst. exact (Hu1 _ _ eq_refl).
    + intros w c Hwc.
      destruct (last V') as [e|] eqn:Ee; [|apply last_None in Ee; congruence].
      pose proof Ee as Ee'. apply last_Some in Ee' as [V0 HV0].
      assert (Hl : last (U' ++ ch " " :: V') = Some e).
      { rewrite last_app, last_cons, Ee. reflexivity. }
      rewrite Hwc, last_snoc in Hl. inversion Hl; subst. exact (Hv2 _ _ HV0).
  - rewrite <- !app_assoc. f_equal. f_equal.
    rewrite (app_assoc qu), Hmiddle. reflexivity.
Qed.

(** A text without underscores, dots and white space is left as it is. *)
Lemma cleanupText_plain (z : list N) :
  Forall (fun c => isSeparator c = false) z -> cleanupText z = z.
Proof.
  intros Hz. rewrite cleanupText_separators, collapseRuns_fixed by exact Hz.
  rewrite <- (app_nil_r z) at 1. change (z ++ []) with ([] ++ z ++ []).
  apply (trim_sandwich [] z []); [constructor | constructor | |].
  - intros c v ->. inversion Hz as [|? ? Hc _]; subst.
    apply orb_false_iff in Hc as [_ Hc]. exact Hc.
  - intros u c ->. apply Forall_app in Hz as [_ Hz].
    inversion Hz as [|? ? Hc _]; subst.
    apply orb_false_iff in Hc as [_ Hc]. exact Hc.
Qed.

(** What [cleanupText] returns, it leaves as it is. *)
Lemma cleanupText_stable (t : list N) :
  Forall (fun c => isUnderscoreOrDot c = false) t ->
  spaced true t = true -> dropSpaces (rev t) = rev t ->
  cleanupText t = t.
Proof.
  intros Hud Hsp Hend. rewrite cleanupText_runs.
  rewrite (collapseRuns_fixed isUnderscoreOrDot) by exact Hud.
  rewrite collapseRuns_spaced_fixed by (apply spaced_weaken; exact Hsp).
  apply trim_fixed; assumption.
Qed.

(** ** The year and the extension *)

Lemma years_checked :
  forallb yearChecked (map Z.of_nat (seq (Z.to_nat 1000) (Z.to_nat 9000))) = true.
Proof. vm_compute. reflexivity. Qed.

(** A year of four digits is written with them and read back from
    them. *)
Lemma year_digits (Y : Z) :
  (1000 <= Y <= 9999)%Z ->
  length (numberToString Y) = 4
  /\ Forall (fun c => isDigit c = true) (numberToString Y)
  /\ parseDigits (numberToString Y) = Y.
Proof.
  intros HY. pose proof years_checked as H. rewrite forallb_forall in H.
  specialize (H Y). unfold yearChecked in H.
  assert (Hin : In Y (map Z.of_nat (seq (Z.to_nat 1000) (Z.to_nat 9000)))).
  { apply in_map_iff. exists (Z.to_nat Y). split; [lia|]. apply in_seq. lia. }
  apply H in Hin. apply andb_true_iff in Hin as [Hin Hparse].
  apply andb_true_iff in Hin as [Hlen Hdigits].
  split; [apply Nat.eqb_eq; exact Hlen|]. split; [|apply Z.eqb_eq; exact Hparse].
  apply Forall_forall. intros c Hc. rewrite forallb_forall in Hdigits.
  apply Hdigits, list_elem_of_In, Hc.
Qed.

Lemma basename_plain (s : list N) :
  s <> [] -> Forall (fun c => NodePath.isSlash c = false) s -> NodePath.basename s = s.
Proof.
  intros Hne Hs. unfold NodePath.basename.
  assert (Hrev : Forall (fun c => NodePath.isSlash c = false) (rev s))
    by (apply Forall_rev; exact Hs).
  assert (Hne' : rev s <> []).
  { intros E. apply Hne. rewrite <- (rev_involutive s), E. reflexivity. }
  pose proof (dropSlashes_plain (rev s) Hne' Hrev []) as Hdrop.
  rewrite app_nil_r in Hdrop. rewrite Hdrop.
  rewrite (proj1 (takeSegment_plain (rev s) Hrev)). apply rev_involutive.
Qed.

Lemma lastDot_none (s : list N) : forall i found,
  Forall (fun c => c <> NodePath.dot) s -> NodePath.lastDot s i found = found.
Proof.
  induction s as [|c s IH]; intros i found Hs; [reflexivity|].
  inversion Hs as [|? ? Hc Hs']; subst. cbn [NodePath.lastDot].
  rewrite (proj2 (N.eqb_neq c NodePath.dot) Hc). apply IH, Hs'.
Qed.

Lemma lastDot_app (u v : list N) : forall i found,
  Forall (fun c => c <> NodePath.dot) v ->
  NodePath.lastDot (u ++ NodePath.dot :: v) i found = Some (i + length u).
Proof.
  induction u as [|c u IH]; intros i found Hv.
  - cbn [app NodePath.lastDot length]. rewrite N.eqb_refl, Nat.add_0_r.
    apply lastDot_none, Hv.
  - cbn [app NodePath.lastDot length]. rewrite IH by exact Hv. f_equal. lia.
Qed.

(** [path.parse] takes the extension off a name that ends in [.pdf]. *)
Lemma parseName_pdf (stem : list N) :
  stem <> [] -> Forall (fun c => NodePath.isSlash c = false) stem ->
  NodePath.parseName (stem ++ js ".pdf") = stem.
Proof.
  intros Hne Hs. unfold NodePath.parseName. cbv zeta.
  rewrite basename_plain.
  - unfold NodePath.extStart.
    change (js ".pdf") with (NodePath.dot :: js "pdf").
    rewrite lastDot_app by (repeat constructor; discriminate).
    destruct stem as [|c stem]; [congruence|]. cbn [length Nat.add].
    unfold JS.eqb. rewrite bool_decide_eq_false_2.
    + change (S (length stem)) with (length (c :: stem)).
      rewrite take_app_length. reflexivity.
    + intros E. apply (f_equal (@length N)) in E.
      rewrite length_app in E. change (length (NodePath.dot :: js "pdf")) with 4 in E.
      change (length [NodePath.dot; NodePath.dot]) with 2 in E. cbn [length] in E. lia.
  - destruct stem; [congruence | discriminate].
  - apply Forall_app. split; [exact Hs | repeat constructor].
Qed.

(** ** Matches of the program's patterns *)

Lemma repeats_one_inv (P : N -> Prop) min max x z :
  repeats (oneChar P) [] min max x z ->
  (forall k, max = Some k -> min <= k) ->
  exists ds : list N,
    rest x = ds ++ rest z /\ min <= length ds
    /\ (forall k, max = Some k -> length ds <= k)
    /\ Forall P ds
    /\ endIndex z = endIndex x + length ds /\ captures z = captures x.
Proof.
  induction 1 as [min max x Hstop | min max x y z Hmax HM Hne Hrep IH]; intros Hle.
  - exists []. cbn [app length]. split; [reflexivity|]. split.
    + destruct Hstop as [->|Hz]; [lia | apply (Hle 0 Hz)].
    + split; [intros; lia|]. split; [constructor|]. split; [lia | reflexivity].
  - destruct HM as (b & t & Hrest & Hb & ->).
    destruct IH as (ds & Hds & Hmin & Hbound & Hall & Hend & Hcaps).
    { intros k Hk. destruct max as [m|]; [|discriminate]. cbn [option_map] in Hk.
      inversion Hk. specialize (Hle m eq_refl). lia. }
    cbn [step1 clearCaptures rest endIndex captures fold_right tl] in *.
    rewrite Hrest in Hds. cbn [tl] in Hds.
    exists (b :: ds). cbn [app length]. rewrite Hrest, Hds.
    split; [reflexivity|]. split; [lia|]. split.
    + intros k Hk. subst max. cbn [option_map] in Hbound.
      specialize (Hbound (Nat.pred k) eq_refl).
      destruct k; [congruence | cbn [Nat.pred] in Hbound; lia].
    + split; [constructor; assumption|]. split; [lia | exact Hcaps].
Qed.

Lemma repeats_one_run (P : N -> Prop) (t : list N) caps : forall (ds : list N) min max i,
  Forall P ds -> min <= length ds -> (forall k, max = Some k -> length ds <= k) ->
  repeats (oneChar P) [] min max (MState i (ds ++ t) caps) (MState (i + length ds) t caps).
Proof.
  induction ds as [|d ds IH]; intros min max i Hall Hmin Hmax.
  - cbn [app length] in *. rewrite Nat.add_0_r. apply repeats_stop. left. lia.
  - inversion Hall as [|? ? Hd Hds]; subst.
    apply (repeats_more _ _ _ _ _ (MState (S i) (ds ++ t) caps)).
    + intros Hz. specialize (Hmax 0 Hz). cbn [length] in Hmax. lia.
    + exists d, (ds ++ t). repeat split; [exact Hd].
    + intros _. cbn [endIndex]. lia.
    + replace (i + length (d :: ds)) with (S i + length ds) by (cbn [length]; lia).
      apply IH; [exact Hds | cbn [length] in Hmin; lia|].
      intros k Hk. destruct max as [m|]; [|discriminate]. cbn [option_map] in Hk.
      specialize (Hmax m eq_refl). cbn [length] in Hmax. inversion Hk. lia.
Qed.

Lemma matchAt_sound R (s : list N) i m :
  matchAt R s i = Some m ->
  exists y,
    matches (ignoreCase R) (pattern R)
            (MState i (skipn i s) (replicate (S (ngroups (pattern R))) None)) y
    /\ m = mkMatch i (endIndex y) (captures y).
Proof.
  unfold matchAt. intros H.
  destruct (matcher (ignoreCase R) (pattern R)
              (MState i (skipn i s) (replicate (S (ngroups (pattern R))) None)) Success)
    as [| |y] eqn:E; try discriminate.
  apply matcher_sound in E as (y' & Hy & E). inversion E; subst y'.
  inversion H; subst. exists y. auto.
Qed.

Lemma matchAt_exists R (s : list N) i y :
  i <= length s ->
  matches (ignoreCase R) (pattern R)
          (MState i (skipn i s) (replicate (S (ngroups (pattern R))) None)) y ->
  matchAt R s i <> None.
Proof.
  intros Hi H. unfold matchAt. pose proof (matchAt_decides R s i Hi) as Htotal.
  pose proof (matcher_complete _ _ _ _ Success H ltac:(discriminate)) as Hfound.
  destruct (matcher (ignoreCase R) (pattern R)
              (MState i (skipn i s) (replicate (S (ngroups (pattern R))) None)) Success);
    congruence.
Qed.

(** [exec] returns the match at the first index that has one. *)
Lemma execLoop_first R (s : list N) i m : forall n j,
  j <= i < j + n ->
  (forall k, j <= k < i -> matchAt R s k = None) ->
  matchAt R s i = Some m ->
  execLoop R s n j = Some m.
Proof.
  induction n as [|n IH]; intros j Hj Hnone Hm; [lia|]. cbn [execLoop].
  destruct (Nat.eq_dec i j) as [->|Hne]; [rewrite Hm; reflexivity|].
  rewrite Hnone by lia. apply IH; [lia | | exact Hm].
  intros k Hk. apply Hnone. lia.
Qed.

Lemma exec_first R (s : list N) i m :
  i <= length s ->
  (forall k, k < i -> matchAt R s k = None) ->
  matchAt R s i = Some m ->
  exec R s = Some m.
Proof.
  intros Hi Hnone Hm. unfold exec, execFrom.
  apply (execLoop_first R s i m); [lia | | exact Hm].
  intros k Hk. apply Hnone. lia.
Qed.

Lemma exec_unmatched R (s : list N) :
  (forall i y,
     ~ matches (ignoreCase R) (pattern R)
               (MState i (skipn i s) (replicate (S (ngroups (pattern R))) None)) y) ->
  exec R s = None.
Proof.
  intros Hno. destruct (exec R s) as [m|] eqn:E; [|reflexivity].
  apply exec_matches in E as (i & y & H & _). exfalso. exact (Hno i y H).
Qed.

Lemma replace_unmatched R by_ (s : list N) : exec R s = None -> replace R by_ s = s.
Proof. intros H. unfold replace. rewrite H. reflexivity. Qed.

Lemma replaceAll_unmatched R by_ (s : list N) : exec R s = None -> replaceAll R by_ s = s.
Proof.
  intros H. unfold replaceAll. cbn [replaceLoop].
  change (execFrom R s 0) with (exec R s). rewrite H. reflexivity.
Qed.

Lemma lits_inv ic (p : list N) : forall x y,
  matches ic (lits p) x y ->
  exists w : list N,
    rest x = w ++ rest y
    /\ Forall2 (fun a b => canon ic a = canon ic b) p w
    /\ endIndex y = endIndex x + length p /\ captures y = captures x.
Proof.
  induction p as [|a p IH]; intros x y H.
  - cbn [lits matches] in H. subst y. exists []. cbn [length]. repeat split; [constructor | lia].
  - assert (Hone : forall z, matches ic (Lit a) x z ->
              exists b, rest x = b :: rest z /\ canon ic a = canon ic b
                        /\ endIndex z = S (endIndex x) /\ captures z = captures x).
    { intros z (b & t & Hrest & Hb & ->). exists b. cbn [step1 rest endIndex captures].
      rewrite Hrest. repeat split; assumption. }
    destruct p as [|a' p].
    + cbn [lits] in H. apply Hone in H as (b & Hrest & Hb & Hend & Hcaps).
      exists [b]. cbn [app length]. repeat split; try assumption; [|lia].
      constructor; [exact Hb | constructor].
    + change (lits (a :: a' :: p)) with (Seq (Lit a) (lits (a' :: p))) in H.
      cbn [matches] in H. destruct H as (z & Hz & H).
      apply Hone in Hz as (b & Hrest & Hb & Hend & Hcaps).
      apply IH in H as (w & Hw & Hall & Hend' & Hcaps').
      exists (b :: w). cbn [app]. rewrite Hrest, Hw.
      repeat split; [constructor; assumption | cbn [length] in *; lia | congruence].
Qed.

Lemma lits_run ic (t : list N) caps : forall (p w : list N) i,
  Forall2 (fun a b => canon ic a = canon ic b) p w ->
  matches ic (lits p) (MState i (w ++ t) caps) (MState (i + length p) t caps).
Proof.
  induction p as [|a p IH]; intros w i Hall; inversion Hall as [|? b ? w' Hab Hrest]; subst.
  - cbn [lits matches app length]. rewrite Nat.add_0_r. reflexivity.
  - assert (Hone : matches ic (Lit a) (MState i ((b :: w') ++ t) caps)
                           (MState (S i) (w' ++ t) caps)).
    { exists b, (w' ++ t). repeat split. exact Hab. }
    destruct p as [|a' p].
    + inversion Hrest; subst. cbn [lits length]. rewrite Nat.add_1_r. exact Hone.
    + change (lits (a :: a' :: p)) with (Seq (Lit a) (lits (a' :: p))).
      cbn [matches]. exists (MState (S i) (w' ++ t) caps). split; [exact Hone|].
      replace (i + length (a :: a' :: p)) with (S i + length (a' :: p))
        by (cbn [length]; lia).
      apply IH, Hrest.
Qed.

(** ** Publisher prefixes *)

Lemma startsWithFold_iff (p : list N) : forall s : list N,
  startsWithFold s p = true
  <-> exists w t, s = w ++ t /\ Forall2 (fun a b => upperUnit a = upperUnit b) p w.
Proof.
  induction p as [|a p IH]; intros s.
  - split; [|intros _; destruct s; reflexivity].
    intros _. exists [], s. split; [reflexivity | constructor].
  - destruct s as [|b s]; cbn [startsWithFold].
    + split; [discriminate|]. intros (w & t & Hs & Hall).
      inversion Hall; subst. discriminate.
    + rewrite andb_true_iff, N.eqb_eq, IH. split.
      * intros (Hab & w & t & -> & Hall). exists (b :: w), t.
        split; [reflexivity | constructor; assumption].
      * intros (w & t & Hs & Hall). inversion Hall as [|? b' ? w' Hab Hall']; subst.
        cbn [app] in Hs. inversion Hs; subst. split; [exact Hab|]. eauto.
Qed.

(** A publisher pattern matches the texts that begin with the
    publisher's name, letter case apart. *)
Lemma publisher_test (publisher s : list N) :
  test (publisherRegExp publisher) s = startsWithFold s publisher.
Proof.
  apply eq_true_iff_eq. rewrite test_matches, startsWithFold_iff.
  unfold publisherRegExp, rei. cbn [pattern ignoreCase ngroups].
  set (caps := replicate _ None).
  change (cat [Bol; lits publisher; opt (Lit (ch ".")); star ws])
    with (Seq Bol (Seq (lits publisher) (Seq (opt (Lit (ch "."))) (star ws)))).
  cbn [matches]. split.
  - intros (i & y & _ & z0 & [Hi ->] & z1 & Hlits & _).
    cbn [endIndex] in Hi. subst i. apply lits_inv in Hlits as (w & Hw & Hall & _).
    cbn [rest] in Hw. rewrite drop_0 in Hw. exists w, (rest z1). split; [exact Hw|].
    exact Hall.
  - intros (w & t & -> & Hall). exists 0, (MState (0 + length publisher) t caps).
    split; [lia|]. rewrite drop_0. eexists. split; [split; reflexivity|].
    eexists. split; [apply lits_run; exact Hall|].
    eexists. split; apply repeats_stop; left; reflexivity.
Qed.

Lemma startsWithFold_app (t x : list N) : forall p : list N,
  startsWithFold (t ++ x) p = true ->
  startsWithFold t p = true
  \/ (length t < length p /\ startsWithFold x (skipn (length t) p) = true).
Proof.
  induction t as [|c t IH]; intros p H.
  - destruct p as [|a p]; [left; reflexivity|]. right. cbn [length]. split; [lia|].
    exact H.
  - destruct p as [|a p]; [left; reflexivity|]. cbn [app startsWithFold] in *.
    apply andb_true_iff in H as [Hac H]. rewrite Hac. cbn [andb].
    destruct (IH p H) as [Hl|[Hlen Hr]]; [left; exact Hl|].
    right. cbn [length skipn]. split; [lia | exact Hr].
Qed.

Lemma spaceDashHead_found (r q : list N) :
  q <> [] -> startsWithFold (ch " " :: ch "-" :: r) q = true -> spaceDashHead q = true.
Proof.
  intros Hq H. destruct q as [|a q]; [congruence|]. cbn [startsWithFold] in H.
  apply andb_true_iff in H as [Ha H]. unfold spaceDashHead.
  rewrite Ha. cbn [andb]. destruct q as [|b q]; [reflexivity|].
  cbn [startsWithFold] in H. apply andb_true_iff in H as [Hb _]. exact Hb.
Qed.

Lemma publishers_apart :
  forallb (fun publisher =>
             forallb (fun k => negb (spaceDashHead (skipn k publisher)))
                     (seq 0 (length publisher)))
          publishersToRemove = true.
Proof. vm_compute. reflexivity. Qed.

(** A title that starts with no publisher's name does not come to start
    with one when [ - ] and more text follow it. *)
Lemma publisher_after_title (T r publisher : list N) :
  In publisher publishersToRemove ->
  test (publisherRegExp publisher) T = false ->
  exec (publisherRegExp publisher) (T ++ ch " " :: ch "-" :: r) = None.
Proof.
  intros Hin HT.
  destruct (exec (publisherRegExp publisher) (T ++ ch " " :: ch "-" :: r)) as [m|] eqn:E;
    [|reflexivity].
  exfalso.
  assert (Htest : test (publisherRegExp publisher) (T ++ ch " " :: ch "-" :: r) = true)
    by (unfold test; rewrite E; reflexivity).
  rewrite publisher_test in Htest, HT.
  apply startsWithFold_app in Htest as [Htest|[Hlen Htest]]; [congruence|].
  pose proof publishers_apart as Hall. rewrite forallb_forall in Hall.
  specialize (Hall publisher Hin). rewrite forallb_forall in Hall.
  specialize (Hall (length T)). rewrite negb_true_iff in Hall.
  rewrite (spaceDashHead_found r) in Hall.
  - discriminate Hall. apply in_seq. lia.
  - intros Hnil. apply (f_equal (@length N)) in Hnil.
    rewrite length_skipn in Hnil. cbn [length] in Hnil. lia.
  - exact Htest.
Qed.

Lemma stripPublishers_unmatched (s : list N) : forall l : list jsstring,
  (forall publisher, In publisher l -> exec (publisherRegExp publisher) s = None) ->
  fold_left (fun cleanName publisher => replace (publisherRegExp publisher) [] cleanName)
            l s = s.
Proof.
  induction l as [|publisher l IH]; intros Hall; [reflexivity|]. cbn [fold_left].
  rewrite replace_unmatched by (apply Hall; left; reflexivity).
  apply IH. intros q Hq. apply Hall. right. exact Hq.
Qed.

Lemma stripPublishers_title (T r : list N) :
  hasPublisherPrefix T = false ->
  stripPublishers (T ++ ch " " :: ch "-" :: r) = T ++ ch " " :: ch "-" :: r.
Proof.
  unfold hasPublisherPrefix, stripPublishers. intros H.
  apply stripPublishers_unmatched. intros publisher Hin.
  apply publisher_after_title; [exact Hin|].
  apply not_true_is_false. intros Ht.
  assert (Hex : existsb (fun publisher => test (publisherRegExp publisher) T)
                        publishersToRemove = true)
    by (apply existsb_exists; eauto).
  congruence.
Qed.

(** ** The year at the end of a name *)

Lemma last_skipn (s : list N) i : skipn i s <> [] -> last (skipn i s) = last s.
Proof.
  intros Hne. rewrite <- (take_drop i s) at 2. rewrite last_app.
  destruct (last (skipn i s)) eqn:E; [reflexivity|].
  apply last_None in E. congruence.
Qed.

Lemma optional_run_inv (P : N -> Prop) x z :
  repeats (repeats (oneChar P) [] 0 None) [] 0 (Some 1) x z ->
  exists sp : list N,
    rest x = sp ++ rest z /\ Forall P sp
    /\ endIndex z = endIndex x + length sp /\ captures z = captures x.
Proof.
  intros H. inversion H as [? ? ? Hstop | ? ? ? y ? Hmax HM Hne Hrep]; subst.
  - exists []. cbn [app length]. repeat split; [constructor | lia].
  - apply repeats_one_inv in HM as (sp & Hsp & _ & _ & Hall & Hend & Hcaps);
      [|discriminate].
    cbn [clearCaptures rest endIndex captures fold_right] in *.
    cbn [Nat.pred option_map] in Hrep.
    inversion Hrep as [? ? ? Hstop | ? ? ? y' ? Hmax' _ _ _]; subst; [|congruence].
    exists sp. repeat split; assumption.
Qed.

(** What the year pattern takes: an opening bracket or none, four
    digits, a closing bracket or none, white space, up to the end of the
    text. *)
Lemma yearPattern_inv x y :
  1 < length (captures x) ->
  matches false (pattern yearPattern) x y ->
  exists ob ds cb sp : list N,
    rest x = ob ++ ds ++ cb ++ sp
    /\ length ob <= 1 /\ length ds = 4 /\ length cb <= 1
    /\ Forall (fun c => isDigit c = true) ds
    /\ Forall (fun c => c = ch "]" \/ c = ch ")") cb
    /\ Forall (fun c => isSpace c = true) sp
    /\ endIndex y = endIndex x + length ob + 4 + length cb + length sp
    /\ captures y !! 1 = Some (Some ds).
Proof.
  intros Hcaps H.
  change (pattern yearPattern)
    with (Seq (opt (Cls false [One (ch "["); One (ch "(")]))
         (Seq (Grp 1 (exactly 4 digit))
         (Seq (opt (Cls false [One (ch "]"); One (ch ")")]))
         (Seq (opt (star ws)) Eol)))) in H.
  cbn [matches] in H.
  destruct H as (z1 & H1 & z2 & (z & Hz & ->) & z3 & H3 & z4 & H4 & Hend & ->).
  unfold opt in H1, H3, H4. unfold exactly in Hz. cbn [matches groups] in H1, Hz, H3, H4.
  apply (repeats_one_inv (fun b => cls_match false false [One (ch "["); One (ch "(")] b = true))
    in H1 as (ob & Hob & _ & Hobn & _ & E1 & C1);
    [|intros k Hk; lia].
  apply (repeats_one_inv (fun b => cls_match false false [Digit] b = true))
    in Hz as (ds & Hds & Hdsmin & Hdsmax & Hdsall & E2 & C2);
    [|intros k Hk; inversion Hk; lia].
  apply (repeats_one_inv (fun b => cls_match false false [One (ch "]"); One (ch ")")] b = true))
    in H3 as (cb & Hcb & _ & Hcbn & Hcball & E3 & C3);
    [|intros k Hk; lia].
  apply (optional_run_inv (fun b => cls_match false false [Space] b = true))
    in H4 as (sp & Hsp & Hspall & E4 & C4).
  cbn [setCapture rest endIndex captures] in *.
  specialize (Hobn 1 eq_refl). specialize (Hdsmax 4 eq_refl). specialize (Hcbn 1 eq_refl).
  exists ob, ds, cb, sp.
  rewrite Hend, app_nil_r in Hsp.
  split; [rewrite Hob, Hds, Hcb, Hsp; reflexivity|].
  split; [exact Hobn|]. split; [lia|]. split; [exact Hcbn|].
  split.
  { eapply Forall_impl; [exact Hdsall|]. intros c Hc. unfold cls_match in Hc.
    cbn [existsb item_match item_has xorb] in Hc. rewrite orb_false_r in Hc. exact Hc. }
  split.
  { eapply Forall_impl; [exact Hcball|]. intros c Hc. unfold cls_match in Hc.
    cbn [existsb item_match item_has xorb] in Hc. rewrite orb_false_r in Hc.
    apply orb_true_iff in Hc as [Hc|Hc]; apply N.eqb_eq in Hc; auto. }
  split.
  { eapply Forall_impl; [exact Hspall|]. intros c Hc. unfold cls_match in Hc.
    cbn [existsb item_match item_has xorb] in Hc. rewrite orb_false_r in Hc. exact Hc. }
  split; [lia|].
  rewrite C4, C3, list_lookup_insert_eq by (rewrite C2, C1; exact Hcaps).
  rewrite E2, Hds. replace (endIndex z1 + length ds - endIndex z1) with (length ds) by lia.
  rewrite take_app_length. reflexivity.
Qed.

(** A text that ends in a bracketed year: the year pattern finds the
    bracket that opens it, and nothing before. *)
Lemma yearPattern_bracketed (U D : list N) :
  length D = 4 -> Forall (fun c => isDigit c = true) D ->
  exists m,
    exec yearPattern (U ++ js " [" ++ D ++ js "]") = Some m
    /\ mstart m = length U + 1 /\ mend m = length U + 7
    /\ mcaps m !! 1 = Some (Some (D : jsstring)).
Proof.
  intros HD Hdigits.
  set (s := U ++ js " [" ++ D ++ js "]").
  assert (Hlen : length s = length U + 7).
  { unfold s. rewrite !length_app, HD. reflexivity. }
  assert (Hlast : last s = Some (ch "]")).
  { unfold s. rewrite !app_assoc. apply last_snoc. }
  assert (Hinv : forall i y,
            matches false (pattern yearPattern)
                    (MState i (skipn i s) (replicate (S (ngroups (pattern yearPattern))) None)) y ->
            exists ob ds : list N,
              skipn i s = ob ++ ds ++ [ch "]"] /\ length ob <= 1 /\ length ds = 4
              /\ endIndex y = i + length ob + 5
              /\ captures y !! 1 = Some (Some ds)).
  { intros i y H. apply yearPattern_inv in H; [|cbn; lia].
    destruct H as (ob & ds & cb & sp & Hrest & Hob & Hds & Hcb & Hdsall & Hcball & Hspall
                   & Hend & Hcap).
    cbn [rest endIndex] in Hrest, Hend.
    assert (Hne : skipn i s <> []).
    { rewrite Hrest. destruct ds; [discriminate|]. destruct ob; discriminate. }
    pose proof (last_skipn s i Hne) as Hl. rewrite Hlast, Hrest in Hl.
    rewrite !last_app in Hl.
    destruct (last sp) as [c|] eqn:Esp.
    { apply last_Some in Esp as [sp' ->]. apply Forall_app in Hspall as [_ Hc].
      inversion Hc as [|? ? Hc' _]; subst. inversion Hl; subst c. discriminate Hc'. }
    apply last_None in Esp. subst sp.
    destruct (last cb) as [c|] eqn:Ecb.
    - apply last_Some in Ecb as [cb' ->]. inversion Hl; subst c.
      destruct cb' as [|c' cb']; [|rewrite length_app in Hcb; cbn [length] in Hcb; lia].
      exists ob, ds. rewrite Hrest, app_nil_r. cbn [app length] in *.
      repeat split; try assumption; lia.
    - destruct (last ds) as [c|] eqn:Eds.
      + apply last_Some in Eds as [ds' ->]. apply Forall_app in Hdsall as [_ Hc].
        inversion Hc as [|? ? Hc' _]; subst. inversion Hl; subst c. discriminate Hc'.
      + apply last_None in Eds. subst ds. discriminate Hds. }
  assert (Hskip1 : skipn (length U + 1) s = ch "[" :: D ++ [ch "]"]).
  { replace s with ((U ++ [ch " "]) ++ ch "[" :: D ++ [ch "]"])
      by (unfold s; rewrite <- app_assoc; reflexivity).
    apply drop_app_length'. rewrite length_app. reflexivity. }
  assert (Hfound : matchAt yearPattern s (length U + 1) <> None).
  { apply (matchAt_exists _ _ _
             (MState (length U + 7) []
                     (<[1 := Some (D : jsstring)]>
                        (replicate (S (ngroups (pattern yearPattern))) None))));
      [lia|].
    rewrite Hskip1.
    change (pattern yearPattern)
      with (Seq (opt (Cls false [One (ch "["); One (ch "(")]))
           (Seq (Grp 1 (exactly 4 digit))
           (Seq (opt (Cls false [One (ch "]"); One (ch ")")]))
           (Seq (opt (star ws)) Eol)))).
    set (caps := replicate _ None).
    cbn [matches]. unfold opt, exactly. cbn [groups].
    exists (MState (length U + 1 + 1) (D ++ [ch "]"]) caps). split.
    { apply (repeats_one_run
               (fun b => cls_match false false [One (ch "["); One (ch "(")] b = true)
               (D ++ [ch "]"]) caps [ch "["] 0 (Some 1) (length U + 1));
        [repeat constructor | cbn; lia | intros k Hk; inversion Hk; cbn; lia]. }
    exists (MState (length U + 1 + 1 + 4) [ch "]"]
                   (<[1 := Some (D : jsstring)]> caps)).
    split.
    { exists (MState (length U + 1 + 1 + length D) [ch "]"] caps). split.
      - apply (repeats_one_run (fun b => cls_match false false [Digit] b = true)
                 [ch "]"] caps D 4 (Some 4) (length U + 1 + 1)).
        + eapply Forall_impl; [exact Hdigits|]. intros c Hc. unfold cls_match.
          cbn [existsb item_match item_has xorb]. rewrite Hc. reflexivity.
        + lia.
        + intros k Hk. inversion Hk. lia.
      - unfold setCapture. cbn [endIndex rest captures]. rewrite HD.
        replace (length U + 1 + 1 + 4 - (length U + 1 + 1)) with (length D) by lia.
        rewrite take_app_length. reflexivity. }
    exists (MState (length U + 1 + 1 + 4 + 1) [] (<[1 := Some (D : jsstring)]> caps)).
    split.
    { apply (repeats_one_run
               (fun b => cls_match false false [One (ch "]"); One (ch ")")] b = true)
               [] _ [ch "]"] 0 (Some 1) (length U + 1 + 1 + 4));
        [repeat constructor | cbn; lia | intros k Hk; inversion Hk; cbn; lia]. }
    exists (MState (length U + 1 + 1 + 4 + 1) [] (<[1 := Some (D : jsstring)]> caps)).
    split; [apply repeats_stop; left; reflexivity|].
    split; [reflexivity|]. f_equal. lia. }
  destruct (matchAt yearPattern s (length U + 1)) as [m|] eqn:Em; [|congruence].
  exists m. split.
  - apply (exec_first _ _ (length U + 1)); [lia | | exact Em].
    intros k Hk. destruct (matchAt yearPattern s k) as [m'|] eqn:Ek; [|reflexivity].
    exfalso. apply matchAt_sound in Ek as (y & Hy & _).
    apply Hinv in Hy as (ob & ds & Hskip & Hob & Hds & _).
    apply (f_equal (@length N)) in Hskip.
    rewrite length_skipn, !length_app, Hlen, Hds in Hskip. cbn [length] in Hskip. lia.
  - apply matchAt_sound in Em as (y & Hy & ->).
    apply Hinv in Hy as (ob & ds & Hskip & Hob & Hds & Hend & Hcap).
    cbn [mstart mend mcaps].
    rewrite Hskip1 in Hskip.
    assert (Hob1 : length ob = 1).
    { apply (f_equal (@length N)) in Hskip. cbn [length] in Hskip.
      rewrite !length_app, HD, Hds in Hskip. cbn [length] in Hskip. lia. }
    destruct ob as [|o [|]]; try discriminate. cbn [app] in Hskip.
    inversion Hskip as [[Ho Hrest]]. apply app_inj_tail in Hrest as [Hrest _].
    split; [reflexivity|]. split; [cbn [length] in Hend; lia|].
    subst ds. exact Hcap.
Qed.

(** ** The two-part patterns *)

Lemma first_split (d : N) (a b a' b' : list N) :
  a ++ d :: b = a' ++ d :: b' -> d ∉ a -> d ∉ a' -> a = a' /\ b = b'.
Proof.
  revert a'. induction a as [|x a IH]; intros a' Heq Ha Ha'.
  - destruct a' as [|x' a']; cbn [app] in Heq.
    + inversion Heq. auto.
    + inversion Heq; subst. exfalso. apply Ha'. left.
  - destruct a' as [|x' a']; cbn [app] in Heq.
    + inversion Heq; subst. exfalso. apply Ha. left.
    + inversion Heq; subst.
      destruct (IH a' H1) as [-> ->]; [| |auto].
      * intros Hin. apply Ha. right. exact Hin.
      * intros Hin. apply Ha'. right. exact Hin.
Qed.

Lemma last_split (d : N) (a b a' b' : list N) :
  a ++ d :: b = a' ++ d :: b' -> d ∉ b -> d ∉ b' -> a = a' /\ b = b'.
Proof.
  intros Heq Hb Hb'.
  apply (f_equal (@rev N)) in Heq. rewrite !rev_app_distr in Heq.
  cbn [rev] in Heq. rewrite <- !app_assoc in Heq. cbn [app] in Heq.
  apply first_split in Heq as [Hr1 Hr2].
  - split; apply rev_inj; assumption.
  - rewrite list_elem_of_In, <- in_rev, <- list_elem_of_In. exact Hb.
  - rewrite list_elem_of_In, <- in_rev, <- list_elem_of_In. exact Hb'.
Qed.

(** White space after a text that does not end in it. *)
Lemma space_after (T g w : list N) :
  T ++ [ch " "] = g ++ w -> w <> [] -> Forall (fun c => isSpace c = true) w ->
  (forall u c, T = u ++ [c] -> isSpace c = false) ->
  g = T /\ w = [ch " "].
Proof.
  intros Heq Hne Hw HT.
  destruct (exists_last Hne) as (w0 & x & ->).
  rewrite app_assoc in Heq. apply app_inj_tail in Heq as [Heq <-].
  destruct w0 as [|y w0] using rev_ind.
  - rewrite app_nil_r in Heq. auto.
  - exfalso. rewrite app_assoc in Heq. apply HT in Heq.
    apply Forall_app in Hw as [Hw _]. apply Forall_app in Hw as [_ Hw].
    inversion Hw; subst. congruence.
Qed.

(** White space before a text that does not start with it. *)
Lemma space_before (A w g : list N) :
  ch " " :: A = w ++ g -> w <> [] -> Forall (fun c => isSpace c = true) w ->
  (forall c v, A = c :: v -> isSpace c = false) ->
  g = A /\ w = [ch " "].
Proof.
  intros Heq Hne Hw HA. destruct w as [|x w]; [congruence|].
  cbn [app] in Heq. inversion Heq as [[Hx Hrest]].
  destruct w as [|y w]; [auto|]. exfalso.
  cbn [app] in Hrest. apply HA in Hrest.
  inversion Hw as [|? ? _ Hw']; subst. inversion Hw'; subst. congruence.
Qed.

Section TwoParts.

(** The two groups of a two-part pattern, and the texts each takes. *)
Variables G1 G2 : regex.
Variables L1 L2 : list N -> Prop.

Hypothesis G1_inv : forall x y,
  matches false G1 x y ->
  exists w : list N, rest x = w ++ rest y /\ L1 w
                     /\ endIndex y = endIndex x + length w /\ captures y = captures x.
Hypothesis G2_inv : forall x y,
  matches false G2 x y ->
  exists w : list N, rest x = w ++ rest y /\ L2 w
                     /\ endIndex y = endIndex x + length w /\ captures y = captures x.
Hypothesis G1_run : forall (w t : list N) i caps,
  L1 w -> matches false G1 (MState i (w ++ t) caps) (MState (i + length w) t caps).
Hypothesis G2_run : forall (w t : list N) i caps,
  L2 w -> matches false G2 (MState i (w ++ t) caps) (MState (i + length w) t caps).

Lemma twoPart_inv (s : list N) i caps y :
  length caps = 3 ->
  matches false (twoPart G1 G2) (MState i (skipn i s) caps) y ->
  exists g1 w1 w2 g2 : list N,
    s = g1 ++ w1 ++ ch "-" :: w2 ++ g2
    /\ L1 g1 /\ L2 g2
    /\ w1 <> [] /\ Forall (fun c => isSpace c = true) w1
    /\ w2 <> [] /\ Forall (fun c => isSpace c = true) w2
    /\ captures y !! 1 = Some (Some g1) /\ captures y !! 2 = Some (Some g2).
Proof.
  intros Hcaps H. unfold twoPart in H. cbn [matches] in H.
  destruct H as (z0 & [Hi ->] & z1 & (z1' & H1 & ->) & z2 & H2 & z3 & H3 & z4 & H4
                 & z5 & (z5' & H5 & ->) & Hend & ->).
  cbn [endIndex] in Hi. subst i. rewrite drop_0 in *.
  apply G1_inv in H1 as (g1 & Hg1 & HL1 & E1 & C1).
  unfold plus in H2, H4. cbn [matches groups] in H2, H4.
  apply (repeats_one_inv (fun b => cls_match false false [Space] b = true))
    in H2 as (w1 & Hw1 & Hw1n & _ & Hw1all & E2 & C2); [|discriminate].
  destruct H3 as (b & t & Hb & Hcanon & ->). unfold canon in Hcanon. subst b.
  apply (repeats_one_inv (fun b => cls_match false false [Space] b = true))
    in H4 as (w2 & Hw2 & Hw2n & _ & Hw2all & E4 & C4); [|discriminate].
  apply G2_inv in H5 as (g2 & Hg2 & HL2 & E5 & C5).
  cbn [setCapture step1 rest endIndex captures] in *.
  rewrite Hb in Hw2. cbn [tl] in Hw2.
  rewrite Hend, app_nil_r in Hg2.
  exists g1, w1, w2, g2.
  assert (Hspace : forall w : list N,
            Forall (fun b => cls_match false false [Space] b = true) w ->
            Forall (fun c => isSpace c = true) w).
  { intros w Hw. eapply Forall_impl; [exact Hw|]. intros c Hc. unfold cls_match in Hc.
    cbn [existsb item_match item_has xorb] in Hc. rewrite orb_false_r in Hc. exact Hc. }
  split; [rewrite Hg1, Hw1, Hb, Hw2, Hg2; reflexivity|].
  split; [exact HL1|]. split; [exact HL2|].
  split; [destruct w1; [cbn in Hw1n; lia | discriminate]|].
  split; [apply Hspace, Hw1all|].
  split; [destruct w2; [cbn in Hw2n; lia | discriminate]|].
  split; [apply Hspace, Hw2all|].
  assert (Hlen1 : 1 < length (captures z1') /\ 2 < length (captures z1')).
  { rewrite C1. cbn [captures]. lia. }
  split.
  - rewrite list_lookup_insert_ne by discriminate.
    rewrite C5, C4, C2. rewrite list_lookup_insert_eq by apply Hlen1.
    rewrite E1, Hg1. cbn [endIndex].
    replace (0 + length g1 - 0) with (length g1) by lia.
    rewrite take_app_length. reflexivity.
  - rewrite list_lookup_insert_eq
      by (rewrite C5, C4, C2, length_insert; apply Hlen1).
    rewrite E5, Hg2. replace (endIndex z4 + length g2 - endIndex z4) with (length g2) by lia.
    rewrite firstn_all. reflexivity.
Qed.

Lemma twoPart_run (g1 g2 : list N) caps :
  L1 g1 -> L2 g2 ->
  exists y, matches false (twoPart G1 G2) (MState 0 (g1 ++ js " - " ++ g2) caps) y.
Proof.
  intros H1 H2. unfold twoPart. cbn [matches].
  set (x0 := MState 0 (g1 ++ js " - " ++ g2) caps).
  set (z1 := MState (0 + length g1) (js " - " ++ g2) caps).
  set (y1 := setCapture 1 x0 z1).
  set (y2 := MState (0 + length g1 + 1) (ch "-" :: ch " " :: g2) (captures y1)).
  set (y3 := MState (S (0 + length g1 + 1)) (ch " " :: g2) (captures y1)).
  set (y4 := MState (S (0 + length g1 + 1) + 1) g2 (captures y1)).
  set (z5 := MState (S (0 + length g1 + 1) + 1 + length g2) [] (captures y1)).
  exists (setCapture 2 y4 z5), x0. split; [split; reflexivity|].
  exists y1. split; [exists z1; split; [apply G1_run, H1 | reflexivity]|].
  exists y2. split.
  { unfold plus. cbn [matches groups].
    apply (repeats_one_run (fun b => cls_match false false [Space] b = true)
             (ch "-" :: ch " " :: g2) (captures y1) [ch " "] 1 None (0 + length g1));
      [repeat constructor | cbn; lia | discriminate]. }
  exists y3. split; [exists (ch "-"), (ch " " :: g2); repeat split|].
  exists y4. split.
  { unfold plus. cbn [matches groups].
    apply (repeats_one_run (fun b => cls_match false false [Space] b = true)
             g2 (captures y1) [ch " "] 1 None (S (0 + length g1 + 1)));
      [repeat constructor | cbn; lia | discriminate]. }
  exists (setCapture 2 y4 z5). split; [|split; reflexivity].
  exists z5. split; [|reflexivity].
  pose proof (G2_run g2 [] (S (0 + length g1 + 1) + 1) (captures y1) H2) as Hrun.
  rewrite app_nil_r in Hrun. exact Hrun.
Qed.

End TwoParts.

Lemma authorGroup_inv x y :
  matches false (Seq anyLetter (rangeLazy 0 50 nameChar)) x y ->
  exists w : list N, rest x = w ++ rest y /\ isAuthorField w
                     /\ endIndex y = endIndex x + length w /\ captures y = captures x.
Proof.
  cbn [matches]. intros (z & (b & t & Hb & Hletter & ->) & H).
  unfold rangeLazy, nameChar in H. cbn [matches groups] in H.
  apply (repeats_one_inv (fun c => isNameChar c = true))
    in H as (more & Hmore & _ & Hmax & Hall & Hend & Hcaps); [|intros k Hk; lia].
  cbn [step1 rest endIndex captures] in *. rewrite Hb in Hmore. cbn [tl] in Hmore.
  exists (b :: more). cbn [app length]. rewrite Hb, Hmore.
  split; [reflexivity|]. split; [|split; [lia | exact Hcaps]].
  exists b, more. repeat split; [exact Hletter | exact Hall | apply Hmax; reflexivity].
Qed.

Lemma authorGroup_run (w t : list N) i caps :
  isAuthorField w ->
  matches false (Seq anyLetter (rangeLazy 0 50 nameChar))
          (MState i (w ++ t) caps) (MState (i + length w) t caps).
Proof.
  intros (b & more & -> & Hletter & Hall & Hlen). cbn [matches].
  exists (MState (S i) (more ++ t) caps). split.
  - exists b, (more ++ t). repeat split. exact Hletter.
  - unfold rangeLazy, nameChar. cbn [matches groups].
    replace (i + length (b :: more)) with (S i + length more) by (cbn [length]; lia).
    apply (repeats_one_run (fun c => isNameChar c = true));
      [exact Hall | lia | intros k Hk; inversion Hk; subst; exact Hlen].
Qed.

Lemma titleGroup_inv x y :
  matches false (plusLazy Dot) x y ->
  exists w : list N, rest x = w ++ rest y /\ isTitleField w
                     /\ endIndex y = endIndex x + length w /\ captures y = captures x.
Proof.
  unfold plusLazy. cbn [matches groups]. intros H.
  apply (repeats_one_inv (fun c => isLineTerminator c = false))
    in H as (w & Hw & Hmin & _ & Hall & Hend & Hcaps); [|discriminate].
  exists w. split; [exact Hw|]. split; [|split; assumption].
  split; [destruct w; [cbn in Hmin; lia | discriminate] | exact Hall].
Qed.

Lemma titleGroup_run (w t : list N) i caps :
  isTitleField w ->
  matches false (plusLazy Dot) (MState i (w ++ t) caps) (MState (i + length w) t caps).
Proof.
  intros [Hne Hall]. unfold plusLazy. cbn [matches groups].
  apply (repeats_one_run (fun c => isLineTerminator c = false));
    [exact Hall | destruct w; [congruence | cbn; lia] | discriminate].
Qed.

Lemma spaces_no_dash (w : list N) : Forall (fun c => isSpace c = true) w -> ch "-" ∉ w.
Proof.
  intros Hw Hin. rewrite Forall_forall in Hw. apply Hw in Hin. discriminate Hin.
Qed.

Lemma authorField_no_dash (w : list N) : isAuthorField w -> ch "-" ∉ w.
Proof.
  intros (b & more & -> & Hb & Hall & _) Hin.
  apply elem_of_cons in Hin as [<-|Hin]; [discriminate Hb|].
  rewrite Forall_forall in Hall. apply Hall in Hin. discriminate Hin.
Qed.

(** A text without line terminators, as every single-spaced text is. *)
Lemma spaced_titleField (t : list N) b :
  t <> [] -> spaced b t = true -> isTitleField t.
Proof.
  intros Hne Hsp. split; [exact Hne|].
  apply spaced_chars in Hsp as [Hchars _].
  eapply Forall_impl; [exact Hchars|]. intros c Hc.
  destruct (isLineTerminator c) eqn:E; [|reflexivity].
  assert (Hs : isSpace c = true) by (unfold isSpace; rewrite E; apply orb_true_r).
  rewrite (Hc Hs) in E. discriminate E.
Qed.

Lemma startsWith_head (s : list N) :
  startsWith s (js "-") = false -> forall c v, s = c :: v -> c <> ch "-".
Proof.
  intros H c v -> ->. change (js "-") with [ch "-"] in H. cbn [startsWith] in H.
  rewrite N.eqb_refl in H. destruct v; discriminate H.
Qed.

Lemma endsWith_last (s : list N) :
  endsWith s (js "-") = false -> forall u c, s = u ++ [c] -> c <> ch "-".
Proof.
  unfold endsWith. change (rev (js "-")) with (js "-"). intros H u c ->.
  rewrite rev_unit in H. exact (startsWith_head _ H _ _ eq_refl).
Qed.

Lemma startsWith_app (p v : list N) : startsWith (p ++ v) p = true.
Proof.
  induction p as [|a p IH]; [destruct v; reflexivity|].
  cbn [app startsWith]. rewrite N.eqb_refl. exact IH.
Qed.

(** A text includes what it has between two of its parts. *)
Lemma includes_app (u p v s : list N) : s = u ++ p ++ v -> includes s p = true.
Proof.
  intros ->. induction u as [|c u IH].
  - cbn [app]. destruct (p ++ v) eqn:E.
    + destruct p; [reflexivity | discriminate].
    + rewrite <- E. cbn [includes]. rewrite E. cbn [includes]. rewrite <- E.
      rewrite startsWith_app. reflexivity.
  - cbn [app includes]. rewrite IH. apply orb_true_r.
Qed.

(** The pattern loop on [T - A]: the first two patterns can only cut the
    text at its one dash, and the second matches when the first does
    not. *)
Lemma patternLoop_two_parts (T A : list N) (y : option Z) :
  T <> [] -> spaced true T = true -> dropSpaces (rev T) = rev T ->
  endsWith T (js "-") = false -> includes T (js " - ") = false ->
  spaced true A = true -> dropSpaces (rev A) = rev A -> isAuthorField A ->
  patternLoop patterns (T ++ js " - " ++ A) y = splitTwoParts T A y.
Proof.
  intros HTne HTsp HTend HTfinish HTdash HAsp HAend HA.
  destruct (trimmed_ends T HTsp HTend) as [_ HTlast].
  destruct (trimmed_ends A HAsp HAend) as [HAhead _].
  pose proof (authorField_no_dash A HA) as HAdash.
  set (U := T ++ js " - " ++ A).
  assert (HU : U = (T ++ [ch " "]) ++ ch "-" :: ch " " :: A)
    by (unfold U; rewrite <- app_assoc; reflexivity).
  assert (Hparts : forall (m : MatchResult) (g1 g2 : list N),
            g1 = T -> g2 = A ->
            mcaps m !! 1 = Some (Some (g1 : jsstring)) ->
            mcaps m !! 2 = Some (Some (g2 : jsstring)) ->
            splitTwoParts (trim (default [] (group U m 1)))
                          (trim (default [] (group U m 2))) y
            = splitTwoParts T A y).
  { intros m g1 g2 -> -> H1 H2. unfold group. rewrite H1, H2.
    cbv [mjoin option_join default id].
    rewrite (trim_fixed T HTsp HTend), (trim_fixed A HAsp HAend). reflexivity. }
  unfold patterns. cbn [patternLoop].
  match goal with
  | |- context [exec ?R U] =>
    change (pattern R)
      with (twoPart (Seq anyLetter (rangeLazy 0 50 nameChar)) (plusLazy Dot));
    destruct (exec R U) as [m|] eqn:E1
  end.
  - change (2 <? S (ngroups (twoPart (Seq anyLetter (rangeLazy 0 50 nameChar))
                                     (plusLazy Dot)))) with true.
    cbn iota. apply exec_matches in E1 as (i & z & Hz & ->).
    cbn [ignoreCase re pattern] in Hz.
    change (cat [Bol; Grp 1 (Seq anyLetter (rangeLazy 0 50 nameChar)); plus ws;
                 Lit (ch "-"); plus ws; Grp 2 (plusLazy Dot); Eol])
      with (twoPart (Seq anyLetter (rangeLazy 0 50 nameChar)) (plusLazy Dot)) in Hz.
    apply (twoPart_inv _ _ isAuthorField isTitleField authorGroup_inv titleGroup_inv)
      in Hz as (g1 & w1 & w2 & g2 & Hs & Hg1 & Hg2 & Hw1 & Hw1s & Hw2 & Hw2s & C1 & C2);
      [|reflexivity].
    assert (Hleft : ch "-" ∉ g1 ++ w1).
    { intros Hin. apply elem_of_app in Hin as [Hin|Hin].
      - exact (authorField_no_dash _ Hg1 Hin).
      - exact (spaces_no_dash _ Hw1s Hin). }
    destruct (decide (ch "-" ∈ T)) as [Hin|HTno].
    + exfalso. apply list_elem_of_split_l in Hin as (t1 & t2 & HT12 & Ht1).
      rewrite HU, HT12, <- !app_assoc in Hs. cbn [app] in Hs.
      rewrite app_assoc in Hs. apply first_split in Hs as [Hl Hr]; [|exact Ht1 | exact Hleft].
      destruct (exists_last Hw1) as (w0 & x & Hw0).
      rewrite Hw0 in Hl, Hw1s. apply Forall_app in Hw1s as [_ Hx].
      pose proof (Forall_inv Hx) as Hx'. cbv beta in Hx'.
      destruct w2 as [|x2 w2]; [congruence|].
      pose proof (Forall_inv Hw2s) as Hx2. cbv beta in Hx2.
      pose proof (spaced_chars T true HTsp) as [Hchars _].
      rewrite Forall_forall in Hchars.
      destruct t2 as [|c t2].
      * apply (endsWith_last T HTfinish t1 (ch "-")); [exact HT12 | reflexivity].
      * cbn [app] in Hr. inversion Hr as [[Hc Hrest]]. subst c.
        assert (Hx32 : x = ch " ").
        { apply Hchars; [|exact Hx']. rewrite HT12, Hl. clear. set_solver. }
        assert (Hx232 : x2 = ch " ").
        { apply Hchars; [|exact Hx2]. rewrite HT12. clear. set_solver. }
        subst x x2.
        rewrite (includes_app (g1 ++ w0) (js " - ") t2) in HTdash; [discriminate|].
        rewrite HT12, Hl, <- !app_assoc. reflexivity.
    + rewrite HU, app_assoc in Hs.
      apply first_split in Hs as [Hl Hr]; [| |exact Hleft].
      * apply space_after in Hl as [-> _]; [|assumption..].
        apply space_before in Hr as [-> _]; [|assumption..].
        apply (Hparts _ T A); auto.
      * intros Hin. apply elem_of_app in Hin as [Hin|Hin]; [exact (HTno Hin)|].
        apply list_elem_of_singleton in Hin. discriminate Hin.
  - match goal with
    | |- context [exec ?R U] =>
      change (pattern R)
        with (twoPart (plusLazy Dot) (Seq anyLetter (rangeLazy 0 50 nameChar)));
      destruct (exec R U) as [m|] eqn:E2
    end.
    + change (2 <? S (ngroups (twoPart (plusLazy Dot)
                                       (Seq anyLetter (rangeLazy 0 50 nameChar)))))
        with true.
      cbn iota. apply exec_matches in E2 as (i & z & Hz & ->).
      cbn [ignoreCase re pattern] in Hz.
      change (cat [Bol; Grp 1 (plusLazy Dot); plus ws; Lit (ch "-"); plus ws;
                   Grp 2 (Seq anyLetter (rangeLazy 0 50 nameChar)); Eol])
        with (twoPart (plusLazy Dot) (Seq anyLetter (rangeLazy 0 50 nameChar))) in Hz.
      apply (twoPart_inv _ _ isTitleField isAuthorField titleGroup_inv authorGroup_inv)
        in Hz as (g1 & w1 & w2 & g2 & Hs & Hg1 & Hg2 & Hw1 & Hw1s & Hw2 & Hw2s & C1 & C2);
        [|reflexivity].
      rewrite HU, app_assoc in Hs.
      apply last_split in Hs as [Hl Hr].
      * apply space_after in Hl as [-> _]; [|assumption..].
        apply space_before in Hr as [-> _]; [|assumption..].
        apply (Hparts _ T A); auto.
      * intros Hin. apply elem_of_cons in Hin as [Hin|Hin]; [discriminate Hin|].
        exact (HAdash Hin).
      * intros Hin. apply elem_of_app in Hin as [Hin|Hin].
        -- exact (spaces_no_dash _ Hw2s Hin).
        -- exact (authorField_no_dash _ Hg2 Hin).
    + exfalso.
      assert (Ht : test (re (cat [Bol; Grp 1 (plusLazy Dot); plus ws; Lit (ch "-"); plus ws;
                                  Grp 2 (Seq anyLetter (rangeLazy 0 50 nameChar)); Eol])) U
                   = true).
      { apply test_matches.
        destruct (twoPart_run _ _ isTitleField isAuthorField titleGroup_run authorGroup_run
                    T A (replicate 3 None)
                    (spaced_titleField T true HTne HTsp) HA) as [z Hz].
        exists 0, z. split; [lia | exact Hz]. }
      unfold test in Ht. rewrite E2 in Ht. discriminate Ht.
Qed.

(** ** Parsing a canonical name *)

Lemma cleanupText_content (text : list N) :
  List.filter isContent (cleanupText text) = List.filter isContent text.
Proof.
  rewrite cleanupText_runs, trim_content.
  rewrite (collapseRuns_content isSpace), (collapseRuns_content isUnderscoreOrDot);
    try reflexivity.
  - intros c Hc. unfold isContent. rewrite Hc. reflexivity.
  - intros c Hc. unfold isContent. rewrite Hc. apply andb_false_r.
Qed.

Lemma invalid_not_name (c : N) :
  isInvalidChar c = true -> isNameChar c = false /\ isSeparator c = false.
Proof.
  unfold isInvalidChar, cls_match, invalidChars.
  cbn [existsb item_match item_has xorb]. rewrite !orb_true_iff, !N.eqb_eq.
  intros H.
  repeat match goal with H : _ \/ _ |- _ => destruct H as [H|H] end;
    try discriminate; subst c; split; reflexivity.
Qed.

Lemma digit_not_separator (c : N) : isDigit c = true -> isSeparator c = false.
Proof.
  intros Hd. apply between_true in Hd.
  unfold isSeparator, isUnderscoreOrDot, cls_match, isSpace, isWhiteSpace, isLineTerminator.
  cbn [existsb item_match item_has xorb].
  repeat match goal with
  | |- context [(?a =? c)%N] =>
    let E := fresh in destruct (N.eqb_spec a c) as [E|E]; [exfalso; cbn in E; lia|]
  | |- context [(c =? ?a)%N] =>
    let E := fresh in destruct (N.eqb_spec c a) as [E|E]; [exfalso; lia|]
  end.
  cbn [orb]. rewrite !orb_false_r. apply between_false. lia.
Qed.

(** The characters of an author whose cleaned text is a name: letters,
    commas, dots, underscores and white space. *)
Lemma author_chars (A : list N) :
  isAuthorField (cleanupText A) ->
  Forall (fun c => isNameChar c = true \/ isSeparator c = true) A.
Proof.
  intros (b & more & Heq & Hb & Hall & _). apply Forall_forall. intros c Hin.
  destruct (isContent c) eqn:Hc.
  - left.
    assert (Hin' : In c (List.filter isContent (cleanupText A))).
    { rewrite cleanupText_content. apply filter_In. split; [|exact Hc].
      apply list_elem_of_In, Hin. }
    apply filter_In in Hin' as [Hin' _]. rewrite Heq in Hin'.
    destruct Hin' as [<-|Hin'].
    + unfold isLetter, cls_match in Hb. unfold isNameChar, cls_match.
      cbn [existsb xorb] in *. rewrite !orb_false_r in Hb.
      repeat (apply orb_true_iff in Hb as [Hb|Hb]); rewrite Hb;
        rewrite ?orb_true_r; reflexivity.
    + rewrite Forall_forall in Hall. apply Hall, list_elem_of_In, Hin'.
  - right. unfold isContent in Hc. unfold isSeparator.
    destruct (isUnderscoreOrDot c); [reflexivity|]. destruct (isSpace c); [reflexivity|].
    discriminate Hc.
Qed.

Lemma author_valid_chars (A : list N) :
  isAuthorField (cleanupText A) ->
  Forall (fun c => c <> ch "-" /\ isInvalidChar c = false) A.
Proof.
  intros HA. eapply Forall_impl; [exact (author_chars A HA)|].
  intros c Hc. split.
  - intros ->. destruct Hc as [Hc|Hc]; discriminate Hc.
  - destruct (isInvalidChar c) eqn:E; [|reflexivity].
    apply invalid_not_name in E as [E1 E2]. destruct Hc; congruence.
Qed.

Lemma canonicalName_stem (T A : list N) (Y : Z) :
  canonicalName T A Y = canonicalStem T A Y ++ js ".pdf".
Proof.
  unfold canonicalName, canonicalStem. rewrite <- !app_assoc. reflexivity.
Qed.

Lemma year_bracket_plain (D : list N) :
  Forall (fun c => isDigit c = true) D ->
  Forall (fun c => isSeparator c = false) (ch "[" :: D ++ [ch "]"]).
Proof.
  intros HD. constructor; [reflexivity|]. apply Forall_app. split.
  - eapply Forall_impl; [exact HD|]. apply digit_not_separator.
  - repeat constructor.
Qed.

(** Cleaning a canonical stem cleans the author and nothing else. *)
Lemma cleanupText_stem (T A D : list N) :
  T <> [] -> cleanupText T = T -> cleanupText A <> [] ->
  Forall (fun c => isDigit c = true) D ->
  cleanupText (T ++ js " - " ++ A ++ js " [" ++ D ++ js "]")
  = T ++ js " - " ++ cleanupText A ++ js " [" ++ D ++ js "]".
Proof.
  intros HT HTclean HA HD.
  pose proof (cleanupText_plain _ (year_bracket_plain D HD)) as HZ.
  assert (H2 : cleanupText (A ++ ch " " :: ch "[" :: D ++ [ch "]"])
               = cleanupText A ++ ch " " :: ch "[" :: D ++ [ch "]"]).
  { rewrite cleanupText_space, HZ; [reflexivity | exact HA|]. rewrite HZ. discriminate. }
  assert (H1 : cleanupText ([ch "-"] ++ ch " " :: A ++ ch " " :: ch "[" :: D ++ [ch "]"])
               = [ch "-"] ++ ch " " :: cleanupText A ++ ch " " :: ch "[" :: D ++ [ch "]"]).
  { rewrite cleanupText_space, H2; [reflexivity | discriminate|].
    rewrite H2. destruct (cleanupText A); discriminate. }
  change (T ++ js " - " ++ A ++ js " [" ++ D ++ js "]")
    with (T ++ ch " " :: [ch "-"] ++ ch " " :: A ++ ch " " :: ch "[" :: D ++ [ch "]"]).
  rewrite cleanupText_space, H1, HTclean; [reflexivity | congruence|].
  rewrite H1. discriminate.
Qed.

Lemma clean_shape (t : list N) :
  cleanupText t = t ->
  Forall (fun c => isUnderscoreOrDot c = false) t
  /\ spaced true t = true /\ dropSpaces (rev t) = rev t.
Proof. intros H. pose proof (cleanupText_shape t) as Hs. rewrite H in Hs. exact Hs. Qed.

(** The parser reads a canonical name as its title, its cleaned author
    and its year, in the order in which [splitTwoParts] puts them. *)
Lemma parseFilename_canonical (T A : list N) (Y : Z) :
  cleanTitle T -> isAuthorField (cleanupText A) -> (1000 <= Y <= 9999)%Z ->
  parseFilename (canonicalName T A Y) = splitTwoParts T (cleanupText A) (Some Y).
Proof.
  intros (HTne & HTclean & HTchars & _ & HTfinish & HTdash & HTpub) HA HY.
  destruct (year_digits Y HY) as (HDlen & HD & HDparse).
  destruct (clean_shape T HTclean) as (_ & HTsp & HTend).
  destruct (cleanupText_shape A) as (_ & HAsp & HAend).
  assert (HAne : cleanupText A <> []).
  { destruct HA as (b & more & -> & _). discriminate. }
  set (A' := cleanupText A) in *. set (D := numberToString Y) in *.
  unfold parseFilename, parsePrelude. cbv zeta.
  rewrite canonicalName_stem. unfold canonicalStem. fold D.
  rewrite parseName_pdf.
  2:{ destruct T; [congruence | discriminate]. }
  2:{ assert (Hslash : forall c, isInvalidChar c = false -> NodePath.isSlash c = false).
      { intros c Hc. destruct (NodePath.isSlash c) eqn:E; [|reflexivity].
        apply N.eqb_eq in E. subst c. discriminate Hc. }
      apply Forall_app. split.
      { eapply Forall_impl; [exact HTchars|]. intros c Hc. apply Hslash, Hc. }
      apply Forall_app. split; [repeat constructor|].
      apply Forall_app. split.
      { eapply Forall_impl; [exact (author_valid_chars A HA)|].
        intros c [_ Hc]. apply Hslash, Hc. }
      apply Forall_app. split; [repeat constructor|].
      apply Forall_app. split; [|repeat constructor].
      eapply Forall_impl; [exact HD|]. intros c Hc.
      destruct (NodePath.isSlash c) eqn:E; [|reflexivity].
      apply N.eqb_eq in E. subst c. discriminate Hc. }
  rewrite (cleanupText_stem T A D HTne HTclean HAne HD). fold A'.
  change (T ++ js " - " ++ A' ++ js " [" ++ D ++ js "]")
    with (T ++ ch " " :: ch "-" :: (ch " " :: A' ++ js " [" ++ D ++ js "]")).
  rewrite (stripPublishers_title T _ HTpub).
  change (T ++ ch " " :: ch "-" :: (ch " " :: A' ++ js " [" ++ D ++ js "]"))
    with (T ++ js " - " ++ A' ++ js " [" ++ D ++ js "]").
  replace (T ++ js " - " ++ A' ++ js " [" ++ D ++ js "]")
    with ((T ++ js " - " ++ A') ++ js " [" ++ D ++ js "]")
    by (rewrite <- !app_assoc; reflexivity).
  set (U := T ++ js " - " ++ A').
  destruct (yearPattern_bracketed U D HDlen HD) as (m & Hexec & Hstart & Hend & Hcap).
  assert (Hgroup : group (U ++ js " [" ++ D ++ js "]") m 1 = Some (D : jsstring)).
  { unfold group. rewrite Hcap. reflexivity. }
  rewrite Hexec, Hgroup. change (default [] (Some (D : jsstring))) with D.
  rewrite HDparse.
  assert (Htruthy : truthyNum (Some Y) = true).
  { cbn [truthyNum]. apply negb_true_iff, Z.eqb_neq. lia. }
  rewrite Htruthy. unfold replace. rewrite Hexec, Hstart, Hend.
  assert (Hcut : firstn (length U + 1) (U ++ js " [" ++ D ++ js "]")
                 ++ [] ++ skipn (length U + 7) (U ++ js " [" ++ D ++ js "]")
                 = [] ++ U ++ [ch " "]).
  { replace (U ++ js " [" ++ D ++ js "]") with ((U ++ [ch " "]) ++ ch "[" :: D ++ [ch "]"])
      by (rewrite <- app_assoc; reflexivity).
    rewrite take_app_length' by (rewrite length_app; reflexivity).
    rewrite drop_ge
      by (rewrite !length_app; cbn [length]; rewrite length_app, HDlen; cbn [length]; lia).
    rewrite app_nil_r. reflexivity. }
  rewrite Hcut.
  destruct (trimmed_ends T HTsp HTend) as [HThead _].
  destruct (trimmed_ends A' HAsp HAend) as [_ HAlast].
  rewrite trim_sandwich; [| constructor | repeat constructor | |].
  - unfold U. apply patternLoop_two_parts; assumption.
  - intros c v Hcv. unfold U in Hcv. destruct T as [|c' T']; [congruence|].
    cbn [app] in Hcv. inversion Hcv as [[Hc Hv]]. rewrite <- Hc.
    exact (HThead _ _ eq_refl).
  - intros u c Huc. unfold U in Huc.
    destruct (exists_last HAne) as (A0 & a & HA0).
    rewrite HA0, !app_assoc in Huc. apply app_inj_tail in Huc as [_ <-].
    exact (HAlast _ _ HA0).
Qed.

(** ** Formatting what was parsed *)

Lemma space_class (w : list N) :
  Forall (fun c => cls_match false false [Space] c = true) w ->
  Forall (fun c => isSpace c = true) w.
Proof.
  intros Hw. eapply Forall_impl; [exact Hw|]. intros c Hc. unfold cls_match in Hc.
  cbn [existsb item_match item_has xorb] in Hc. rewrite orb_false_r in Hc. exact Hc.
Qed.

Lemma trailingDash_unmatched (s : list N) :
  (forall u c, s = u ++ [c] -> isSpace c = false /\ c <> ch "-") ->
  exec trailingDash s = None.
Proof.
  intros Hs. apply exec_unmatched. intros i y H.
  change (pattern trailingDash)
    with (Seq (star ws) (Seq (Lit (ch "-")) (Seq (star ws) Eol))) in H.
  cbn [matches ignoreCase trailingDash re] in H.
  destruct H as (z1 & H1 & z2 & (b & t & Hb & Hcanon & ->) & z3 & H3 & Hend & _).
  unfold star in H1, H3. cbn [matches groups] in H1, H3.
  apply (repeats_one_inv (fun c => cls_match false false [Space] c = true))
    in H1 as (ds & Hds & _); [|discriminate].
  apply (repeats_one_inv (fun c => cls_match false false [Space] c = true))
    in H3 as (ds2 & Hds2 & _ & _ & Hall2 & _); [|discriminate].
  cbn [rest step1] in Hds, Hds2. unfold canon in Hcanon. subst b.
  rewrite Hb in Hds2. cbn [tl] in Hds2. rewrite Hend, app_nil_r in Hds2. subst t.
  assert (Heq : s = firstn i s ++ ds ++ ch "-" :: ds2).
  { rewrite <- (take_drop i s) at 1. rewrite Hds, Hb. reflexivity. }
  destruct ds2 as [|x ds2] using rev_ind.
  - rewrite app_assoc in Heq. destruct (Hs _ _ Heq) as [_ Hne]. congruence.
  - clear IHds2.
    replace (firstn i s ++ ds ++ ch "-" :: ds2 ++ [x])
      with ((firstn i s ++ ds ++ ch "-" :: ds2) ++ [x]) in Heq
      by (rewrite <- !app_assoc; reflexivity).
    destruct (Hs _ _ Heq) as [Hx _].
    apply space_class, Forall_app in Hall2 as [_ Hall2].
    pose proof (Forall_inv Hall2) as Hx'. cbv beta in Hx'. congruence.
Qed.

Lemma leadingDash_unmatched (s : list N) :
  (forall c v, s = c :: v -> isSpace c = false /\ c <> ch "-") ->
  exec leadingDash s = None.
Proof.
  intros Hs. apply exec_unmatched. intros i y H.
  change (pattern leadingDash)
    with (Seq Bol (Seq (star ws) (Seq (Lit (ch "-")) (star ws)))) in H.
  cbn [matches ignoreCase leadingDash re] in H.
  destruct H as (z0 & [Hi ->] & z1 & H1 & z2 & (b & t & Hb & Hcanon & _) & _).
  cbn [endIndex] in Hi. subst i. rewrite drop_0 in H1.
  unfold star in H1. cbn [matches groups] in H1.
  apply (repeats_one_inv (fun c => cls_match false false [Space] c = true))
    in H1 as (ds & Hds & _ & _ & Hall & _); [|discriminate].
  cbn [rest] in Hds. unfold canon in Hcanon. subst b. rewrite Hb in Hds.
  destruct ds as [|x ds].
  - destruct (Hs _ _ Hds) as [_ Hne]. congruence.
  - destruct (Hs _ _ Hds) as [Hx _].
    apply space_class in Hall. pose proof (Forall_inv Hall) as Hx'. cbv beta in Hx'.
    congruence.
Qed.

(** Taking dashes off the ends leaves a text alone that has none
    there. *)
Lemma undashed (s : list N) :
  (forall c v, s = c :: v -> isSpace c = false /\ c <> ch "-") ->
  (forall u c, s = u ++ [c] -> isSpace c = false /\ c <> ch "-") ->
  replace leadingDash [] (replace trailingDash [] s) = s.
Proof.
  intros Hhead Hlast.
  rewrite (replace_unmatched trailingDash) by (apply trailingDash_unmatched, Hlast).
  apply replace_unmatched, leadingDash_unmatched, Hhead.
Qed.

Lemma startsWith_dash (s : list N) : ch "-" ∉ s -> startsWith s (js "-") = false.
Proof.
  intros Hs. destruct s as [|c s]; [reflexivity|]. cbn [startsWith js].
  change (js "-") with [ch "-"]. cbn [startsWith].
  destruct (N.eqb_spec (ch "-") c) as [<-|Hne]; [|reflexivity].
  exfalso. apply Hs. left.
Qed.

(** In a single-spaced text the pattern for two dashes in a row finds
    [ - - ] or nothing. *)
Lemma doubleDash_unmatched (s : list N) :
  spaced true s = true -> includes s (js " - - ") = false ->
  exec (re (cat [plus ws; Lit (ch "-"); plus ws; Lit (ch "-"); plus ws])) s = None.
Proof.
  intros Hsp Hinc. apply exec_unmatched. intros i y H.
  cbn [pattern ignoreCase re] in H.
  change (cat [plus ws; Lit (ch "-"); plus ws; Lit (ch "-"); plus ws])
    with (Seq (plus ws) (Seq (Lit (ch "-")) (Seq (plus ws) (Seq (Lit (ch "-")) (plus ws)))))
    in H.
  cbn [matches] in H.
  destruct H as (z1 & H1 & z2 & (b1 & t1 & Hb1 & Hc1 & ->) & z3 & H3
                 & z4 & (b2 & t2 & Hb2 & Hc2 & ->) & H5).
  unfold canon in Hc1, Hc2. subst b1 b2.
  unfold plus in H1, H3, H5. cbn [matches groups] in H1, H3, H5.
  apply (repeats_one_inv (fun c => cls_match false false [Space] c = true))
    in H1 as (w1 & Hw1 & Hn1 & _ & Hall1 & _); [|discriminate].
  apply (repeats_one_inv (fun c => cls_match false false [Space] c = true))
    in H3 as (w2 & Hw2 & Hn2 & _ & Hall2 & _); [|discriminate].
  apply (repeats_one_inv (fun c => cls_match false false [Space] c = true))
    in H5 as (w3 & Hw3 & Hn3 & _ & Hall3 & _); [|discriminate].
  cbn [rest step1] in Hw1, Hw2, Hw3.
  rewrite Hb1 in Hw2. rewrite Hb2 in Hw3. cbn [tl] in Hw2, Hw3.
  apply space_class in Hall1, Hall2, Hall3.
  assert (Hs : s = firstn i s ++ w1 ++ ch "-" :: w2 ++ ch "-" :: w3 ++ rest y).
  { rewrite <- (take_drop i s) at 1. rewrite Hw1, Hb1, Hw2, Hb2, Hw3. reflexivity. }
  destruct (spaced_chars s true Hsp) as [Hchars Hpairs].
  assert (Hspace : forall x, x ∈ s -> isSpace x = true -> x = ch " ").
  { intros x Hx. rewrite Forall_forall in Hchars. exact (Hchars x Hx). }
  destruct w1 as [|x1 w1] using rev_ind; [cbn in Hn1; lia|]. clear IHw1.
  destruct w2 as [|x2 w2]; [cbn in Hn2; lia|].
  destruct w3 as [|x3 w3]; [cbn in Hn3; lia|].
  apply Forall_app in Hall1 as [_ Hall1].
  pose proof (Forall_inv Hall1) as Hx1. pose proof (Forall_inv Hall2) as Hx2.
  pose proof (Forall_inv Hall3) as Hx3. cbv beta in Hx1, Hx2, Hx3.
  assert (Hin : forall x, x = x1 \/ x = x2 \/ x = x3 -> x ∈ s).
  { intros x Hx. rewrite Hs at 1. clear -Hx.
    destruct Hx as [Hx | [Hx | Hx]]; subst x; set_solver. }
  rewrite (Hspace x1 (Hin x1 ltac:(auto)) Hx1) in Hs.
  rewrite (Hspace x2 (Hin x2 ltac:(auto)) Hx2) in Hs.
  rewrite (Hspace x3 (Hin x3 ltac:(auto)) Hx3) in Hs.
  destruct w2 as [|x2' w2].
  - rewrite (includes_app (firstn i s ++ w1) (js " - - ") (w3 ++ rest y)) in Hinc;
      [discriminate|].
    rewrite Hs at 1. rewrite <- !app_assoc. reflexivity.
  - apply Forall_inv_tail in Hall2. pose proof (Forall_inv Hall2) as Hx2'. cbv beta in Hx2'.
    assert (Hin2 : x2' ∈ s).
    { rewrite Hs at 1. clear. set_solver. }
    rewrite (Hspace x2' Hin2 Hx2') in Hs. exfalso.
    apply (Hpairs (firstn i s ++ (w1 ++ [ch " "]) ++ [ch "-"])
                  (w2 ++ ch "-" :: (ch " " :: w3) ++ rest y)).
    rewrite Hs at 1. rewrite <- !app_assoc. reflexivity.
Qed.

Lemma spaced_app (u v : list N) : forall b,
  spaced b u = true -> spaced (runEnd isSpace b u) v = true -> spaced b (u ++ v) = true.
Proof.
  induction u as [|c u IH]; intros b Hu Hv; [exact Hv|].
  rewrite runEnd_cons in Hv. cbn [app spaced] in *.
  destruct (isSpace c).
  - apply andb_true_iff in Hu as [Hu1 Hu2]. rewrite Hu1. cbn [andb]. apply IH; assumption.
  - apply IH; assumption.
Qed.

Lemma spaced_plain (z : list N) :
  Forall (fun c => isSpace c = false) z -> forall b, spaced b z = true.
Proof.
  induction 1 as [|c z Hc _ IH]; intros b; [reflexivity|]. cbn [spaced]. rewrite Hc. apply IH.
Qed.

Lemma runEnd_trimmed (t : list N) b :
  t <> [] -> (forall u c, t = u ++ [c] -> isSpace c = false) -> runEnd isSpace b t = false.
Proof.
  intros Hne Hlast. unfold runEnd. destruct (exists_last Hne) as (u & c & ->).
  rewrite last_snoc. exact (Hlast _ _ eq_refl).
Qed.

(** The sanitising step leaves a name with valid characters and single
    spaces as it is, unless [ - - ] occurs in it. *)
Lemma sanitize_fixed (s : list N) :
  Forall (fun c => isInvalidChar c = false) s ->
  spaced true s = true -> dropSpaces (rev s) = rev s ->
  includes s (js " - - ") = false ->
  sanitize s = s.
Proof.
  intros Hvalid Hsp Hend Hinc. unfold sanitize.
  rewrite replaceAll_class. fold isInvalidChar.
  rewrite replaceClass_keeps.
  2:{ apply forallb_forall. intros c Hin. rewrite Forall_forall in Hvalid.
      rewrite (Hvalid c) by (apply list_elem_of_In, Hin). reflexivity. }
  rewrite (replaceAll_unmatched _ _ _ (doubleDash_unmatched s Hsp Hinc)).
  unfold plus, ws. rewrite replaceAll_plus.
  rewrite (collapseRuns_ext _ isSpace).
  2:{ intros c. unfold cls_match. cbn [existsb item_match item_has xorb].
      apply orb_false_r. }
  rewrite collapseRuns_spaced_fixed by (apply spaced_weaken, Hsp).
  apply trim_fixed; assumption.
Qed.

Lemma author_nonempty (A : list N) : cleanupText A <> [] -> A <> [].
Proof. intros H ->. apply H. reflexivity. Qed.

(** The shape of a canonical stem: valid characters and single
    spaces. *)
Lemma stem_shape (T A D : list N) :
  T <> [] -> spaced true T = true -> dropSpaces (rev T) = rev T ->
  Forall (fun c => isInvalidChar c = false) T ->
  A <> [] -> spaced true A = true -> dropSpaces (rev A) = rev A ->
  Forall (fun c => isInvalidChar c = false) A ->
  Forall (fun c => isDigit c = true) D ->
  let s := T ++ js " - " ++ A ++ js " [" ++ D ++ js "]" in
  Forall (fun c => isInvalidChar c = false) s
  /\ spaced true s = true
  /\ dropSpaces (rev s) = rev s.
Proof.
  intros HTne HTsp HTend HT HAne HAsp HAend HA HD s.
  destruct (trimmed_ends T HTsp HTend) as [_ HTlast].
  destruct (trimmed_ends A HAsp HAend) as [_ HAlast].
  assert (HDspace : Forall (fun c => isSpace c = false) D).
  { eapply Forall_impl; [exact HD|]. intros c Hc.
    apply digit_not_separator in Hc. apply orb_false_iff in Hc as [_ Hc]. exact Hc. }
  split.
  { unfold s. apply Forall_app. split; [exact HT|].
    apply Forall_app. split; [repeat constructor|].
    apply Forall_app. split; [exact HA|].
    apply Forall_app. split; [repeat constructor|].
    apply Forall_app. split; [|repeat constructor].
    eapply Forall_impl; [exact HD|]. intros c Hc. apply digit_valid.
    apply between_true in Hc. exact Hc. }
  split.
  { unfold s. apply spaced_app; [exact HTsp|].
    rewrite (runEnd_trimmed T true HTne HTlast).
    change (js " - " ++ A ++ js " [" ++ D ++ js "]")
      with (ch " " :: ch "-" :: ch " " :: A ++ js " [" ++ D ++ js "]").
    cbn [spaced]. change (isSpace (ch " ")) with true. change (isSpace (ch "-")) with false.
    cbn iota. change ((ch " " =? 32)%N) with true. cbn [andb negb].
    apply spaced_app; [exact HAsp|].
    rewrite (runEnd_trimmed A true HAne HAlast).
    change (js " [" ++ D ++ js "]") with (ch " " :: ch "[" :: D ++ [ch "]"]).
    cbn [spaced]. change (isSpace (ch " ")) with true. change (isSpace (ch "[")) with false.
    cbn iota. change ((ch " " =? 32)%N) with true. cbn [andb negb].
    apply spaced_plain. apply Forall_app. split; [exact HDspace | repeat constructor]. }
  { unfold s. change (js "]") with [ch "]"].
    replace (T ++ js " - " ++ A ++ js " [" ++ D ++ [ch "]"])
      with ((T ++ js " - " ++ A ++ js " [" ++ D) ++ [ch "]"])
      by (rewrite <- !app_assoc; reflexivity).
    rewrite rev_unit. reflexivity. }
Qed.

(** The formatter writes the parsed fields of a canonical name back as
    that name. *)
Lemma generateNewFilename_canonical (T A : list N) (Y : Z) :
  cleanTitle T -> formattedAuthor A -> (1000 <= Y <= 9999)%Z ->
  isValidAuthorName (cleanupText A) = true ->
  looksSuspicious (canonicalStem T A Y) = false ->
  generateNewFilename (mkMetadata (Some T) (Some (cleanupText A)) (Some Y))
  = Some (canonicalName T A Y).
Proof.
  intros (HTne & HTclean & HTchars & HTstart & HTfinish & _ & _)
         ((HAsp & HAend) & HAfield & HAformat) HY Hvalid Hsusp.
  destruct (year_digits Y HY) as (HDlen & HD & _).
  destruct (clean_shape T HTclean) as (_ & HTsp & HTend).
  destruct (cleanupText_shape A) as (HA'ud & HA'sp & HA'end).
  assert (HA'ne : cleanupText A <> []).
  { destruct HAfield as (b & more & -> & _). discriminate. }
  pose proof (author_nonempty A HA'ne) as HAne.
  pose proof (author_valid_chars A HAfield) as HAchars.
  assert (HAdash : ch "-" ∉ A).
  { intros Hin. rewrite Forall_forall in HAchars. apply HAchars in Hin as [Hin _].
    congruence. }
  assert (HAvalid : Forall (fun c => isInvalidChar c = false) A).
  { eapply Forall_impl; [exact HAchars|]. intros c [_ Hc]. exact Hc. }
  destruct (stem_shape T A (numberToString Y) HTne HTsp HTend HTchars HAne HAsp HAend
              HAvalid HD) as (Hchars & Hsp & Hend).
  destruct (trimmed_ends T HTsp HTend) as [HThead HTlast].
  destruct (trimmed_ends A HAsp HAend) as [HAhead HAlast].
  assert (HTundashed : replace leadingDash [] (replace trailingDash [] T) = T).
  { apply undashed.
    - intros c v Hcv. split; [exact (HThead _ _ Hcv) | exact (startsWith_head _ HTstart _ _ Hcv)].
    - intros u c Huc. split; [exact (HTlast _ _ Huc) | exact (endsWith_last _ HTfinish _ _ Huc)]. }
  assert (HAundashed : replace leadingDash [] (replace trailingDash [] A) = A).
  { apply undashed.
    - intros c v Hcv. split; [exact (HAhead _ _ Hcv)|].
      intros ->. apply HAdash. rewrite Hcv. left.
    - intros u c Huc. split; [exact (HAlast _ _ Huc)|].
      intros ->. apply HAdash. rewrite Huc. apply elem_of_app. right. left. }
  unfold generateNewFilename.
  cbn [title author year truthyStr]. cbv [fmap option_fmap option_map default from_option id].
  assert (Htruthy : forall s : list N, s <> [] -> truthy s = true).
  { intros s Hs. destruct s; [congruence | reflexivity]. }
  rewrite (Htruthy T HTne). cbn [negb].
  rewrite HTclean, HTundashed, (Htruthy T HTne). cbn [negb].
  rewrite (cleanupText_stable (cleanupText A) HA'ud HA'sp HA'end).
  cbn [truthyStr]. rewrite (Htruthy _ HA'ne), Hvalid. cbn [andb].
  rewrite HAformat, HAundashed, (Htruthy A HAne).
  rewrite HTfinish, (startsWith_dash A HAdash). cbn [andb negb].
  unfold yearSuffix.
  assert (HYt : truthyNum (Some Y) = true).
  { cbn [truthyNum]. apply negb_true_iff, Z.eqb_neq. lia. }
  rewrite HYt.
  replace ((T ++ js " - " ++ A) ++ js " [" ++ numberToString Y ++ js "]")
    with (canonicalStem T A Y)
    by (unfold canonicalStem; rewrite <- !app_assoc; reflexivity).
  assert (Hsan : sanitize (canonicalStem T A Y) = canonicalStem T A Y).
  { apply sanitize_fixed; try assumption.
    unfold looksSuspicious in Hsusp. apply orb_false_iff in Hsusp as [Hsusp _].
    apply orb_false_iff in Hsusp as [Hsusp _]. exact Hsusp. }
  rewrite Hsan, Hsusp, canonicalName_stem. reflexivity.
Qed.

(** ** Idempotence on canonical names *)

(** C4 (as the code behaves).  Take a title that [cleanupText] leaves
    as it is, free of the characters the formatter replaces and of a
    publisher prefix, with no dash at either end or between two spaces,
    and that is not taken for an author; an author written as
    [formatAuthorName] writes its cleaned text, which is a letter
    followed by at most 50 letters, spaces, commas and dots, is accepted
    by [isValidAuthorName] and is taken for an author or is shorter than
    the title; and a year of four digits; such that the name does not
    trip the final check for suspicious patterns.  Then [parseFilename]
    reads the three back from [T - A [Y].pdf], [generateNewFilename]
    writes that same name, and [processPdfFile] attempts no rename and
    leaves the file system unchanged. *)
Theorem canonical_name_left_alone (fs : FileSystem) (filePath T A : jsstring) (Y : Z) :
  cleanTitle T -> formattedAuthor A -> (1000 <= Y <= 9999)%Z ->
  isLikelyAuthor T = false ->
  isValidAuthorName (cleanupText A) = true ->
  isLikelyAuthor (cleanupText A) = true \/ length (cleanupText A) < length T ->
  looksSuspicious (canonicalStem T A Y) = false ->
  NodePath.basename filePath = canonicalName T A Y ->
  parseFilename (canonicalName T A Y) = mkMetadata (Some T) (Some (cleanupText A)) (Some Y)
  /\ generateNewFilename (parseFilename (canonicalName T A Y)) = Some (canonicalName T A Y)
  /\ (processPdfFile fs filePath).1.1 = fs
  /\ (processPdfFile fs filePath).1.2 = Finished filePath (Skipped NothingToDo)
  /\ renameCalls (processPdfFile fs filePath).2 = [].
Proof.
  intros HT HA HY HTauthor Hvalid Hauthor Hsusp Hbase.
  assert (Hparse : parseFilename (canonicalName T A Y)
                   = mkMetadata (Some T) (Some (cleanupText A)) (Some Y)).
  { rewrite (parseFilename_canonical T A Y HT (proj1 (proj2 HA)) HY).
    unfold splitTwoParts. cbv zeta. rewrite HTauthor. cbn [orb].
    destruct Hauthor as [Hlikely|Hshorter].
    - rewrite Hlikely. reflexivity.
    - destruct (isLikelyAuthor (cleanupText A)); [reflexivity|].
      replace (length T <=? length (cleanupText A)) with false
        by (symmetry; apply Nat.leb_gt; exact Hshorter).
      reflexivity. }
  assert (Hname : generateNewFilename (parseFilename (canonicalName T A Y))
                  = Some (canonicalName T A Y)).
  { rewrite Hparse. apply generateNewFilename_canonical; assumption. }
  split; [exact Hparse|]. split; [exact Hname|].
  rewrite processPdfFile_direct. unfold processPdfFileDirect. cbv zeta.
  apply direct_fixed_point. rewrite Hbase.
  assert (Hauthor' : truthyStr (author (parseFilename (canonicalName T A Y))) = true).
  { rewrite Hparse. cbn [author truthyStr].
    destruct HA as (_ & (b & more & -> & _) & _). reflexivity. }
  unfold resolveMetadata. rewrite Hauthor'. cbn [negb fst]. exact Hname.
Qed.

(** Witness for C4: [Book Title - Smith J. [2019].pdf]. *)
Lemma smith_left_alone_witness :
  let filePath := js "/lib/Book Title - Smith J. [2019].pdf" in
  let fs := mkFS {[filePath := mkFile 1 None]} {[js "/lib"]} in
  parseFilename (js "Book Title - Smith J. [2019].pdf")
    = mkMetadata (Some (js "Book Title")) (Some (js "Smith J")) (Some 2019%Z)
  /\ (processPdfFile fs filePath).1.1 = fs
  /\ (processPdfFile fs filePath).1.2 = Finished filePath (Skipped NothingToDo)
  /\ renameCalls (processPdfFile fs filePath).2 = [].
Proof.
  intros filePath fs.
  destruct (canonical_name_left_alone fs filePath (js "Book Title") (js "Smith J.") 2019%Z)
    as (Hparse & _ & Hfs & Hout & Hcalls).
  - split; [discriminate|]. split; [vm_compute; reflexivity|].
    split; [repeat constructor|]. repeat split; vm_compute; reflexivity.
  - split; [split; vm_compute; reflexivity|]. split; [|vm_compute; reflexivity].
    exists (ch "S"), (js "mith J"). split; [vm_compute; reflexivity|].
    split; [vm_compute; reflexivity|]. split; [|vm_compute; lia].
    repeat constructor.
  - lia.
  - vm_compute. reflexivity.
  - vm_compute. reflexivity.
  - left. vm_compute. reflexivity.
  - vm_compute. reflexivity.
  - vm_compute. reflexivity.
  - split; [exact Hparse|]. split; [exact Hfs|]. split; [exact Hout | exact Hcalls].
Defined.

(** None of the conditions on the title, the author and the year follows
    from their validity.  A title that is taken for an author changes
    places with the author; a year of four equal digits trips the check
    for repeated characters, and the author is dropped. *)
Lemma title_and_year_conditions_needed :
  generateNewFilename (parseFilename (canonicalName (js "Smith J") (js "Doe A.") 2019%Z))
    = Some (js "Doe A - Smith J. [2019].pdf")
  /\ generateNewFilename (parseFilename (js "Doe A - Smith J. [2019].pdf"))
     = Some (js "Smith J - Doe A. [2019].pdf")
  /\ generateNewFilename
       (parseFilename (canonicalName (js "Book Title") (js "Smith J.") 1111%Z))
     = Some (js "Book Title [1111].pdf").
Proof. vm_compute. repeat split; reflexivity. Qed.
